(** * Centric integration bridge: lifecycle state machine and worker loop

    A shallow embedding of [core/startable.py] (the [Startable] life cycle,
    its listeners and the composite [StartableManager]) and of the dispatch
    loop of [core/msgpexec.py] ([ProcessThreadExecutor.subprocess_entry]),
    followed by the properties the specification states about them.

    Conventions of the embedding.
    - A Python call is a function from the object before the call to a
      result record: the object after, the events that happened in order,
      and the exception raised, if any.  Only instances of [Exception] are
      modelled (what [except Exception] catches).
    - One thread: [RLock.acquire] always succeeds at once, so the lock and
      the [finally: release] clauses leave no mark on a result.
    - A subclass hook may read the whole object but writes only the fields
      the subclass adds ([ext]); a listener callback observes the object and
      either returns or raises. *)

From Stdlib Require Import List Bool Arith ZArith String Lia.
Import ListNotations.

Set Implicit Arguments.

(** ** Data model *)

(** Python exceptions, identified by their message. *)
Definition exn := string.

(** The configuration object: [None], or a dictionary. *)
Definition Config := option (list (string * string)).

(** [Startable.FAILED ... Startable.UNCONFIGURED]. *)
Inductive State :=
| FAILED | STOPPED | STARTING | STARTED | STOPPING
| CONFIGURING | CONFIGURED | UNCONFIGURED.

(** The integer each state constant is bound to (line 74). *)
Definition state_code (x : State) : Z :=
  match x with
  | FAILED => -1 | STOPPED => 0 | STARTING => 1 | STARTED => 2
  | STOPPING => 3 | CONFIGURING => 4 | CONFIGURED => 5 | UNCONFIGURED => 6
  end%Z.

(** [==] on states is [==] on their integers. *)
Definition state_eqb (a b : State) : bool := Z.eqb (state_code a) (state_code b).

(** [x in [ ... ]] on states. *)
Definition state_in (x : State) (l : list State) : bool :=
  existsb (state_eqb x) l.

(** What a user callback does when it is called on an object whose state
    field holds the given value: [None] when it returns, [Some e] when it
    raises [e]. *)
Definition Callback := State -> option exn.

(** [StartableListener]: an object identity and seven optional slots. *)
Record StartableListener := mkListener {
  lid : nat;
  _starting : option Callback;
  _started : option Callback;
  _failure : option Callback;
  _stopping : option Callback;
  _stopped : option Callback;
  _configuring : option Callback;
  _configured_cb : option Callback
}.

(** The seven listener methods, with the arguments they get besides the
    object itself. *)
Inductive Event :=
| on_starting
| on_started
| on_failure (exc : exn)
| on_stopping
| on_stopped
| on_configuring (config : Config)
| on_configured (config : Config).

(** The slot a listener method reads. *)
Definition slot (l : StartableListener) (ev : Event) : option Callback :=
  match ev with
  | on_starting => _starting l
  | on_started => _started l
  | on_failure _ => _failure l
  | on_stopping => _stopping l
  | on_stopped => _stopped l
  | on_configuring _ => _configuring l
  | on_configured _ => _configured_cb l
  end.

(** [listener.on_xxx(obj, ...)]: [self._xxx(obj, ...) if self._xxx else None]. *)
Definition call_listener (l : StartableListener) (ev : Event) (st : State)
  : option exn :=
  match slot l ev with
  | Some cb => cb st
  | None => None
  end.

(** The three hooks a subclass overrides. *)
Inductive HookKind := HConfigure | HStart | HStop.

(** What happens during a call, in order.  [H] is whatever a hook records
    about its own work. *)
Inductive Ev (H : Type) :=
| EState (x : State)                                   (* self._state = x *)
| ENotify (l : StartableListener) (ev : Event)         (* l.on_xxx(self, ..) *)
| EHook (k : HookKind) (inner : H) (r : option exn)    (* self.do_xxx() *)
| ELogInfo (msg : string).                             (* logging.info *)
Arguments EState {H} x.
Arguments ENotify {H} l ev.
Arguments EHook {H} k inner r.
Arguments ELogInfo {H} msg.

(** The fields of a [Startable]; [ext] holds the fields of the subclass. *)
Record Startable (Ext : Type) := mkStartable {
  _state : State;
  _configured : State;
  _enabled : bool;
  _listeners : list StartableListener;
  _configuration : Config;
  ext : Ext
}.

(** Any Python value handed to [add_listener] / [remove_listener]. *)
Inductive PyValue :=
| VNone
| VInt (z : Z)
| VStr (s : string)
| VListener (l : StartableListener).

(** [isinstance(v, StartableListener)], with the listener when it holds. *)
Definition as_listener (v : PyValue) : option StartableListener :=
  match v with
  | VListener l => Some l
  | _ => None
  end.

(** [==] on listeners is object identity. *)
Definition listener_eqb (a b : StartableListener) : bool :=
  Nat.eqb (lid a) (lid b).

(** The result of a call. *)
Record Res (Ext H : Type) := mkRes {
  obj : Startable Ext;
  trace : list (Ev H);
  raised : option exn
}.

(** What a hook returns: the subclass fields after it, its own record, and
    the exception it raised. *)
Record HookRes (Ext H : Type) := mkHookRes {
  h_ext : Ext;
  h_inner : H;
  h_raised : option exn
}.

(** The three hooks of a class. *)
Record Hooks (Ext H : Type) := mkHooks {
  do_configure : Startable Ext -> HookRes Ext H;
  do_start : Startable Ext -> HookRes Ext H;
  do_stop : Startable Ext -> HookRes Ext H
}.

(** ** The [Startable] class *)

Section StartableClass.
Context {Ext H : Type}.
Variable hooks : Hooks Ext H.

Local Abbreviation obj_t := (Startable Ext).
Local Abbreviation res_t := (Res Ext H).
Local Abbreviation action := (Startable Ext -> Res Ext H).

(** [Startable.__init__(config)], given the subclass fields. *)
Definition init (config : Config) (x : Ext) : obj_t :=
  mkStartable STOPPED UNCONFIGURED true [] config x.

Definition set_state (s : obj_t) (x : State) : obj_t :=
  mkStartable x (_configured s) (_enabled s) (_listeners s)
              (_configuration s) (ext s).

Definition set_marker (s : obj_t) (x : State) : obj_t :=
  mkStartable (_state s) x (_enabled s) (_listeners s)
              (_configuration s) (ext s).

Definition set_ext (s : obj_t) (x : Ext) : obj_t :=
  mkStartable (_state s) (_configured s) (_enabled s) (_listeners s)
              (_configuration s) x.

Definition set_listeners (s : obj_t) (ls : list StartableListener) : obj_t :=
  mkStartable (_state s) (_configured s) (_enabled s) ls
              (_configuration s) (ext s).

(** A subclass that assigns [self._enabled]. *)
Definition set_enabled (s : obj_t) (b : bool) : obj_t :=
  mkStartable (_state s) (_configured s) b (_listeners s)
              (_configuration s) (ext s).

Definition set_configuration (s : obj_t) (config : Config) : obj_t :=
  mkStartable (_state s) (_configured s) (_enabled s) (_listeners s)
              config (ext s).

Definition get_configuration (s : obj_t) : Config := _configuration s.
Definition get_listeners (s : obj_t) : list StartableListener := _listeners s.

Definition is_enabled (s : obj_t) : bool := _enabled s.
Definition is_started (s : obj_t) : bool := state_eqb (_state s) STARTED.
Definition is_starting (s : obj_t) : bool := state_eqb (_state s) STARTING.
Definition is_stopped (s : obj_t) : bool := state_eqb (_state s) STOPPED.
Definition is_stopping (s : obj_t) : bool := state_eqb (_state s) STOPPING.
Definition is_running (s : obj_t) : bool := is_started s || is_starting s.

(** *** Listener registration *)

(** [add_listener]: append when the value is a listener. *)
Definition add_listener (s : obj_t) (v : PyValue) : obj_t :=
  match as_listener v with
  | Some l => set_listeners s (_listeners s ++ [l])
  | None => s
  end.

(** [list.index] then [list.pop]: drop the first element equal to [l]. *)
Fixpoint pop_first (l : StartableListener) (ls : list StartableListener)
  : list StartableListener :=
  match ls with
  | [] => []
  | x :: r => if listener_eqb x l then r else x :: pop_first l r
  end.

(** [remove_listener]. *)
Definition remove_listener (s : obj_t) (v : PyValue) : obj_t :=
  match as_listener v with
  | Some l =>
      if existsb (fun x => listener_eqb x l) (_listeners s)
      then set_listeners s (pop_first l (_listeners s))
      else s
  | None => s
  end.

(** *** Sequencing, exceptions *)

Definition skip : action := fun s => mkRes s [] None.

Definition raise (e : exn) : action := fun s => mkRes s [] (Some e).

(** [a; b]: [b] runs when [a] did not raise. *)
Definition seq (a b : action) : action := fun s =>
  let r := a s in
  match raised r with
  | Some _ => r
  | None =>
      let r' := b (obj r) in
      mkRes (obj r') (trace r ++ trace r') (raised r')
  end.

(** [try: body  except Exception as exc: handler(exc)]. *)
Definition try_except (body : action) (handler : exn -> action) : action :=
  fun s =>
    let r := body s in
    match raised r with
    | None => r
    | Some exc =>
        let r' := handler exc (obj r) in
        mkRes (obj r') (trace r ++ trace r') (raised r')
    end.

(** [for listener in ls: listener.on_xxx(self, ...)]: the calls made, and
    the exception that ended the loop. *)
Fixpoint fire (ev : Event) (st : State) (ls : list StartableListener)
  : list (Ev H) * option exn :=
  match ls with
  | [] => ([], None)
  | l :: r =>
      match call_listener l ev st with
      | Some e => ([ENotify l ev], Some e)
      | None => let p := fire ev st r in (ENotify l ev :: fst p, snd p)
      end
  end.

(** The loop over [self._listeners] that ends every [_set_xxx]. *)
Definition notify (ev : Event) : action := fun s =>
  let p := fire ev (_state s) (_listeners s) in
  mkRes s (fst p) (snd p).

(** [self._state = x]. *)
Definition assign_state (x : State) : action := fun s =>
  mkRes (set_state s x) [EState x] None.

(** [self._configured = self._state]. *)
Definition copy_marker : action := fun s =>
  mkRes (set_marker s (_state s)) [] None.

Definition _set_configured : action :=
  seq (assign_state CONFIGURED)
      (seq copy_marker (fun s => notify (on_configured (_configuration s)) s)).

Definition _set_configuring : action :=
  seq (assign_state CONFIGURING)
      (seq copy_marker (fun s => notify (on_configuring (_configuration s)) s)).

Definition _set_failed (exc : exn) : action :=
  seq (assign_state FAILED) (notify (on_failure exc)).

Definition _set_starting : action := seq (assign_state STARTING) (notify on_starting).
Definition _set_started : action := seq (assign_state STARTED) (notify on_started).
Definition _set_stopping : action := seq (assign_state STOPPING) (notify on_stopping).
Definition _set_stopped : action := seq (assign_state STOPPED) (notify on_stopped).

Definition hook_of (k : HookKind) : obj_t -> HookRes Ext H :=
  match k with
  | HConfigure => do_configure hooks
  | HStart => do_start hooks
  | HStop => do_stop hooks
  end.

(** [self.do_xxx()]. *)
Definition call_hook (k : HookKind) : action := fun s =>
  let h := hook_of k s in
  mkRes (set_ext s (h_ext h)) [EHook k (h_inner h) (h_raised h)] (h_raised h).

Definition log_info (msg : string) : action := fun s =>
  mkRes s [ELogInfo msg] None.

(** [except Exception as exc: self._set_failed(exc); raise exc]. *)
Definition on_exception (exc : exn) : action :=
  seq (_set_failed exc) (raise exc).

(** *** configure, start, stop *)

Definition configure_guard (s : obj_t) : bool :=
  state_eqb (_configured s) CONFIGURED
  || state_in (_state s) [CONFIGURED; CONFIGURING].

Definition configure : action :=
  try_except
    (fun s =>
       if configure_guard s then skip s
       else seq _set_configuring (seq (call_hook HConfigure) _set_configured) s)
    on_exception.

Definition start_guard (s : obj_t) : bool :=
  negb (_enabled s) || state_in (_state s) [STARTED; STARTING].

(** The part of [start] under the lock. *)
Definition start_locked : action :=
  try_except
    (fun s =>
       if start_guard s then skip s
       else seq (log_info "Started")
                (seq _set_starting (seq (call_hook HStart) _set_started)) s)
    on_exception.

Definition start : action :=
  seq (fun s => if state_eqb (_configured s) UNCONFIGURED
                then configure s else skip s)
      start_locked.

Definition stop_guard (s : obj_t) : bool :=
  state_in (_state s) [STOPPED; STOPPING].

Definition stop : action :=
  try_except
    (fun s =>
       if stop_guard s then skip s
       else seq _set_stopping
                (seq (call_hook HStop) (seq _set_stopped (log_info "Stopped"))) s)
    on_exception.

(** *** Sequences of calls *)

Inductive Op := OpConfigure | OpStart | OpStop.

Definition run_op (o : Op) : action :=
  match o with
  | OpConfigure => configure
  | OpStart => start
  | OpStop => stop
  end.

(** A caller that makes the calls one after the other, catching what each
    raises.  The result keeps the object and all events; [outcomes] lists
    what each call raised. *)
Fixpoint run_ops (ops : list Op) (s : obj_t) : obj_t * list (Ev H) * list (option exn) :=
  match ops with
  | [] => (s, [], [])
  | o :: rest =>
      let r := run_op o s in
      let '(s', t, outs) := run_ops rest (obj r) in
      (s', trace r ++ t, raised r :: outs)
  end.

End StartableClass.

(** ** The composite [StartableManager] *)

(** What the hooks of a manager record: a call made on a child, with the
    events of that call and what it raised, and a [logging.error]. *)
Inductive MEv (CH : Type) :=
| MChild (o : Op) (t : list (Ev CH)) (r : option exn)
| MLogError (exc : exn).
Arguments MChild {CH} o t r.
Arguments MLogError {CH} exc.

(** The field a [StartableManager] adds.  The children are held by value:
    [add_object] never stores one reference twice, so no two entries of the
    list are the same object. *)
Record ManagerExt (CExt : Type) := mkManagerExt {
  _startable_objects : list (Startable CExt)
}.

Section StartableManagerClass.
Context {CExt CH : Type}.
Variable child_hooks : Hooks CExt CH.

Local Abbreviation child := (Startable CExt).
Local Abbreviation manager := (Startable (ManagerExt CExt)).

(** The outcome of a statement run on one child. *)
Record ItemRes := mkItemRes {
  i_obj : child;
  i_trace : list (MEv CH);
  i_raised : option exn
}.

(** [item.configure()], [item.start()], [item.stop()]. *)
Definition call_child (o : Op) (c : child) : ItemRes :=
  let r := run_op child_hooks o c in
  mkItemRes (obj r) [MChild o (trace r) (raised r)] (raised r).

(** [try: body  except Exception as exc: logging.error(exc)]. *)
Definition try_log (body : child -> ItemRes) (c : child) : ItemRes :=
  let r := body c in
  match i_raised r with
  | Some exc => mkItemRes (i_obj r) (i_trace r ++ [MLogError exc]) None
  | None => r
  end.

(** [for item in self._startable_objects: body(item)]: an exception that
    leaves the body ends the loop. *)
Fixpoint for_items (body : child -> ItemRes) (items : list child)
  : HookRes (ManagerExt CExt) (list (MEv CH)) :=
  match items with
  | [] => mkHookRes (mkManagerExt []) [] None
  | c :: rest =>
      let r := body c in
      match i_raised r with
      | Some exc => mkHookRes (mkManagerExt (i_obj r :: rest)) (i_trace r) (Some exc)
      | None =>
          let m := for_items body rest in
          mkHookRes (mkManagerExt (i_obj r :: _startable_objects (h_ext m)))
                    (i_trace r ++ h_inner m) (h_raised m)
      end
  end.

Definition manager_do_configure (s : manager) :=
  for_items
    (try_log (fun item =>
                call_child OpConfigure
                           (set_configuration item (get_configuration s))))
    (_startable_objects (ext s)).

Definition manager_do_start (s : manager) :=
  for_items (try_log (call_child OpStart)) (_startable_objects (ext s)).

Definition manager_do_stop (s : manager) :=
  for_items (try_log (call_child OpStop)) (_startable_objects (ext s)).

Definition manager_hooks : Hooks (ManagerExt CExt) (list (MEv CH)) :=
  mkHooks manager_do_configure manager_do_start manager_do_stop.

(** The operation a manager hook calls on each child. *)
Definition op_of_hook (k : HookKind) : Op :=
  match k with
  | HConfigure => OpConfigure
  | HStart => OpStart
  | HStop => OpStop
  end.

(** What the cascade of kind [k] does to one child when the manager holds
    configuration [cfg]. *)
Definition cascade_on (k : HookKind) (cfg : Config) (c : child) : Res CExt CH :=
  match k with
  | HConfigure => configure child_hooks (set_configuration c cfg)
  | HStart => start child_hooks c
  | HStop => stop child_hooks c
  end.

(** The exceptions a manager hook logged, in order. *)
Definition logged (t : list (MEv CH)) : list exn :=
  flat_map (fun e => match e with MLogError exc => [exc] | _ => [] end) t.

(** The exceptions the child calls recorded in [t] raised, in order. *)
Definition child_failures (t : list (MEv CH)) : list exn :=
  flat_map (fun e => match e with
                     | MChild _ _ (Some exc) => [exc]
                     | _ => []
                     end) t.

End StartableManagerClass.

(** ** The worker loop of [ProcessThreadExecutor] *)

(** Modelled from the spec: [AbstractMessage] ([common/msgobject.py] is not
    part of the sources at hand).  The fields are those [ShutdownMessage.encode]
    reads: the discriminator, the message id, the target module and
    submodule, the parameters (a positional list and a keyword mapping) and
    the options. *)
Record AbstractMessage := mkMessage {
  message_mode : Z;
  MESSAGE_ID : option string;
  MODULE : option string;
  SUBMODULE : option string;
  PARAMS : option (list string * list (string * string));
  options : list (string * string)
}.

(** An object taken from the queue, by its class. *)
Inductive QObject :=
| QShutdown (m : AbstractMessage)   (* an instance of ShutdownMessage *)
| QMessage (m : AbstractMessage)    (* any other instance of AbstractMessage *)
| QOther (truth : bool).            (* anything else, with its truth value *)

(** [ShutdownMessage()]: discriminator 999 and nothing else set. *)
Definition ShutdownMessage : QObject :=
  QShutdown (mkMessage 999 None None None None []).

Definition isinstance_ShutdownMessage (v : QObject) : bool :=
  match v with QShutdown _ => true | _ => false end.

Definition isinstance_AbstractMessage (v : QObject) : bool :=
  match v with QShutdown _ | QMessage _ => true | QOther _ => false end.

(** Modelled from the spec: the truth value [if message_obj:] tests.  The
    message classes are described as plain records of fields, without
    [__bool__] or [__len__], so their instances are true. *)
Definition truthy (v : QObject) : bool :=
  match v with
  | QShutdown _ | QMessage _ => true
  | QOther b => b
  end.

(** One [self._queue.get(True, 0.1)]: an object, the [Empty] of a timeout,
    or another exception. *)
Inductive Poll :=
| Got (v : QObject)
| Empty
| GetFailed (exc : exn).

(** What the worker does, in order. *)
Inductive WEv :=
| WGet (v : QObject)                       (* an object left the queue *)
| WExec (v : QObject) (r : option exn)     (* _handler.execute_module(v) *)
| WLogException (exc : exn)                (* logging.exception(ex) *)
| WSleep                                   (* time.sleep(0.1) *)
| WHandler (o : Op) (r : option exn).      (* _handler.configure/start/stop() *)

(** How a statement of the loop body ends. *)
Inductive Signal :=
| Normal
| Break
| Exc (exc : exn).

(** How the loop stands once the polls given to it are used up. *)
Inductive LoopStatus :=
| Polling                (* still in [while True] *)
| Exited                 (* left by [break] *)
| Failed (exc : exn).    (* left by an exception *)

Section WorkerLoop.
(** The engine ([ModuleExecutor], from [core/msgexec.py]) is a collaborator:
    its state, and what each of its methods does to it and raises. *)
Variable Engine : Type.
Variable execute_module : Engine -> QObject -> Engine * option exn.
Variable handler_op : Op -> Engine -> Engine * option exn.

Record StepRes := mkStepRes {
  s_engine : Engine;
  s_trace : list WEv;
  s_signal : Signal
}.

Record LoopRes := mkLoopRes {
  status : LoopStatus;
  engine : Engine;
  wtrace : list WEv;
  unread : list Poll
}.

(** Lines 116-119: the [if]/[elif] on the class of the object. *)
Definition dispatch (v : QObject) (eng : Engine) : StepRes :=
  if isinstance_ShutdownMessage v then mkStepRes eng [] Break
  else if isinstance_AbstractMessage v then
    let p := execute_module eng v in
    mkStepRes (fst p) [WExec v (snd p)]
              (match snd p with Some exc => Exc exc | None => Normal end)
  else mkStepRes eng [] Normal.

(** Lines 115-121: the inner [try] with [except Exception: logging.exception]. *)
Definition guarded_dispatch (v : QObject) (eng : Engine) : StepRes :=
  let r := dispatch v eng in
  match s_signal r with
  | Exc exc => mkStepRes (s_engine r) (s_trace r ++ [WLogException exc]) Normal
  | _ => r
  end.

(** Lines 112-123: one turn of [while True]. *)
Definition iteration (p : Poll) (eng : Engine) : StepRes :=
  match p with
  | Got v =>
      if truthy v then
        let r := guarded_dispatch v eng in
        mkStepRes (s_engine r) (WGet v :: s_trace r) (s_signal r)
      else mkStepRes eng [WGet v] Normal
  | Empty => mkStepRes eng [WSleep] Normal
  | GetFailed exc => mkStepRes eng [] (Exc exc)
  end.

(** [while True], over the outcomes of the successive [get] calls. *)
Fixpoint dispatch_loop (eng : Engine) (polls : list Poll) : LoopRes :=
  match polls with
  | [] => mkLoopRes Polling eng [] []
  | p :: rest =>
      let r := iteration p eng in
      match s_signal r with
      | Normal =>
          let l := dispatch_loop (s_engine r) rest in
          mkLoopRes (status l) (engine l) (s_trace r ++ wtrace l) (unread l)
      | Break => mkLoopRes Exited (s_engine r) (s_trace r) rest
      | Exc exc => mkLoopRes (Failed exc) (s_engine r) (s_trace r) rest
      end
  end.

(** [subprocess_entry], from the engine [ModuleExecutor(...)] builds:
    configure and start it, run the loop, and stop it in [finally] once the
    loop is left. *)
Definition subprocess_entry (new_handler : Engine) (polls : list Poll) : LoopRes :=
  let c := handler_op OpConfigure new_handler in
  match snd c with
  | Some exc => mkLoopRes (Failed exc) (fst c) [WHandler OpConfigure (Some exc)] polls
  | None =>
      let b := handler_op OpStart (fst c) in
      match snd b with
      | Some exc =>
          mkLoopRes (Failed exc) (fst b)
                    [WHandler OpConfigure None; WHandler OpStart (Some exc)] polls
      | None =>
          let l := dispatch_loop (fst b) polls in
          let pre := [WHandler OpConfigure None; WHandler OpStart None] in
          match status l with
          | Polling => mkLoopRes Polling (engine l) (pre ++ wtrace l) (unread l)
          | st =>
              let e := handler_op OpStop (engine l) in
              mkLoopRes (match snd e with Some exc => Failed exc | None => st end)
                        (fst e)
                        (pre ++ wtrace l ++ [WHandler OpStop (snd e)])
                        (unread l)
          end
      end
  end.

(** The objects handed to [execute_module], in order. *)
Definition executed (t : list WEv) : list QObject :=
  flat_map (fun e => match e with WExec v _ => [v] | _ => [] end) t.

(** The sentinels taken from the queue. *)
Definition sentinels_read (t : list WEv) : list QObject :=
  flat_map (fun e => match e with
                     | WGet v => if isinstance_ShutdownMessage v then [v] else []
                     | _ => []
                     end) t.

End WorkerLoop.

(** ** Observations on a run *)

Section Observations.
Context {H : Type}.

(** The values assigned to the state field, in order. *)
Definition states_of (t : list (Ev H)) : list State :=
  flat_map (fun e => match e with EState x => [x] | _ => [] end) t.

(** The values the state field takes, from the one it held before. *)
Definition state_seq (s0 : State) (t : list (Ev H)) : list State :=
  s0 :: states_of t.

(** A list of states follows the edges of a graph. *)
Fixpoint is_path (edge : State -> State -> bool) (l : list State) : bool :=
  match l with
  | a :: (b :: _) as r => edge a b && is_path edge r
  | _ => true
  end.

(** The state a hook runs in. *)
Definition transient (k : HookKind) : State :=
  match k with
  | HConfigure => CONFIGURING
  | HStart => STARTING
  | HStop => STOPPING
  end.

(** The graph as the specification words it: the two chains
    UNCONFIGURED -> CONFIGURING -> CONFIGURED and
    STOPPED -> STARTING -> STARTED -> STOPPING -> STOPPED, with FAILED
    entered from a state in which a hook runs and left by the next
    attempt. *)
Definition spec_edge (a b : State) : bool :=
  match a, b with
  | UNCONFIGURED, CONFIGURING | CONFIGURING, CONFIGURED => true
  | STOPPED, STARTING | STARTING, STARTED
  | STARTED, STOPPING | STOPPING, STOPPED => true
  | CONFIGURING, FAILED | STARTING, FAILED | STOPPING, FAILED => true
  | FAILED, CONFIGURING | FAILED, STARTING | FAILED, STOPPING => true
  | _, _ => false
  end.

(** The graph the state field follows in the code. *)
Definition code_edge (a b : State) : bool :=
  match a, b with
  | STOPPED, CONFIGURING | STARTED, CONFIGURING | FAILED, CONFIGURING => true
  | CONFIGURING, CONFIGURED => true
  | STOPPED, STARTING | CONFIGURED, STARTING | FAILED, STARTING => true
  | STARTING, STARTED => true
  | CONFIGURED, STOPPING | STARTED, STOPPING | FAILED, STOPPING => true
  | STOPPING, STOPPED => true
  | CONFIGURING, FAILED | STARTING, FAILED | STOPPING, FAILED => true
  | _, _ => false
  end.

(** The values the state field holds between two calls. *)
Definition at_rest (x : State) : bool :=
  match x with
  | STOPPED | CONFIGURED | STARTED | FAILED => true
  | _ => false
  end.

(** No callback of these listeners ever raises. *)
Definition quiet (ls : list StartableListener) : Prop :=
  forall l ev st, In l ls -> call_listener l ev st = None.

(** The listeners a notification loop reaches: all of them, or those up to
    and including the first whose callback raises. *)
Fixpoint reached (ev : Event) (st : State) (ls : list StartableListener)
  : list StartableListener :=
  match ls with
  | [] => []
  | l :: r =>
      match call_listener l ev st with
      | Some _ => [l]
      | None => l :: reached ev st r
      end
  end.

(** The calls of one method on each listener of a list, in order. *)
Definition calls (ev : Event) (ls : list StartableListener) : list (Ev H) :=
  map (fun l => ENotify l ev) ls.

(** The listener method that goes with the assignment of a state. *)
Definition event_matches (x : State) (cfg : Config) (ev : Event) : Prop :=
  match x, ev with
  | CONFIGURING, on_configuring c => c = cfg
  | CONFIGURED, on_configured c => c = cfg
  | STARTING, on_starting => True
  | STARTED, on_started => True
  | STOPPING, on_stopping => True
  | STOPPED, on_stopped => True
  | FAILED, on_failure _ => True
  | _, _ => False
  end.

(** A trace in which every assignment of the state is followed at once by
    the calls of the matching method on the listeners [ls], in the order of
    the list, as far as the loop reaches; and no other listener call occurs. *)
Inductive notified (ls : list StartableListener) (cfg : Config)
  : list (Ev H) -> Prop :=
| nt_nil : notified ls cfg []
| nt_hook k h r t : notified ls cfg t -> notified ls cfg (EHook k h r :: t)
| nt_log msg t : notified ls cfg t -> notified ls cfg (ELogInfo msg :: t)
| nt_state x ev t :
    event_matches x cfg ev ->
    notified ls cfg t ->
    notified ls cfg
      (EState x :: calls ev (reached ev x ls) ++ t).

Definition is_on_starting (ev : Event) : bool :=
  match ev with on_starting => true | _ => false end.

Definition is_on_started (ev : Event) : bool :=
  match ev with on_started => true | _ => false end.

(** The calls of the methods selected by [p] made on the listener [l]. *)
Definition deliveries (p : Event -> bool) (l : StartableListener)
           (t : list (Ev H)) : nat :=
  List.length (filter (fun e => match e with
                           | ENotify l' ev => listener_eqb l' l && p ev
                           | _ => false
                           end) t).

(** The hook [k] raised during the run. *)
Definition hook_raised (k : HookKind) (t : list (Ev H)) : Prop :=
  exists h e, In (EHook k h (Some e)) t.

(** No hook raised during the run. *)
Definition hooks_returned (t : list (Ev H)) : Prop :=
  forall k h e, ~ In (EHook k h (Some e)) t.

(** An item that is neither the assignment of STARTING or STARTED nor a
    call of [on_starting] or [on_started]. *)
Definition not_a_start (e : Ev H) : Prop :=
  match e with
  | EState STARTING | EState STARTED => False
  | ENotify _ on_starting | ENotify _ on_started => False
  | EHook HStart _ _ => False
  | _ => True
  end.

(** The walk of a trace through [code_edge]: the current state, and the
    hook that has just raised.  FAILED may only be assigned right after a
    hook raised in the state that hook runs in; every other assignment
    follows an edge; after a hook raised nothing but that assignment may
    come. *)
Fixpoint walk (cur : State) (pend : option HookKind) (t : list (Ev H))
  : option (State * option HookKind) :=
  match t with
  | [] => Some (cur, pend)
  | EState x :: r =>
      match x, pend with
      | FAILED, Some k =>
          if state_eqb cur (transient k) then walk FAILED None r else None
      | FAILED, None => None
      | _, Some _ => None
      | _, None => if code_edge cur x then walk x None r else None
      end
  | EHook k _ res :: r =>
      match pend with
      | Some _ => None
      | None =>
          if state_eqb cur (transient k)
          then walk cur (match res with Some _ => Some k | None => None end) r
          else None
      end
  | _ :: r =>
      match pend with
      | Some _ => None
      | None => walk cur None r
      end
  end.

End Observations.

Arguments calls {H} ev ls : simpl never.

(** How often the listener [l] is registered. *)
Definition registrations (l : StartableListener) (ls : list StartableListener)
  : nat :=
  List.length (filter (fun x => listener_eqb x l) ls).

(** ** Concrete classes used in the examples *)

(** The hooks of [Startable] itself: they do nothing. *)
Definition base_hooks : Hooks unit unit :=
  mkHooks (fun _ => mkHookRes tt tt None)
          (fun _ => mkHookRes tt tt None)
          (fun _ => mkHookRes tt tt None).

(** A subclass whose hooks raise when the matching flag is set. *)
Definition flaky_hooks (cfg_fails start_fails stop_fails : bool)
  : Hooks unit unit :=
  let h (b : bool) (msg : string) :=
    fun _ : Startable unit =>
      mkHookRes tt tt (if b then Some msg else None) in
  mkHooks (h cfg_fails "configure failed"%string)
          (h start_fails "start failed"%string)
          (h stop_fails "stop failed"%string).

(** A subclass with one field of its own, a flag; its [do_start] raises
    when the flag is set. *)
Definition moody_hooks : Hooks bool unit :=
  mkHooks (fun s : Startable bool => mkHookRes (ext s) tt None)
          (fun s : Startable bool =>
             mkHookRes (ext s) tt
                       (if ext s then Some "start failed"%string else None))
          (fun s : Startable bool => mkHookRes (ext s) tt None).

(** A listener with no callback at all. *)
Definition silent_listener (n : nat) : StartableListener :=
  mkListener n None None None None None None None.

(** A listener whose seven callbacks all return. *)
Definition plain_listener (n : nat) : StartableListener :=
  let ok : option Callback := Some (fun _ => None) in
  mkListener n ok ok ok ok ok ok ok.

(** A listener whose [starting] callback raises. *)
Definition grumpy_listener (n : nat) : StartableListener :=
  mkListener n (Some (fun _ => Some "listener failed"%string))
             None None None None None None.

(** An engine that counts its calls and rejects messages of mode 13. *)
Definition picky_engine (n : nat) (v : QObject) : nat * option exn :=
  match v with
  | QMessage m =>
      (S n, if Z.eqb (message_mode m) 13 then Some "bad message"%string else None)
  | _ => (S n, None)
  end.

(** Engine methods that always return. *)
Definition steady_handler (o : Op) (n : nat) : nat * option exn := (n, None).

Definition msg (mode : Z) : QObject :=
  QMessage (mkMessage mode None None None None []).

(** ** Frame and shape of an action *)

Section Shape.
Context {Ext H : Type}.

(** The listeners, the configuration and the enabled flag of [s'] are those
    of [s]. *)
Definition same_frame (s s' : Startable Ext) : Prop :=
  _listeners s' = _listeners s
  /\ _configuration s' = _configuration s
  /\ _enabled s' = _enabled s.

(** An action that keeps the frame and whose trace is [notified]. *)
Definition good (a : Startable Ext -> Res Ext H) : Prop :=
  forall s, same_frame s (obj (a s))
            /\ notified (_listeners s) (_configuration s) (trace (a s)).

(** An action that, on an object at rest whose listeners are [quiet], moves
    the state field along [walk] to a state at rest. *)
Definition steady (a : Startable Ext -> Res Ext H) : Prop :=
  forall s,
    quiet (_listeners s) ->
    at_rest (_state s) = true ->
    exists b,
      walk (_state s) None (trace (a s)) = Some (b, None)
      /\ _state (obj (a s)) = b
      /\ at_rest b = true.

(** An action whose every event satisfies [P]. *)
Definition emits (P : Ev H -> Prop) (a : Startable Ext -> Res Ext H) : Prop :=
  forall s, Forall P (trace (a s)).

(** An action that never sets the configured marker back to UNCONFIGURED. *)
Definition marked (a : Startable Ext -> Res Ext H) : Prop :=
  forall s, _configured s <> UNCONFIGURED ->
            _configured (obj (a s)) <> UNCONFIGURED.

(** The result of [except Exception as exc: self._set_failed(exc); raise exc]
    entered from the object [s'] after the events [t]. *)
Definition failed_with (s' : Startable Ext) (t : list (Ev H)) (exc : exn)
  : Res Ext H :=
  let f := fire (H:=H) (on_failure exc) FAILED (_listeners s') in
  mkRes (set_state s' FAILED)
        (t ++ EState FAILED :: fst f)
        (match snd f with Some e' => Some e' | None => Some exc end).

(** The failure policy of an action, when no listener callback raises: a
    hook that raises [e] leaves the object FAILED after the failure
    callbacks of all listeners were called with [e], and [e] leaves the
    action; when no hook raises, nothing is raised and FAILED is not
    assigned. *)
Definition failsafe (a : Startable Ext -> Res Ext H) : Prop :=
  forall s,
    quiet (_listeners s) ->
    (forall k h e,
        In (EHook k h (Some e)) (trace (a s)) ->
        _state (obj (a s)) = FAILED
        /\ raised (a s) = Some e
        /\ exists pre,
            trace (a s) =
            pre ++ EHook k h (Some e)
                :: EState FAILED :: calls (on_failure e) (_listeners s))
    /\ (hooks_returned (trace (a s)) ->
        raised (a s) = None /\ ~ In (EState FAILED) (trace (a s))).

(** An object that was never configured is still STOPPED. *)
Definition coherent (s : Startable Ext) : Prop :=
  _configured s = UNCONFIGURED -> _state s = STOPPED.

(** A hook event that records what the hook of the class returned. *)
Definition genuine (hooks : Hooks Ext H) (e : Ev H) : Prop :=
  match e with
  | EHook k _ r => exists s', r = h_raised (hook_of hooks k s')
  | _ => True
  end.

(** An event that is not a call of [do_configure]. *)
Definition not_a_configure (e : Ev H) : Prop :=
  match e with
  | EHook HConfigure _ _ => False
  | _ => True
  end.

End Shape.


(** ** Further shapes of an action *)

Section Shape2.
Context {Ext H A : Type}.

(** An action that leaves a field of the object as it was. *)
Definition preserves (f : Startable Ext -> A)
           (a : Startable Ext -> Res Ext H) : Prop :=
  forall s, f (obj (a s)) = f s.

(** An action that returns only when every hook it called returned. *)
Definition honest (a : Startable Ext -> Res Ext H) : Prop :=
  forall s, raised (a s) = None -> hooks_returned (trace (a s)).

(** An event that is not the assignment of FAILED. *)
Definition not_failed (e : Ev H) : Prop :=
  match e with
  | EState FAILED => False
  | _ => True
  end.

End Shape2.

Section Shape3.
Context {Ext H : Type}.

(** An action that raises exactly when it ends by assigning FAILED: an
    exception leaves it only with the state FAILED, and when it returns,
    FAILED was never assigned. *)
Definition loud (a : Startable Ext -> Res Ext H) : Prop :=
  forall s,
    (raised (a s) <> None ->
     _state (obj (a s)) = FAILED /\ In (EState FAILED) (trace (a s)))
    /\ (raised (a s) = None -> ~ In (EState FAILED) (trace (a s))).

End Shape3.

(** ** The collection of a [StartableManager] *)

(** What a caller hands to [add_object] and [remove_object].  The children
    are held by value, so a reference to an object is given by where the
    object is: outside the collection, or at a position in it. *)
Inductive ObjRef (CExt : Type) :=
| RNone                                (* None, or another false value *)
| ROther                               (* a true value that is no Startable *)
| RFresh (c : Startable CExt)          (* a Startable not in the collection *)
| RMember (i : nat).                   (* the Startable at index [i] of it *)
Arguments RNone {CExt}.
Arguments ROther {CExt}.
Arguments RFresh {CExt} c.
Arguments RMember {CExt} i.

(** [RuntimeError(exc)]. *)
Definition RuntimeError (exc : exn) : exn :=
  String.append "RuntimeError: " exc.

(** [items[i] = x], nothing when [i] is out of range. *)
Fixpoint set_nth {A : Type} (i : nat) (x : A) (items : list A) : list A :=
  match items, i with
  | [], _ => []
  | _ :: r, O => x :: r
  | y :: r, S j => y :: set_nth j x r
  end.

(** [items.pop(i)], nothing when [i] is out of range. *)
Fixpoint pop_nth {A : Type} (i : nat) (items : list A) : list A :=
  match items, i with
  | [], _ => []
  | _ :: r, O => r
  | y :: r, S j => y :: pop_nth j r
  end.

Section ManagerMethods.
Context {CExt CH : Type}.
Variable child_hooks : Hooks CExt CH.

Local Abbreviation child := (Startable CExt).
Local Abbreviation manager := (Startable (ManagerExt CExt)).

(** The result of a method of the manager. *)
Record MgrRes := mkMgrRes {
  m_obj : manager;
  m_trace : list (MEv CH);
  m_raised : option exn
}.

(** [get_objects]. *)
Definition get_objects (s : manager) : list child :=
  _startable_objects (ext s).

Definition set_objects (s : manager) (items : list child) : manager :=
  set_ext s (mkManagerExt items).

(** Lines 278-283 of [add_object], for the object at index [i] of the
    collection: when the manager is running the object gets the manager's
    configuration and is started, and what its [start()] raises is raised
    again as a [RuntimeError]. *)
Definition start_if_running (s : manager) (i : nat) : MgrRes :=
  if is_running s then
    match nth_error (get_objects s) i with
    | Some c =>
        let r := start child_hooks (set_configuration c (get_configuration s)) in
        mkMgrRes (set_objects s (set_nth i (obj r) (get_objects s)))
                 [MChild OpStart (trace r) (raised r)]
                 (match raised r with
                  | Some exc => Some (RuntimeError exc)
                  | None => None
                  end)
    | None => mkMgrRes s [] None
    end
  else mkMgrRes s [] None.

(** [add_object]. *)
Definition add_object (s : manager) (o : ObjRef CExt) : MgrRes :=
  match o with
  | RNone | ROther => mkMgrRes s [] None
  | RFresh c =>
      start_if_running (set_objects s (get_objects s ++ [c]))
                       (List.length (get_objects s))
  | RMember i => start_if_running s i
  end.

(** [remove_object]. *)
Definition remove_object (s : manager) (o : ObjRef CExt) : manager :=
  match o with
  | RMember i => set_objects s (pop_nth i (get_objects s))
  | _ => s
  end.

End ManagerMethods.

(** ** What the worker loop hands to the engine *)

(** An object the loop passes to [execute_module]: a true instance of
    [AbstractMessage] that is no [ShutdownMessage]. *)
Definition is_work (v : QObject) : bool :=
  truthy v && isinstance_AbstractMessage v && negb (isinstance_ShutdownMessage v).

(** The objects the loop passes to the engine, read off the outcomes of the
    successive [get] calls alone: the work items, in order, up to the first
    sentinel or the first exception of [get]. *)
Fixpoint handed_over (polls : list Poll) : list QObject :=
  match polls with
  | [] => []
  | Got v :: rest =>
      if truthy v && isinstance_ShutdownMessage v then []
      else if is_work v then v :: handed_over rest
      else handed_over rest
  | Empty :: rest => handed_over rest
  | GetFailed _ :: _ => []
  end.

(** The outcomes of [get] left unread when the loop is left. *)
Fixpoint left_unread (polls : list Poll) : list Poll :=
  match polls with
  | [] => []
  | Got v :: rest =>
      if truthy v && isinstance_ShutdownMessage v then rest
      else left_unread rest
  | Empty :: rest => left_unread rest
  | GetFailed _ :: rest => rest
  end.

(** The timeouts read before the loop is left. *)
Fixpoint timeouts_read (polls : list Poll) : nat :=
  match polls with
  | [] => 0
  | Got v :: rest =>
      if truthy v && isinstance_ShutdownMessage v then 0
      else timeouts_read rest
  | Empty :: rest => S (timeouts_read rest)
  | GetFailed _ :: _ => 0
  end.

(** The engine after it was given the objects of a list, one after the
    other, whatever each call raised. *)
Definition engine_after {Engine : Type}
           (execute_module : Engine -> QObject -> Engine * option exn)
           (eng : Engine) (work : list QObject) : Engine :=
  fold_left (fun e v => fst (execute_module e v)) work eng.

(** The sleeps of a run. *)
Definition sleeps (t : list WEv) : nat :=
  List.length (filter (fun e => match e with WSleep => true | _ => false end) t).

(** The calls of the engine's [stop] in a run. *)
Definition handler_stops (t : list WEv) : nat :=
  List.length (filter (fun e => match e with
                                | WHandler OpStop _ => true
                                | _ => false
                                end) t).

(** ** The queue of a [ProcessThreadExecutor] *)

(** The fields [ProcessThreadExecutor] adds: the queue, [None] until
    [do_configure] creates it, and the number of workers.  The queue is a
    FIFO: [put] appends, the worker process takes from the front. *)
Record ProcessThreadExecutor := mkExecutor {
  _queue : option (list QObject);
  _max_processes : nat
}.

(** [ProcessThreadExecutor.__init__(workers=16)]. *)
Definition new_executor (workers : nat) : ProcessThreadExecutor :=
  mkExecutor None workers.

(** The statement of [do_configure] after the call of the parent's hook:
    [self._queue = mp.Queue()]. *)
Definition create_queue (x : ProcessThreadExecutor) : ProcessThreadExecutor :=
  mkExecutor (Some []) (_max_processes x).

(** [submit_task]: [self._queue.put(message_obj)]; on an executor that was
    never configured [self._queue] is [None] and the call raises. *)
Definition submit_task (x : ProcessThreadExecutor) (m : QObject)
  : ProcessThreadExecutor * option exn :=
  match _queue x with
  | Some q => (mkExecutor (Some (q ++ [m])) (_max_processes x), None)
  | None =>
      (x, Some "AttributeError: 'NoneType' object has no attribute 'put'"%string)
  end.

(** Several [submit_task] calls in a row, by a caller that goes on after an
    exception. *)
Definition submit_all (x : ProcessThreadExecutor) (ms : list QObject)
  : ProcessThreadExecutor :=
  fold_left (fun y m => fst (submit_task y m)) ms x.

(** The statement of [do_stop] before the call of the parent's hook:
    [self.submit_task(ShutdownMessage())]. *)
Definition submit_shutdown (x : ProcessThreadExecutor)
  : ProcessThreadExecutor * option exn :=
  submit_task x ShutdownMessage.

(** What the worker process finds in the queue: every object in it, one
    [get] after the other. *)
Definition polls_of (x : ProcessThreadExecutor) : list Poll :=
  match _queue x with
  | Some q => map Got q
  | None => []
  end.

(** ** [LocalTransportHandler.listen] *)

(** What [listen] does, in order. *)
Inductive LEv :=
| LPrepare (r : option exn)     (* self.prepare_listening() *)
| LListen (r : option exn)      (* self.do_listen() *)
| LLogError (exc : exn)         (* logging.error(ex) *)
| LSleep5.                      (* time.sleep(5) *)

(** How [listen] stands once the readings given to it are used up. *)
Inductive ListenStatus :=
| Listening     (* still in the loop *)
| Returned.     (* [is_running()] was false at the head of the loop *)

(** [LocalTransportHandler.prepare_listening]. *)
Definition prepare_listening : option exn :=
  Some "NotImplementedError: not implemented here"%string.

Section Listen.
(** [do_listen] comes from the parent class, and a subclass may override
    [prepare_listening]: what each raises, if anything. *)
Variable prepare : option exn.
Variable do_listen : option exn.

(** The body of the [try]: the statements of lines 37-38 and the exception
    that leaves them. *)
Definition listen_try : list LEv * option exn :=
  match prepare with
  | Some exc => ([LPrepare (Some exc)], Some exc)
  | None => ([LPrepare None; LListen do_listen], do_listen)
  end.

(** [listen], over the values the successive [is_running()] calls return
    (the state is changed by other threads). *)
Fixpoint listen (running : list bool) : list LEv * ListenStatus :=
  match running with
  | [] => ([], Listening)
  | false :: _ => ([], Returned)
  | true :: rest =>
      match snd listen_try with
      | None =>
          let r := listen rest in (fst listen_try ++ fst r, snd r)
      | Some exc =>
          match rest with
          | [] => (fst listen_try ++ [LLogError exc], Listening)
          | again :: rest' =>
              let r := listen rest' in
              (fst listen_try ++ LLogError exc
                 :: (if again then [LSleep5] else []) ++ fst r,
               snd r)
          end
      end
  end.

End Listen.

(** ** [ProcessThreadExecutor] as a [Startable] *)

Section ExecutorClass.
(** The classes above [ProcessThreadExecutor] ([BaseProcessExecutor] and
    [BaseExecutor], with the process handle) are collaborators: their
    fields, and what their hooks do to them and raise.  They do not touch
    [_queue]. *)
Context {P PH : Type}.
Variable parent : Hooks P PH.

Local Abbreviation executor := (Startable (P * ProcessThreadExecutor)).

(** The object as the hooks of the parent classes see it. *)
Definition as_parent (s : executor) : Startable P :=
  mkStartable (_state s) (_configured s) (_enabled s) (_listeners s)
              (_configuration s) (fst (ext s)).

(** [ProcessThreadExecutor.do_configure]: the parent's hook, then a new
    queue. *)
Definition executor_do_configure (s : executor)
  : HookRes (P * ProcessThreadExecutor) (option PH) :=
  let h := do_configure parent (as_parent s) in
  match h_raised h with
  | Some exc => mkHookRes (h_ext h, snd (ext s)) (Some (h_inner h)) (Some exc)
  | None =>
      mkHookRes (h_ext h, create_queue (snd (ext s))) (Some (h_inner h)) None
  end.

(** [do_start] is inherited. *)
Definition executor_do_start (s : executor)
  : HookRes (P * ProcessThreadExecutor) (option PH) :=
  let h := do_start parent (as_parent s) in
  mkHookRes (h_ext h, snd (ext s)) (Some (h_inner h)) (h_raised h).

(** [ProcessThreadExecutor.do_stop]: the sentinel is put on the queue, then
    the parent's hook runs. *)
Definition executor_do_stop (s : executor)
  : HookRes (P * ProcessThreadExecutor) (option PH) :=
  let p := submit_shutdown (snd (ext s)) in
  match snd p with
  | Some exc => mkHookRes (fst (ext s), fst p) None (Some exc)
  | None =>
      let h := do_stop parent (as_parent s) in
      mkHookRes (h_ext h, fst p) (Some (h_inner h)) (h_raised h)
  end.

Definition executor_hooks : Hooks (P * ProcessThreadExecutor) (option PH) :=
  mkHooks executor_do_configure executor_do_start executor_do_stop.

(** [ProcessThreadExecutor(config, module, workers)], given the fields of
    the parent classes. *)
Definition new_process_executor (config : Config) (p : P) (workers : nat)
  : executor :=
  init config (p, new_executor workers).

(** The queue of the object. *)
Definition queue_of (s : executor) : option (list QObject) :=
  _queue (snd (ext s)).

End ExecutorClass.

(** Parent classes whose [do_configure] raises when their flag is set. *)
Definition touchy_parent : Hooks bool unit :=
  mkHooks (fun s : Startable bool =>
             mkHookRes (ext s) tt
                       (if ext s then Some "no process"%string else None))
          (fun s : Startable bool => mkHookRes (ext s) tt None)
          (fun s : Startable bool => mkHookRes (ext s) tt None).

(** A listener whose [stopping] callback raises. *)
Definition clingy_listener (n : nat) : StartableListener :=
  mkListener n None None None (Some (fun _ => Some "not now"%string))
             None None None.

(** ** Counting the events of [listen] *)

Definition is_prepare (e : LEv) : bool :=
  match e with LPrepare _ => true | _ => false end.

Definition is_listen (e : LEv) : bool :=
  match e with LListen _ => true | _ => false end.

Definition is_log_error (e : LEv) : bool :=
  match e with LLogError _ => true | _ => false end.

Definition is_sleep (e : LEv) : bool :=
  match e with LSleep5 => true | _ => false end.

Definition count_events (p : LEv -> bool) (t : list LEv) : nat :=
  List.length (filter p t).

(** The readings of [is_running()] that were true. *)
Definition count_true (running : list bool) : nat :=
  List.length (filter (fun b => b) running).

(** What is shown of one run of [listen]: the loop sleeps only after a
    logged failure, makes at most one attempt per true reading, calls
    [do_listen] only when [prepare_listening] returned, logs every failed
    attempt, and returns only on a false reading. *)
Definition listen_facts (prepare do_listen : option exn) (running : list bool)
  : Prop :=
  let r := listen prepare do_listen running in
  let n p := count_events p (fst r) in
  n is_sleep <= n is_log_error
  /\ n is_prepare <= count_true running
  /\ (prepare <> None -> n is_listen = 0 /\ n is_log_error = n is_prepare)
  /\ (prepare = None ->
      n is_listen = n is_prepare
      /\ (do_listen = None -> n is_log_error = 0)
      /\ (do_listen <> None -> n is_log_error = n is_listen))
  /\ (snd r = Returned -> In false running).
(** * Properties *)

(** ** States *)

Lemma state_eqb_eq (a b : State) : state_eqb a b = true <-> a = b.
Proof. split; [destruct a, b; (reflexivity || discriminate) | intros ->; destruct b; reflexivity]. Qed.

Lemma state_eqb_refl (a : State) : state_eqb a a = true.
Proof. destruct a; reflexivity. Qed.

Lemma at_rest_cases (x : State) :
  at_rest x = true -> x = STOPPED \/ x = CONFIGURED \/ x = STARTED \/ x = FAILED.
Proof. destruct x; simpl; intros E; try discriminate; auto. Qed.

(** ** The notification loop *)

Section FireFacts.
Context {H : Type}.

Lemma fire_reached (ev : Event) (st : State) (ls : list StartableListener) :
  fst (fire (H:=H) ev st ls) = calls ev (reached ev st ls).
Proof.
  induction ls as [|l r IH]; simpl; [reflexivity|].
  destruct (call_listener l ev st); simpl; [reflexivity|].
  now rewrite IH.
Qed.

Lemma reached_all (ev : Event) (st : State) (ls : list StartableListener) :
  snd (fire (H:=H) ev st ls) = None -> reached ev st ls = ls.
Proof.
  induction ls as [|l r IH]; simpl; [reflexivity|].
  destruct (call_listener l ev st); simpl; [discriminate|].
  intros E. now rewrite IH.
Qed.

Lemma quiet_tail (l : StartableListener) (r : list StartableListener) :
  quiet (l :: r) -> quiet r.
Proof. intros Q x ev st I. apply Q. now right. Qed.

Lemma fire_quiet (ev : Event) (st : State) (ls : list StartableListener) :
  quiet ls -> fire (H:=H) ev st ls = (calls ev ls, None).
Proof.
  induction ls as [|l r IH]; intros Q; simpl; [reflexivity|].
  rewrite (Q l ev st (or_introl eq_refl)).
  now rewrite (IH (quiet_tail Q)).
Qed.

Lemma reached_quiet (ev : Event) (st : State) (ls : list StartableListener) :
  quiet ls -> reached ev st ls = ls.
Proof.
  intros Q. apply reached_all. now rewrite fire_quiet.
Qed.

Lemma fire_returns (ev : Event) (st : State) (ls : list StartableListener) :
  snd (fire (H:=H) ev st ls) = None ->
  fst (fire (H:=H) ev st ls) = calls ev ls.
Proof.
  intros E. rewrite fire_reached. now rewrite (reached_all _ _ _ E).
Qed.

End FireFacts.

(** ** The setters and the combinators *)

Section Lifecycle.
Context {Ext H : Type}.
Variable hooks : Hooks Ext H.

Local Abbreviation action := (Startable Ext -> Res Ext H).

Lemma assign_notify (x : State) (ev : Event) (s : Startable Ext) :
  seq (H:=H) (assign_state x) (notify ev) s =
  mkRes (set_state s x)
        (EState x :: fst (fire ev x (_listeners s)))
        (snd (fire (H:=H) ev x (_listeners s))).
Proof. reflexivity. Qed.

Lemma assign_mark_notify (x : State) (f : Config -> Event) (s : Startable Ext) :
  seq (H:=H) (assign_state x)
      (seq copy_marker (fun s' => notify (f (_configuration s')) s')) s =
  mkRes (set_marker (set_state s x) x)
        (EState x :: fst (fire (f (_configuration s)) x (_listeners s)))
        (snd (fire (H:=H) (f (_configuration s)) x (_listeners s))).
Proof. reflexivity. Qed.

Lemma seq_returns (a b : action) (s : Startable Ext) :
  raised (a s) = None ->
  seq a b s = mkRes (obj (b (obj (a s))))
                    (trace (a s) ++ trace (b (obj (a s))))
                    (raised (b (obj (a s)))).
Proof. intros E. unfold seq. now rewrite E. Qed.

Lemma seq_raises (a b : action) (s : Startable Ext) (e : exn) :
  raised (a s) = Some e -> seq a b s = a s.
Proof. intros E. unfold seq. now rewrite E. Qed.

Lemma try_returns (a : action) (h : exn -> action) (s : Startable Ext) :
  raised (a s) = None -> try_except a h s = a s.
Proof. intros E. unfold try_except. now rewrite E. Qed.

Lemma try_raises (a : action) (h : exn -> action) (s : Startable Ext) (e : exn) :
  raised (a s) = Some e ->
  try_except a h s = mkRes (obj (h e (obj (a s))))
                           (trace (a s) ++ trace (h e (obj (a s))))
                           (raised (h e (obj (a s)))).
Proof. intros E. unfold try_except. now rewrite E. Qed.

(** The handler of the three operations: the state becomes FAILED, the
    failure callbacks are called, and an exception leaves the handler. *)
Lemma on_exception_res (exc : exn) (s : Startable Ext) :
  on_exception (H:=H) exc s =
  mkRes (set_state s FAILED)
        (EState FAILED :: fst (fire (on_failure exc) FAILED (_listeners s)))
        (match snd (fire (H:=H) (on_failure exc) FAILED (_listeners s)) with
         | Some e' => Some e'
         | None => Some exc
         end).
Proof.
  unfold on_exception, _set_failed.
  unfold seq at 1. rewrite assign_notify. simpl.
  destruct (snd (fire (H:=H) (on_failure exc) FAILED (_listeners s))); simpl.
  - reflexivity.
  - now rewrite app_nil_r.
Qed.

Lemma on_exception_raised (exc : exn) (s : Startable Ext) :
  raised (on_exception (H:=H) exc s) <> None.
Proof.
  rewrite on_exception_res. simpl.
  destruct (snd (fire (H:=H) (on_failure exc) FAILED (_listeners s))); discriminate.
Qed.

(** *** What every operation leaves alone *)

Lemma same_frame_refl (s : Startable Ext) : same_frame s s.
Proof. repeat split. Qed.

Lemma same_frame_trans (s1 s2 s3 : Startable Ext) :
  same_frame s1 s2 -> same_frame s2 s3 -> same_frame s1 s3.
Proof.
  intros (A & B & C) (A' & B' & C'). repeat split; congruence.
Qed.

Lemma notified_app (ls : list StartableListener) (cfg : Config)
      (t1 t2 : list (Ev H)) :
  notified ls cfg t1 -> notified ls cfg t2 -> notified ls cfg (t1 ++ t2).
Proof.
  intros N1 N2. induction N1; simpl.
  - assumption.
  - now constructor.
  - now constructor.
  - rewrite <- app_assoc. now constructor.
Qed.

Lemma good_skip : good (Ext:=Ext) (H:=H) skip.
Proof. intros s. split; [apply same_frame_refl | constructor]. Qed.

Lemma good_raise (e : exn) : good (Ext:=Ext) (H:=H) (raise e).
Proof. intros s. split; [apply same_frame_refl | constructor]. Qed.

Lemma good_log (m : string) : good (Ext:=Ext) (H:=H) (log_info m).
Proof. intros s. split; [apply same_frame_refl | repeat constructor]. Qed.

Lemma good_hook (k : HookKind) : good (call_hook hooks k).
Proof. intros s. split; [repeat split | repeat constructor]. Qed.

Lemma good_seq (a b : action) : good a -> good b -> good (seq a b).
Proof.
  intros Ga Gb s. destruct (Ga s) as [Fa Na].
  unfold seq. destruct (raised (a s)); [now split|]. simpl.
  destruct (Gb (obj (a s))) as [Fb Nb]. split.
  - eapply same_frame_trans; eassumption.
  - apply notified_app; [assumption|].
    destruct Fa as (L & C & _). now rewrite L, C in Nb.
Qed.

Lemma good_try (a : action) (h : exn -> action) :
  good a -> (forall e, good (h e)) -> good (try_except a h).
Proof.
  intros Ga Gh s. destruct (Ga s) as [Fa Na].
  unfold try_except. destruct (raised (a s)) as [e|]; [|now split]. simpl.
  destruct (Gh e (obj (a s))) as [Fb Nb]. split.
  - eapply same_frame_trans; eassumption.
  - apply notified_app; [assumption|].
    destruct Fa as (L & C & _). now rewrite L, C in Nb.
Qed.

Lemma good_if (g : Startable Ext -> bool) (a b : action) :
  good a -> good b -> good (fun s => if g s then a s else b s).
Proof. intros Ga Gb s. destruct (g s); [apply Ga | apply Gb]. Qed.

Lemma good_assign_notify (x : State) (ev : Event) :
  (forall cfg, event_matches x cfg ev) ->
  good (Ext:=Ext) (H:=H) (seq (assign_state x) (notify ev)).
Proof.
  intros M s. rewrite assign_notify. simpl. split; [repeat split|].
  rewrite fire_reached.
  rewrite <- (app_nil_r (calls _ _)).
  apply nt_state; [apply M | constructor].
Qed.

Lemma good_assign_mark_notify (x : State) (f : Config -> Event) :
  (forall cfg, event_matches x cfg (f cfg)) ->
  good (Ext:=Ext) (H:=H)
       (seq (assign_state x)
            (seq copy_marker (fun s' => notify (f (_configuration s')) s'))).
Proof.
  intros M s. rewrite assign_mark_notify. simpl. split; [repeat split|].
  rewrite fire_reached.
  rewrite <- (app_nil_r (calls _ _)).
  apply nt_state; [apply M | constructor].
Qed.

Lemma good_on_exception (e : exn) : good (Ext:=Ext) (H:=H) (on_exception e).
Proof.
  apply good_seq; [|apply good_raise].
  apply good_assign_notify. intros cfg. exact I.
Qed.

Lemma good_configure : good (configure hooks).
Proof.
  apply good_try; [|apply good_on_exception].
  apply good_if; [apply good_skip|].
  apply good_seq; [apply good_assign_mark_notify; intros cfg; reflexivity|].
  apply good_seq; [apply good_hook|].
  apply good_assign_mark_notify; intros cfg; reflexivity.
Qed.

Lemma good_start_locked : good (start_locked hooks).
Proof.
  apply good_try; [|apply good_on_exception].
  apply good_if; [apply good_skip|].
  apply good_seq; [apply good_log|].
  apply good_seq; [apply good_assign_notify; intros cfg; exact I|].
  apply good_seq; [apply good_hook|].
  apply good_assign_notify; intros cfg; exact I.
Qed.

Lemma good_start : good (start hooks).
Proof.
  apply good_seq; [|apply good_start_locked].
  apply good_if; [apply good_configure | apply good_skip].
Qed.

Lemma good_stop : good (stop hooks).
Proof.
  apply good_try; [|apply good_on_exception].
  apply good_if; [apply good_skip|].
  apply good_seq; [apply good_assign_notify; intros cfg; exact I|].
  apply good_seq; [apply good_hook|].
  apply good_seq; [apply good_assign_notify; intros cfg; exact I|].
  apply good_log.
Qed.

Lemma good_run_op (o : Op) : good (run_op hooks o).
Proof. destruct o; [apply good_configure | apply good_start | apply good_stop]. Qed.

End Lifecycle.

(** ** The operations when no listener callback raises *)

Section QuietRuns.
Context {Ext H : Type}.
Variable hooks : Hooks Ext H.

Lemma set_quiet (x : State) (ev : Event) (s : Startable Ext) :
  quiet (_listeners s) ->
  seq (H:=H) (assign_state x) (notify ev) s =
  mkRes (set_state s x) (EState x :: calls ev (_listeners s)) None.
Proof.
  intros Q. rewrite assign_notify. now rewrite (fire_quiet _ _ Q).
Qed.

Lemma set_mark_quiet (x : State) (f : Config -> Event) (s : Startable Ext) :
  quiet (_listeners s) ->
  seq (H:=H) (assign_state x)
      (seq copy_marker (fun s' => notify (f (_configuration s')) s')) s =
  mkRes (set_marker (set_state s x) x)
        (EState x :: calls (f (_configuration s)) (_listeners s)) None.
Proof.
  intros Q. rewrite assign_mark_notify. now rewrite (fire_quiet _ _ Q).
Qed.

Lemma on_exception_quiet (exc : exn) (s : Startable Ext) :
  quiet (_listeners s) ->
  on_exception (H:=H) exc s =
  mkRes (set_state s FAILED)
        (EState FAILED :: calls (on_failure exc) (_listeners s)) (Some exc).
Proof.
  intros Q. rewrite on_exception_res. now rewrite (fire_quiet _ _ Q).
Qed.

Lemma call_hook_res (k : HookKind) (s : Startable Ext) :
  call_hook hooks k s =
  mkRes (set_ext s (h_ext (hook_of hooks k s)))
        [EHook k (h_inner (hook_of hooks k s)) (h_raised (hook_of hooks k s))]
        (h_raised (hook_of hooks k s)).
Proof. reflexivity. Qed.

Variable s : Startable Ext.
Hypothesis Q : quiet (_listeners s).

Lemma configure_quiet :
  configure_guard s = false ->
  configure hooks s =
  let s1 := set_marker (set_state s CONFIGURING) CONFIGURING in
  let h := do_configure hooks s1 in
  let s2 := set_ext s1 (h_ext h) in
  let cfg := _configuration s in
  let ls := _listeners s in
  match h_raised h with
  | None =>
      mkRes (set_marker (set_state s2 CONFIGURED) CONFIGURED)
            (EState CONFIGURING :: calls (on_configuring cfg) ls
               ++ EHook HConfigure (h_inner h) None
               :: EState CONFIGURED :: calls (on_configured cfg) ls)
            None
  | Some e =>
      mkRes (set_state s2 FAILED)
            (EState CONFIGURING :: calls (on_configuring cfg) ls
               ++ EHook HConfigure (h_inner h) (Some e)
               :: EState FAILED :: calls (on_failure e) ls)
            (Some e)
  end.
Proof.
  intros G. cbv zeta. unfold configure, try_except. rewrite G.
  unfold seq. unfold _set_configuring. rewrite set_mark_quiet by exact Q.
  cbn [obj trace raised]. rewrite call_hook_res. cbn [obj trace raised hook_of].
  destruct (h_raised (do_configure hooks _)) as [e|] eqn:HR.
  - cbn [obj trace raised]. rewrite on_exception_quiet by exact Q.
    cbn [obj trace raised]. rewrite <- ?app_assoc. reflexivity.
  - unfold _set_configured. rewrite set_mark_quiet by exact Q.
    cbn [obj trace raised]. rewrite <- ?app_assoc. reflexivity.
Qed.

Lemma start_locked_quiet :
  start_guard s = false ->
  start_locked hooks s =
  let s1 := set_state s STARTING in
  let h := do_start hooks s1 in
  let s2 := set_ext s1 (h_ext h) in
  let ls := _listeners s in
  match h_raised h with
  | None =>
      mkRes (set_state s2 STARTED)
            (ELogInfo "Started" :: EState STARTING :: calls on_starting ls
               ++ EHook HStart (h_inner h) None
               :: EState STARTED :: calls on_started ls)
            None
  | Some e =>
      mkRes (set_state s2 FAILED)
            (ELogInfo "Started" :: EState STARTING :: calls on_starting ls
               ++ EHook HStart (h_inner h) (Some e)
               :: EState FAILED :: calls (on_failure e) ls)
            (Some e)
  end.
Proof.
  intros G. cbv zeta. unfold start_locked, try_except. rewrite G.
  unfold seq. unfold log_info. cbn [obj trace raised].
  unfold _set_starting. rewrite set_quiet by exact Q.
  cbn [obj trace raised]. rewrite call_hook_res. cbn [obj trace raised hook_of].
  destruct (h_raised (do_start hooks _)) as [e|] eqn:HR.
  - cbn [obj trace raised]. rewrite on_exception_quiet by exact Q.
    cbn [obj trace raised]. rewrite <- ?app_assoc. reflexivity.
  - unfold _set_started. rewrite set_quiet by exact Q.
    cbn [obj trace raised]. rewrite <- ?app_assoc. reflexivity.
Qed.

Lemma stop_quiet :
  stop_guard s = false ->
  stop hooks s =
  let s1 := set_state s STOPPING in
  let h := do_stop hooks s1 in
  let s2 := set_ext s1 (h_ext h) in
  let ls := _listeners s in
  match h_raised h with
  | None =>
      mkRes (set_state s2 STOPPED)
            (EState STOPPING :: calls on_stopping ls
               ++ EHook HStop (h_inner h) None
               :: EState STOPPED :: calls on_stopped ls ++ [ELogInfo "Stopped"])
            None
  | Some e =>
      mkRes (set_state s2 FAILED)
            (EState STOPPING :: calls on_stopping ls
               ++ EHook HStop (h_inner h) (Some e)
               :: EState FAILED :: calls (on_failure e) ls)
            (Some e)
  end.
Proof.
  intros G. cbv zeta. unfold stop, try_except. rewrite G.
  unfold seq. unfold _set_stopping. rewrite set_quiet by exact Q.
  cbn [obj trace raised]. rewrite call_hook_res. cbn [obj trace raised hook_of].
  destruct (h_raised (do_stop hooks _)) as [e|] eqn:HR.
  - cbn [obj trace raised]. rewrite on_exception_quiet by exact Q.
    cbn [obj trace raised]. rewrite <- ?app_assoc. reflexivity.
  - unfold _set_stopped. rewrite set_quiet by exact Q.
    unfold log_info. cbn [obj trace raised]. rewrite <- ?app_assoc. reflexivity.
Qed.

Lemma configure_skips :
  configure_guard s = true -> configure hooks s = mkRes s [] None.
Proof. intros G. unfold configure, try_except. now rewrite G. Qed.

Lemma start_locked_skips :
  start_guard s = true -> start_locked hooks s = mkRes s [] None.
Proof. intros G. unfold start_locked, try_except. now rewrite G. Qed.

Lemma stop_skips :
  stop_guard s = true -> stop hooks s = mkRes s [] None.
Proof. intros G. unfold stop, try_except. now rewrite G. Qed.

End QuietRuns.

(** ** The walk of the state field *)

Section Walk.
Context {Ext H : Type}.
Variable hooks : Hooks Ext H.

Lemma walk_calls (c : State) (ev : Event) (ls : list StartableListener)
      (t : list (Ev H)) :
  walk c None (calls ev ls ++ t) = walk c None t.
Proof. induction ls as [|l r IH]; simpl; [reflexivity | exact IH]. Qed.

Lemma walk_calls_end (c : State) (ev : Event) (ls : list StartableListener) :
  walk (H:=H) c None (calls ev ls) = Some (c, None).
Proof. induction ls as [|l r IH]; simpl; [reflexivity | exact IH]. Qed.

Lemma walk_app (t1 t2 : list (Ev H)) :
  forall c p,
    walk c p (t1 ++ t2) =
    match walk c p t1 with
    | Some (c', p') => walk c' p' t2
    | None => None
    end.
Proof.
  induction t1 as [|e r IH]; intros c p; simpl; [reflexivity|].
  destruct e as [x| | k h res|]; destruct p; try reflexivity.
  - destruct x; try reflexivity; destruct (state_eqb c _); auto.
  - destruct x; try reflexivity; destruct (code_edge c _); auto.
  - apply IH.
  - destruct (state_eqb c (transient k)); auto.
  - apply IH.
Qed.

Lemma steady_skip : steady (Ext:=Ext) (H:=H) skip.
Proof. intros s _ R. exists (_state s). simpl. auto. Qed.

Lemma steady_seq (a b : Startable Ext -> Res Ext H) :
  good a -> steady a -> steady b -> steady (seq a b).
Proof.
  intros Ga Sa Sb s Q R.
  destruct (Sa s Q R) as (m & Wa & Ea & Ra).
  unfold seq. destruct (raised (a s)); [exists m; auto|]. simpl.
  destruct (Ga s) as [(L & _) _].
  assert (Q' : quiet (_listeners (obj (a s)))) by now rewrite L.
  assert (R' : at_rest (_state (obj (a s))) = true) by now rewrite Ea.
  destruct (Sb _ Q' R') as (n & Wb & Eb & Rb).
  exists n. rewrite walk_app, Wa. rewrite Ea in Wb. auto.
Qed.

Lemma steady_configure : steady (configure hooks).
Proof.
  intros s Q R. destruct (configure_guard s) eqn:G.
  - rewrite configure_skips by assumption. exists (_state s). simpl. auto.
  - rewrite (configure_quiet hooks s Q G). cbv zeta.
    unfold configure_guard in G. apply orb_false_iff in G. destruct G as [_ G].
    destruct (h_raised (do_configure hooks _)); simpl;
      [exists FAILED | exists CONFIGURED];
      destruct (_state s); try discriminate; simpl;
        rewrite walk_calls; simpl; rewrite walk_calls_end; auto.
Qed.

Lemma steady_start_locked : steady (start_locked hooks).
Proof.
  intros s Q R. destruct (start_guard s) eqn:G.
  - rewrite start_locked_skips by assumption. exists (_state s). simpl. auto.
  - rewrite (start_locked_quiet hooks s Q G). cbv zeta.
    unfold start_guard in G. apply orb_false_iff in G. destruct G as [_ G].
    destruct (h_raised (do_start hooks _)); simpl;
      [exists FAILED | exists STARTED];
      destruct (_state s); try discriminate; simpl;
        rewrite walk_calls; simpl; rewrite walk_calls_end; auto.
Qed.

Lemma steady_stop : steady (stop hooks).
Proof.
  intros s Q R. destruct (stop_guard s) eqn:G.
  - rewrite stop_skips by assumption. exists (_state s). simpl. auto.
  - rewrite (stop_quiet hooks s Q G). cbv zeta. unfold stop_guard in G.
    destruct (h_raised (do_stop hooks _)); simpl;
      [exists FAILED | exists STOPPED];
      destruct (_state s); try discriminate; simpl;
        rewrite walk_calls; simpl;
        rewrite ?walk_calls, ?walk_calls_end; auto.
Qed.

Lemma steady_start : steady (start hooks).
Proof.
  apply steady_seq.
  - apply good_if; [apply good_configure | apply good_skip].
  - intros s Q R. destruct (state_eqb (_configured s) UNCONFIGURED).
    + now apply steady_configure.
    + now apply steady_skip.
  - apply steady_start_locked.
Qed.

Lemma steady_run_op (o : Op) : steady (run_op hooks o).
Proof. destruct o; [apply steady_configure | apply steady_start | apply steady_stop]. Qed.

(** A whole sequence of calls keeps the walk going. *)
Lemma walk_run_ops (ops : list Op) :
  forall s,
    quiet (_listeners s) ->
    at_rest (_state s) = true ->
    exists b, walk (_state s) None (snd (fst (run_ops hooks ops s))) = Some (b, None).
Proof.
  induction ops as [|o rest IH]; intros s Q R; simpl.
  - now exists (_state s).
  - destruct (steady_run_op o s Q R) as (m & W & E & R').
    destruct (good_run_op hooks o s) as [(L & _) _].
    assert (Q' : quiet (_listeners (obj (run_op hooks o s)))) by now rewrite L.
    rewrite <- E in R'.
    destruct (IH _ Q' R') as (n & Wn).
    destruct (run_ops hooks rest (obj (run_op hooks o s))) as [[s' t] outs].
    simpl in *. exists n. rewrite walk_app, W. now rewrite <- E.
Qed.

(** A trace that [walk] accepts is a path through [code_edge]. *)
Lemma walk_is_path (t : list (Ev H)) :
  forall c p, walk c p t <> None -> is_path code_edge (state_seq c t) = true.
Proof.
  induction t as [|e r IH]; intros c p W; [reflexivity|].
  destruct e as [x| | k h res|]; simpl in W.
  - assert (E : code_edge c x = true /\ exists p', walk x p' r <> None).
    { destruct x, p as [k|]; try (now elim W);
        try (destruct (code_edge c _) eqn:CE; [split; [reflexivity|eauto] | now elim W]).
      destruct (state_eqb c (transient k)) eqn:SE; [|now elim W].
      apply state_eqb_eq in SE. subst c. split; [now destruct k | eauto]. }
    destruct E as [CE [p' W']]. specialize (IH x p' W').
    unfold state_seq in *. simpl. simpl in IH.
    destruct (states_of r); simpl in *; rewrite CE; simpl; auto.
  - destruct p; [now elim W|]. exact (IH c None W).
  - destruct p; [now elim W|].
    destruct (state_eqb c (transient k)); [|now elim W]. exact (IH c _ W).
  - destruct p; [now elim W|]. exact (IH c None W).
Qed.

Lemma last_nonempty (l : list State) :
  forall a d d', last (a :: l) d = last (a :: l) d'.
Proof.
  induction l as [|b r IH]; intros a d d'; [reflexivity|].
  change (last (b :: r) d = last (b :: r) d'). apply IH.
Qed.

Lemma last_state_seq_step (c x : State) (t : list (Ev H)) :
  last (state_seq c (EState x :: t)) c = last (state_seq x t) x.
Proof.
  unfold state_seq. simpl states_of.
  change (last (x :: states_of t) c = last (x :: states_of t) x).
  apply last_nonempty.
Qed.

(** In a trace that [walk] accepts, FAILED is assigned only right after a
    hook raised, in the state that hook runs in. *)
Lemma walk_failed (pre : list (Ev H)) :
  forall c p post,
    walk c p (pre ++ EState FAILED :: post) <> None ->
    (pre = [] /\ exists k, p = Some k /\ c = transient k)
    \/ (exists pre' k h e,
           pre = pre' ++ [EHook k h (Some e)]
           /\ last (state_seq c pre') c = transient k).
Proof.
  induction pre as [|x r IH]; intros c p post W.
  - left. split; [reflexivity|]. simpl in W.
    destruct p as [k|]; [|now elim W].
    destruct (state_eqb c (transient k)) eqn:SE; [|now elim W].
    apply state_eqb_eq in SE. eauto.
  - right. simpl in W. destruct x as [y| | k h res|].
    + assert (E : exists p', walk y p' (r ++ EState FAILED :: post) <> None
                             /\ p' = None).
      { destruct y, p as [k|]; try (now elim W);
          try (destruct (code_edge c _); [eauto | now elim W]).
        destruct (state_eqb c (transient k)); [eauto | now elim W]. }
      destruct E as (p' & W' & ->).
      destruct (IH y None post W') as [(_ & k & D & _) | (pre' & k & h & e & -> & L)];
        [discriminate|].
      exists (EState y :: pre'), k, h, e. split; [reflexivity|].
      now rewrite last_state_seq_step.
    + destruct p; [now elim W|].
      destruct (IH c None post W) as [(_ & k & D & _) | (pre' & k & h & e & -> & L)];
        [discriminate|].
      exists (ENotify l ev :: pre'), k, h, e. split; [reflexivity | exact L].
    + destruct p; [now elim W|].
      destruct (state_eqb c (transient k)) eqn:SE; [|now elim W].
      destruct (IH c _ post W) as [(-> & k' & D & T) | (pre' & k' & h' & e & -> & L)].
      * destruct res as [e|]; [|discriminate]. injection D as <-.
        exists [], k, h, e. split; [reflexivity | exact T].
      * exists (EHook k h res :: pre'), k', h', e. split; [reflexivity | exact L].
    + destruct p; [now elim W|].
      destruct (IH c None post W) as [(_ & k & D & _) | (pre' & k & h & e & -> & L)];
        [discriminate|].
      exists (ELogInfo msg0 :: pre'), k, h, e. split; [reflexivity | exact L].
Qed.

End Walk.

(** ** Events an operation can emit *)

Section Emits.
Context {Ext H : Type}.
Variable hooks : Hooks Ext H.
Variable P : Ev H -> Prop.

Local Abbreviation action := (Startable Ext -> Res Ext H).

Lemma emits_skip : emits (Ext:=Ext) P skip.
Proof. intros s. constructor. Qed.

Lemma emits_raise (e : exn) : emits (Ext:=Ext) P (raise e).
Proof. intros s. constructor. Qed.

Lemma emits_log (m : string) : P (ELogInfo m) -> emits (Ext:=Ext) P (log_info m).
Proof. intros A s. repeat constructor. exact A. Qed.

Lemma emits_hook (k : HookKind) :
  (forall s, P (EHook k (h_inner (hook_of hooks k s)) (h_raised (hook_of hooks k s)))) ->
  emits P (call_hook hooks k).
Proof. intros A s. repeat constructor. apply A. Qed.

Lemma emits_seq (a b : action) : emits P a -> emits P b -> emits P (seq a b).
Proof.
  intros A B s. unfold seq. destruct (raised (a s)); [apply A|]. simpl.
  apply Forall_app. split; [apply A | apply B].
Qed.

Lemma emits_try (a : action) (h : exn -> action) :
  emits P a -> (forall e, emits P (h e)) -> emits P (try_except a h).
Proof.
  intros A B s. unfold try_except. destruct (raised (a s)); [|apply A]. simpl.
  apply Forall_app. split; [apply A | apply B].
Qed.

Lemma emits_if (g : Startable Ext -> bool) (a b : action) :
  emits P a -> emits P b -> emits P (fun s => if g s then a s else b s).
Proof. intros A B s. destruct (g s); [apply A | apply B]. Qed.

Lemma Forall_calls (ev : Event) (ls : list StartableListener) :
  (forall l, P (ENotify l ev)) -> Forall P (calls ev ls).
Proof.
  intros A. unfold calls. apply Forall_forall. intros e I.
  apply in_map_iff in I. destruct I as (l & <- & _). apply A.
Qed.

Lemma emits_assign_notify (x : State) (ev : Event) :
  P (EState x) -> (forall l, P (ENotify l ev)) ->
  emits (Ext:=Ext) P (seq (assign_state x) (notify ev)).
Proof.
  intros A B s. rewrite assign_notify. simpl. constructor; [exact A|].
  rewrite fire_reached. now apply Forall_calls.
Qed.

Lemma emits_assign_mark_notify (x : State) (f : Config -> Event) :
  P (EState x) -> (forall l c, P (ENotify l (f c))) ->
  emits (Ext:=Ext) P
        (seq (assign_state x)
             (seq copy_marker (fun s' => notify (f (_configuration s')) s'))).
Proof.
  intros A B s. rewrite assign_mark_notify. simpl. constructor; [exact A|].
  rewrite fire_reached. apply Forall_calls. intros l. apply B.
Qed.

Lemma emits_on_exception (e : exn) :
  P (EState FAILED) -> (forall l, P (ENotify l (on_failure e))) ->
  emits (Ext:=Ext) P (on_exception e).
Proof.
  intros A B. apply emits_seq; [|apply emits_raise].
  now apply emits_assign_notify.
Qed.

End Emits.

(** Breaks a goal [emits P op] down to the events [P] must accept. *)
Ltac emits_steps :=
  repeat first
    [ apply emits_try; [|intro] | apply emits_if | apply emits_skip
    | apply emits_on_exception | apply emits_log | apply emits_hook
    | apply emits_assign_mark_notify | apply emits_assign_notify
    | apply emits_seq ];
  simpl; intros; auto.

Section EmitsOps.
Context {Ext H : Type}.
Variable hooks : Hooks Ext H.

Lemma configure_not_a_start : emits (not_a_start (H:=H)) (configure hooks).
Proof. unfold configure, _set_configuring, _set_configured. emits_steps. Qed.

Lemma stop_not_a_start : emits (not_a_start (H:=H)) (stop hooks).
Proof. unfold stop, _set_stopping, _set_stopped. emits_steps. Qed.

Lemma start_locked_not_a_configure :
  emits (not_a_configure (H:=H)) (start_locked hooks).
Proof. unfold start_locked, _set_starting, _set_started. emits_steps. Qed.

Lemma configure_genuine : emits (genuine hooks) (configure hooks).
Proof.
  unfold configure, _set_configuring, _set_configured. emits_steps. eauto.
Qed.

Lemma start_locked_genuine : emits (genuine hooks) (start_locked hooks).
Proof.
  unfold start_locked, _set_starting, _set_started. emits_steps. eauto.
Qed.

Lemma stop_genuine : emits (genuine hooks) (stop hooks).
Proof. unfold stop, _set_stopping, _set_stopped. emits_steps. eauto. Qed.

Lemma start_genuine : emits (genuine hooks) (start hooks).
Proof.
  apply emits_seq; [|apply start_locked_genuine].
  apply emits_if; [apply configure_genuine | apply emits_skip].
Qed.

Lemma run_op_genuine (o : Op) : emits (genuine hooks) (run_op hooks o).
Proof. destruct o; [apply configure_genuine | apply start_genuine | apply stop_genuine]. Qed.

(** When no hook of the class ever raises, no run records a raising hook. *)
Lemma genuine_returned (t : list (Ev H)) :
  (forall k s', h_raised (hook_of hooks k s') = None) ->
  Forall (genuine hooks) t -> hooks_returned t.
Proof.
  intros N G k h e I. rewrite Forall_forall in G. specialize (G _ I).
  simpl in G. destruct G as [s' E]. rewrite N in E. discriminate.
Qed.

End EmitsOps.

(** ** The operations in general *)

Section Cases.
Context {Ext H : Type}.
Variable hooks : Hooks Ext H.

Lemma try_on_exception (a : Startable Ext -> Res Ext H) (s : Startable Ext)
      (e : exn) :
  raised (a s) = Some e ->
  try_except a on_exception s = failed_with (obj (a s)) (trace (a s)) e.
Proof.
  intros E. rewrite (try_raises _ _ _ E). rewrite on_exception_res. reflexivity.
Qed.

Lemma failed_with_raised (s' : Startable Ext) (t : list (Ev H)) (e : exn) :
  raised (failed_with s' t e) <> None.
Proof.
  unfold failed_with. simpl.
  destruct (snd (fire (H:=H) (on_failure e) FAILED (_listeners s'))); discriminate.
Qed.

(** The body of [configure] past its guard. *)
Lemma configure_body (s : Startable Ext) :
  let s1 := set_marker (set_state s CONFIGURING) CONFIGURING in
  let f1 := fire (H:=H) (on_configuring (_configuration s)) CONFIGURING (_listeners s) in
  let h := do_configure hooks s1 in
  let s2 := set_ext s1 (h_ext h) in
  let f2 := fire (H:=H) (on_configured (_configuration s)) CONFIGURED (_listeners s) in
  seq _set_configuring (seq (call_hook hooks HConfigure) _set_configured) s =
  match snd f1 with
  | Some e => mkRes s1 (EState CONFIGURING :: fst f1) (Some e)
  | None =>
      match h_raised h with
      | Some e =>
          mkRes s2 (EState CONFIGURING :: fst f1
                      ++ [EHook HConfigure (h_inner h) (Some e)]) (Some e)
      | None =>
          mkRes (set_marker (set_state s2 CONFIGURED) CONFIGURED)
                (EState CONFIGURING :: fst f1
                   ++ EHook HConfigure (h_inner h) None
                   :: EState CONFIGURED :: fst f2)
                (snd f2)
      end
  end.
Proof.
  cbv zeta. unfold seq. unfold _set_configuring. rewrite assign_mark_notify.
  cbn [obj trace raised].
  destruct (snd (fire (on_configuring _) CONFIGURING _)) as [e|]; [reflexivity|].
  rewrite call_hook_res. cbn [obj trace raised hook_of].
  destruct (h_raised (do_configure hooks _)) as [e|]; [reflexivity|].
  unfold _set_configured. rewrite assign_mark_notify.
  cbn [obj trace raised]. rewrite <- ?app_assoc. reflexivity.
Qed.

(** The body of [start] past its guard. *)
Lemma start_body (s : Startable Ext) :
  let s1 := set_state s STARTING in
  let f1 := fire (H:=H) on_starting STARTING (_listeners s) in
  let h := do_start hooks s1 in
  let s2 := set_ext s1 (h_ext h) in
  let f2 := fire (H:=H) on_started STARTED (_listeners s) in
  seq (log_info "Started")
      (seq _set_starting (seq (call_hook hooks HStart) _set_started)) s =
  match snd f1 with
  | Some e => mkRes s1 (ELogInfo "Started" :: EState STARTING :: fst f1) (Some e)
  | None =>
      match h_raised h with
      | Some e =>
          mkRes s2 (ELogInfo "Started" :: EState STARTING :: fst f1
                      ++ [EHook HStart (h_inner h) (Some e)]) (Some e)
      | None =>
          mkRes (set_state s2 STARTED)
                (ELogInfo "Started" :: EState STARTING :: fst f1
                   ++ EHook HStart (h_inner h) None
                   :: EState STARTED :: fst f2)
                (snd f2)
      end
  end.
Proof.
  cbv zeta. unfold seq. unfold log_info. cbn [obj trace raised].
  unfold _set_starting. rewrite assign_notify. cbn [obj trace raised].
  destruct (snd (fire on_starting STARTING _)) as [e|]; [reflexivity|].
  rewrite call_hook_res. cbn [obj trace raised hook_of].
  destruct (h_raised (do_start hooks _)) as [e|]; [reflexivity|].
  unfold _set_started. rewrite assign_notify.
  cbn [obj trace raised]. rewrite <- ?app_assoc. reflexivity.
Qed.

End Cases.

Section Returns.
Context {Ext H : Type}.
Variable hooks : Hooks Ext H.

Lemma hook_not_fired (k : HookKind) (h : H) (r : option exn) (ev : Event)
      (st : State) (ls : list StartableListener) :
  ~ In (EHook k h r) (fst (fire ev st ls)).
Proof.
  rewrite fire_reached. unfold calls. intros I.
  apply in_map_iff in I. destruct I as (l & D & _). discriminate.
Qed.

(** A [configure] in which the hook raised leaves the marker at CONFIGURING. *)
Lemma configure_hook_raised (s : Startable Ext) :
  hook_raised HConfigure (trace (configure hooks s)) ->
  _configured (obj (configure hooks s)) = CONFIGURING.
Proof.
  intros (h & e & I). unfold configure in *.
  destruct (configure_guard s) eqn:G.
  - unfold try_except in I. rewrite G in I. destruct I.
  - set (body := fun s0 : Startable Ext =>
                   if configure_guard s0 then skip s0
                   else seq _set_configuring
                            (seq (call_hook hooks HConfigure) _set_configured) s0) in *.
    assert (B : body s = seq _set_configuring
                             (seq (call_hook hooks HConfigure) _set_configured) s)
      by (unfold body; now rewrite G).
    rewrite configure_body in B. cbv zeta in B.
    destruct (snd (fire (on_configuring _) CONFIGURING _)) as [e1|].
    { rewrite (try_on_exception body s (e:=e1)) by now rewrite B.
      rewrite B. reflexivity. }
    destruct (h_raised (do_configure hooks _)) as [e2|].
    { rewrite (try_on_exception body s (e:=e2)) by now rewrite B.
      rewrite B. reflexivity. }
    exfalso.
    assert (N : ~ In (EHook HConfigure h (Some e)) (trace (body s))).
    { rewrite B. simpl. rewrite in_app_iff. simpl.
      intros [D | [D | [D | [D | D]]]]; try discriminate;
        try (now apply hook_not_fired in D). }
    destruct (raised (body s)) as [e3|] eqn:R.
    + rewrite (try_on_exception body s R) in I. simpl in I.
      rewrite in_app_iff in I. simpl in I.
      destruct I as [I | [I | I]]; [now apply N | discriminate |].
      now apply hook_not_fired in I.
    + rewrite (try_returns body _ s R) in I. now apply N.
Qed.

(** A [configure] that went past its guard and returned has configured. *)
Lemma configure_returns (s : Startable Ext) :
  configure_guard s = false ->
  raised (configure hooks s) = None ->
  _state (obj (configure hooks s)) = CONFIGURED
  /\ _configured (obj (configure hooks s)) = CONFIGURED.
Proof.
  intros G R. unfold configure in *.
  set (body := fun s0 : Startable Ext =>
                 if configure_guard s0 then skip s0
                 else seq _set_configuring
                          (seq (call_hook hooks HConfigure) _set_configured) s0) in *.
  assert (B : body s = seq _set_configuring
                           (seq (call_hook hooks HConfigure) _set_configured) s)
    by (unfold body; now rewrite G).
  destruct (raised (body s)) as [e|] eqn:RB.
  - rewrite (try_on_exception body s RB) in R. now apply failed_with_raised in R.
  - rewrite (try_returns body _ s RB). rewrite B in *.
    rewrite configure_body in *. cbv zeta in *.
    destruct (snd (fire (on_configuring _) CONFIGURING _)); [discriminate|].
    destruct (h_raised (do_configure hooks _)); [discriminate|].
    split; reflexivity.
Qed.

(** A [start] that went past its guard and returned has started, after
    every listener got [on_starting] and [on_started]. *)
Lemma start_locked_returns (s : Startable Ext) :
  start_guard s = false ->
  raised (start_locked hooks s) = None ->
  start_locked hooks s =
  let s1 := set_state s STARTING in
  let h := do_start hooks s1 in
  mkRes (set_state (set_ext s1 (h_ext h)) STARTED)
        (ELogInfo "Started" :: EState STARTING :: calls on_starting (_listeners s)
           ++ EHook HStart (h_inner h) None
           :: EState STARTED :: calls on_started (_listeners s))
        None.
Proof.
  intros G R. cbv zeta. unfold start_locked in *.
  set (body := fun s0 : Startable Ext =>
                 if start_guard s0 then skip s0
                 else seq (log_info "Started")
                          (seq _set_starting
                               (seq (call_hook hooks HStart) _set_started)) s0) in *.
  assert (B : body s = seq (log_info "Started")
                           (seq _set_starting
                                (seq (call_hook hooks HStart) _set_started)) s)
    by (unfold body; now rewrite G).
  destruct (raised (body s)) as [e|] eqn:RB.
  - rewrite (try_on_exception body s RB) in R. now apply failed_with_raised in R.
  - rewrite (try_returns body _ s RB). rewrite B in *.
    rewrite start_body in *. cbv zeta in *.
    destruct (snd (fire on_starting STARTING _)) eqn:F1; [discriminate|].
    destruct (h_raised (do_start hooks _)) eqn:HR; [discriminate|].
    simpl in RB. rewrite RB.
    rewrite (fire_returns _ _ _ F1), (fire_returns _ _ _ RB). reflexivity.
Qed.

End Returns.

(** ** The configured marker *)

Section Marker.
Context {Ext H : Type}.
Variable hooks : Hooks Ext H.

Local Abbreviation action := (Startable Ext -> Res Ext H).

Lemma marked_skip : marked (Ext:=Ext) (H:=H) skip.
Proof. intros s M. exact M. Qed.

Lemma marked_raise (e : exn) : marked (Ext:=Ext) (H:=H) (raise e).
Proof. intros s M. exact M. Qed.

Lemma marked_log (m : string) : marked (Ext:=Ext) (H:=H) (log_info m).
Proof. intros s M. exact M. Qed.

Lemma marked_hook (k : HookKind) : marked (call_hook hooks k).
Proof. intros s M. exact M. Qed.

Lemma marked_seq (a b : action) : marked a -> marked b -> marked (seq a b).
Proof.
  intros A B s M. unfold seq. destruct (raised (a s)); [now apply A|].
  simpl. apply B. now apply A.
Qed.

Lemma marked_try (a : action) (h : exn -> action) :
  marked a -> (forall e, marked (h e)) -> marked (try_except a h).
Proof.
  intros A B s M. unfold try_except. destruct (raised (a s)); [|now apply A].
  simpl. apply B. now apply A.
Qed.

Lemma marked_if (g : Startable Ext -> bool) (a b : action) :
  marked a -> marked b -> marked (fun s => if g s then a s else b s).
Proof. intros A B s M. destruct (g s); [now apply A | now apply B]. Qed.

Lemma marked_assign_notify (x : State) (ev : Event) :
  marked (Ext:=Ext) (H:=H) (seq (assign_state x) (notify ev)).
Proof. intros s M. rewrite assign_notify. exact M. Qed.

Lemma marked_assign_mark_notify (x : State) (f : Config -> Event) :
  x <> UNCONFIGURED ->
  marked (Ext:=Ext) (H:=H)
         (seq (assign_state x)
              (seq copy_marker (fun s' => notify (f (_configuration s')) s'))).
Proof. intros N s M. rewrite assign_mark_notify. exact N. Qed.

Lemma marked_on_exception (e : exn) : marked (Ext:=Ext) (H:=H) (on_exception e).
Proof.
  apply marked_seq; [apply marked_assign_notify | apply marked_raise].
Qed.

Lemma marked_configure : marked (configure hooks).
Proof.
  apply marked_try; [|apply marked_on_exception].
  apply marked_if; [apply marked_skip|].
  apply marked_seq; [apply marked_assign_mark_notify; discriminate|].
  apply marked_seq; [apply marked_hook|].
  apply marked_assign_mark_notify; discriminate.
Qed.

Lemma marked_start_locked : marked (start_locked hooks).
Proof.
  apply marked_try; [|apply marked_on_exception].
  apply marked_if; [apply marked_skip|].
  apply marked_seq; [apply marked_log|].
  apply marked_seq; [apply marked_assign_notify|].
  apply marked_seq; [apply marked_hook | apply marked_assign_notify].
Qed.

Lemma marked_start : marked (start hooks).
Proof.
  apply marked_seq; [|apply marked_start_locked].
  apply marked_if; [apply marked_configure | apply marked_skip].
Qed.

Lemma marked_stop : marked (stop hooks).
Proof.
  apply marked_try; [|apply marked_on_exception].
  apply marked_if; [apply marked_skip|].
  apply marked_seq; [apply marked_assign_notify|].
  apply marked_seq; [apply marked_hook|].
  apply marked_seq; [apply marked_assign_notify | apply marked_log].
Qed.

Lemma marked_run_op (o : Op) : marked (run_op hooks o).
Proof. destruct o; [apply marked_configure | apply marked_start | apply marked_stop]. Qed.

Lemma marked_run_ops (ops : list Op) :
  forall s, _configured s <> UNCONFIGURED ->
            _configured (fst (fst (run_ops hooks ops s))) <> UNCONFIGURED.
Proof.
  induction ops as [|o rest IH]; intros s M; [exact M|]. simpl.
  specialize (IH _ (marked_run_op o s M)).
  destruct (run_ops hooks rest (obj (run_op hooks o s))) as [[s' t] outs].
  exact IH.
Qed.

(** With the marker away from UNCONFIGURED, [start] is its locked part. *)
Lemma start_marked (s : Startable Ext) :
  _configured s <> UNCONFIGURED -> start hooks s = start_locked hooks s.
Proof.
  intros M. unfold start, seq.
  destruct (state_eqb (_configured s) UNCONFIGURED) eqn:E.
  - apply state_eqb_eq in E. contradiction.
  - simpl. now destruct (start_locked hooks s).
Qed.

(** A [configure] that goes past its guard moves the marker. *)
Lemma configure_marks (s : Startable Ext) :
  configure_guard s = false ->
  _configured (obj (configure hooks s)) <> UNCONFIGURED.
Proof.
  intros G. unfold configure.
  set (body := fun s0 : Startable Ext =>
                 if configure_guard s0 then skip s0
                 else seq _set_configuring
                          (seq (call_hook hooks HConfigure) _set_configured) s0).
  assert (B : body s = seq _set_configuring
                           (seq (call_hook hooks HConfigure) _set_configured) s)
    by (unfold body; now rewrite G).
  assert (M : _configured (obj (body s)) <> UNCONFIGURED).
  { rewrite B, configure_body. cbv zeta.
    destruct (snd (fire (on_configuring _) CONFIGURING _)); [discriminate|].
    destruct (h_raised (do_configure hooks _)); discriminate. }
  destruct (raised (body s)) as [e|] eqn:R.
  - rewrite (try_on_exception body s R). exact M.
  - rewrite (try_returns body _ s R). exact M.
Qed.

Lemma coherent_init (config : Config) (x : Ext) : coherent (init config x).
Proof. intros _. reflexivity. Qed.

(** [coherent] holds of every object the three operations can produce. *)
Lemma coherent_run_op (o : Op) (s : Startable Ext) :
  coherent s -> coherent (obj (run_op hooks o s)).
Proof.
  intros C U.
  destruct (state_eqb (_configured s) UNCONFIGURED) eqn:E.
  - apply state_eqb_eq in E. pose proof (C E) as St.
    assert (G : configure_guard s = false)
      by (unfold configure_guard; now rewrite E, St).
    destruct o; simpl in *.
    + now apply configure_marks in U.
    + exfalso. revert U. unfold start, seq.
      rewrite E, (proj2 (state_eqb_eq _ _) eq_refl).
      destruct (raised (configure hooks s)).
      * now apply configure_marks.
      * simpl. apply marked_start_locked. now apply configure_marks.
    + assert (SG : stop_guard s = true)
        by (unfold stop_guard; now rewrite St).
      rewrite (stop_skips hooks s SG). exact St.
  - exfalso. apply (marked_run_op o s); [|exact U].
    intros D. rewrite D in E. discriminate.
Qed.

End Marker.

(** ** Failure policy *)

Section Failsafe.
Context {Ext H : Type}.
Variable hooks : Hooks Ext H.

Lemma in_calls (e : Ev H) (ev : Event) (ls : list StartableListener) :
  In e (calls ev ls) -> exists l, In l ls /\ e = ENotify l ev.
Proof.
  unfold calls. intros I. apply in_map_iff in I.
  destruct I as (l & <- & I). eauto.
Qed.

Lemma failsafe_skip : failsafe (Ext:=Ext) (H:=H) skip.
Proof.
  intros s _. split.
  - intros k h e [].
  - intros _. split; [reflexivity | intros []].
Qed.

Lemma failsafe_seq (a b : Startable Ext -> Res Ext H) :
  good a -> failsafe a -> failsafe b -> failsafe (seq a b).
Proof.
  intros Ga Fa Fb s Q.
  unfold seq. destruct (raised (a s)) as [ea|] eqn:Ra; [exact (Fa s Q)|].
  destruct (Fa s Q) as [A1 A2]. simpl. destruct (Ga s) as [(L & _) _].
  assert (Q' : quiet (_listeners (obj (a s)))) by now rewrite L.
  destruct (Fb _ Q') as [B1 B2]. rewrite L in B1. split.
  - intros k h e I. apply in_app_iff in I. destruct I as [I | I].
    + destruct (A1 k h e I) as (_ & D & _). congruence.
    + destruct (B1 k h e I) as (St & Rb & pre & T).
      split; [exact St|]. split; [exact Rb|].
      exists (trace (a s) ++ pre). rewrite T. now rewrite <- app_assoc.
  - intros R.
    assert (RA : hooks_returned (trace (a s)))
      by (intros k h e I; apply (R k h e); apply in_app_iff; now left).
    assert (RB : hooks_returned (trace (b (obj (a s)))))
      by (intros k h e I; apply (R k h e); apply in_app_iff; now right).
    destruct (A2 RA) as [_ NA]. destruct (B2 RB) as [Rb NB].
    split; [exact Rb|]. intros I. apply in_app_iff in I. tauto.
Qed.

(** Closes the cases of a trace given in full. *)
Ltac in_trace :=
  repeat match goal with
         | I : In _ (_ ++ _) |- _ => apply in_app_iff in I
         | I : In _ (_ :: _) |- _ => destruct I as [I | I]
         | I : In _ [] |- _ => destruct I
         | I : _ \/ _ |- _ => destruct I as [I | I]
         | I : In _ (calls _ _) |- _ =>
             apply in_calls in I; destruct I as (? & _ & I)
         end;
  try discriminate.

Lemma failsafe_configure : failsafe (configure hooks).
Proof.
  intros s Q. destruct (configure_guard s) eqn:G.
  - rewrite (configure_skips hooks s G). now apply failsafe_skip.
  - rewrite (configure_quiet hooks s Q G). cbv zeta.
    destruct (h_raised (do_configure hooks _)) as [e0|]; simpl; split.
    + intros k h e I. in_trace. injection I as <- <- <-.
      repeat split. now exists (EState CONFIGURING
                                  :: calls (on_configuring (_configuration s))
                                           (_listeners s)).
    + intros R. exfalso. eapply R. right. apply in_app_iff. right. now left.
    + intros k h e I. in_trace.
    + intros _. split; [reflexivity|]. intros I. in_trace.
Qed.

Lemma failsafe_start_locked : failsafe (start_locked hooks).
Proof.
  intros s Q. destruct (start_guard s) eqn:G.
  - rewrite (start_locked_skips hooks s G). now apply failsafe_skip.
  - rewrite (start_locked_quiet hooks s Q G). cbv zeta.
    destruct (h_raised (do_start hooks _)) as [e0|]; simpl; split.
    + intros k h e I. in_trace. injection I as <- <- <-.
      repeat split. now exists (ELogInfo "Started" :: EState STARTING
                                  :: calls on_starting (_listeners s)).
    + intros R. exfalso. eapply R. right. right. apply in_app_iff. right. now left.
    + intros k h e I. in_trace.
    + intros _. split; [reflexivity|]. intros I. in_trace.
Qed.

Lemma failsafe_stop : failsafe (stop hooks).
Proof.
  intros s Q. destruct (stop_guard s) eqn:G.
  - rewrite (stop_skips hooks s G). now apply failsafe_skip.
  - rewrite (stop_quiet hooks s Q G). cbv zeta.
    destruct (h_raised (do_stop hooks _)) as [e0|]; simpl; split.
    + intros k h e I. in_trace. injection I as <- <- <-.
      repeat split. now exists (EState STOPPING
                                  :: calls on_stopping (_listeners s)).
    + intros R. exfalso. eapply R. right. apply in_app_iff. right. now left.
    + intros k h e I. in_trace.
    + intros _. split; [reflexivity|]. intros I. in_trace.
Qed.

Lemma failsafe_start : failsafe (start hooks).
Proof.
  apply failsafe_seq.
  - apply good_if; [apply good_configure | apply good_skip].
  - intros s Q. destruct (state_eqb (_configured s) UNCONFIGURED).
    + now apply failsafe_configure.
    + now apply failsafe_skip.
  - apply failsafe_start_locked.
Qed.

Lemma failsafe_run_op (o : Op) : failsafe (run_op hooks o).
Proof. destruct o; [apply failsafe_configure | apply failsafe_start | apply failsafe_stop]. Qed.

End Failsafe.

(** ** Counting notifications *)

Section Counting.
Context {H : Type}.

Lemma deliveries_app (p : Event -> bool) (l : StartableListener)
      (t1 t2 : list (Ev H)) :
  deliveries p l (t1 ++ t2) = deliveries p l t1 + deliveries p l t2.
Proof. unfold deliveries. now rewrite filter_app, length_app. Qed.

Lemma deliveries_calls (p : Event -> bool) (l : StartableListener)
      (ev : Event) (ls : list StartableListener) :
  deliveries (H:=H) p l (calls ev ls) =
  if p ev then registrations l ls else 0.
Proof.
  unfold deliveries, registrations, calls.
  induction ls as [|x r IH]; simpl.
  - now destruct (p ev).
  - destruct (listener_eqb x l), (p ev); simpl; auto.
Qed.

Lemma deliveries_none (l : StartableListener) (t : list (Ev H)) :
  Forall not_a_start t ->
  deliveries is_on_starting l t = 0 /\ deliveries is_on_started l t = 0.
Proof.
  unfold deliveries. induction 1 as [|e r N _ IH]; [now split|].
  destruct IH as [A B]. simpl.
  destruct e as [x | l' ev | k h res | m]; auto.
  destruct ev; simpl in *; try contradiction;
    rewrite andb_false_r; auto.
Qed.

End Counting.

(** ** Listeners of the examples *)

Lemma quiet_nil : quiet [].
Proof. intros l ev st []. Qed.

Lemma quiet_plain (ns : list nat) : quiet (map plain_listener ns).
Proof.
  intros l ev st I. apply in_map_iff in I. destruct I as (n & <- & _).
  now destruct ev.
Qed.

Lemma quiet_silent (ns : list nat) : quiet (map silent_listener ns).
Proof.
  intros l ev st I. apply in_map_iff in I. destruct I as (n & <- & _).
  now destruct ev.
Qed.

(** ** The path of the state field (C1) *)

Lemma path_avoids_unconfigured (l : list State) :
  forall c, c <> UNCONFIGURED ->
            is_path code_edge (c :: l) = true ->
            ~ In UNCONFIGURED (c :: l).
Proof.
  induction l as [|b r IH]; intros c N P [E | I]; try congruence; try easy.
  simpl in P. apply andb_prop in P. destruct P as [E P].
  assert (Nb : b <> UNCONFIGURED) by (intros ->; now destruct c).
  exact (IH b Nb P I).
Qed.

(** C1, as amended.  For every sequence of [configure()], [start()] and
    [stop()] calls on a freshly constructed [Startable] (hooks that may raise,
    listeners whose callbacks do not), the values taken by the state field
    start at STOPPED and follow the graph
    STOPPED|STARTED|FAILED -> CONFIGURING -> CONFIGURED,
    STOPPED|CONFIGURED|FAILED -> STARTING -> STARTED,
    CONFIGURED|STARTED|FAILED -> STOPPING -> STOPPED,
    CONFIGURING|STARTING|STOPPING -> FAILED; the field is never UNCONFIGURED
    (that value is held by the configured marker only); and FAILED is
    assigned only right after the hook of the operation raised, in the state
    that hook runs in. *)
Theorem state_field_follows_code_graph
        {Ext H : Type} (hooks : Hooks Ext H) (config : Config) (x : Ext)
        (ls : list StartableListener) (ops : list Op) :
  quiet ls ->
  let t := snd (fst (run_ops hooks ops (set_listeners (init config x) ls))) in
  is_path code_edge (state_seq STOPPED t) = true
  /\ ~ In UNCONFIGURED (state_seq STOPPED t)
  /\ (forall pre post,
         t = pre ++ EState FAILED :: post ->
         exists pre' k h e,
           pre = pre' ++ [EHook k h (Some e)]
           /\ last (state_seq STOPPED pre') STOPPED = transient k).
Proof.
  intros Q t.
  destruct (walk_run_ops hooks ops (set_listeners (init config x) ls) Q eq_refl)
    as (b & W).
  change (walk STOPPED None t = Some (b, None)) in W.
  assert (NW : walk STOPPED None t <> None) by (rewrite W; discriminate).
  assert (P : is_path code_edge (state_seq STOPPED t) = true)
    by (apply walk_is_path with (p := None); exact NW).
  split; [exact P|]. split.
  - apply path_avoids_unconfigured; [discriminate | exact P].
  - intros pre post E. rewrite E in NW.
    destruct (@walk_failed _ pre STOPPED None post NW) as [(_ & k & D & _) | F];
      [discriminate | exact F].
Qed.

(** A class whose [do_configure] raises, with one listener: configure (fails),
    start, configure again, stop. *)
Lemma state_field_follows_code_graph_witness :
  quiet (map plain_listener [1]) /\
  let t := snd (fst (run_ops (flaky_hooks true false false)
                             [OpConfigure; OpStart; OpConfigure; OpStop]
                             (set_listeners (init None tt)
                                            (map plain_listener [1])))) in
  is_path code_edge (state_seq STOPPED t) = true
  /\ ~ In UNCONFIGURED (state_seq STOPPED t)
  /\ (forall pre post,
         t = pre ++ EState FAILED :: post ->
         exists pre' k h e,
           pre = pre' ++ [EHook k h (Some e)]
           /\ last (state_seq STOPPED pre') STOPPED = transient k).
Proof.
  split; [apply quiet_plain|].
  apply (state_field_follows_code_graph
           (flaky_hooks true false false) None tt
           [OpConfigure; OpStart; OpConfigure; OpStop]).
  apply quiet_plain.
Defined.

(** C1 as stated fails: on a fresh [Startable] one [configure()] takes the
    state field from STOPPED to CONFIGURING, which is not an edge of the
    graph the claim gives; the field starts at STOPPED, not UNCONFIGURED. *)
Lemma state_field_leaves_spec_graph :
  state_seq STOPPED (trace (configure base_hooks (init None tt)))
  = [STOPPED; CONFIGURING; CONFIGURED]
  /\ spec_edge STOPPED CONFIGURING = false
  /\ is_path spec_edge
       (state_seq STOPPED
          (snd (fst (run_ops base_hooks [OpConfigure] (init None tt)))))
     = false.
Proof. repeat split. Qed.

(** ** Notification of the listeners (C3) *)

(** C3, as amended.  Every assignment of the state made by [configure()],
    [start()] or [stop()], FAILED included, is followed at once by calls of
    the one listener method that matches it, on the listeners registered at
    that moment, in registration order, up to and including the first
    listener whose callback raises (on every one of them when no callback
    raises); no other listener call is made, the calls all precede the
    return or the raise of the operation, and the operation leaves the list
    of listeners as it was. *)
Theorem transitions_notify_listeners
        {Ext H : Type} (hooks : Hooks Ext H) (o : Op) (s : Startable Ext) :
  notified (_listeners s) (_configuration s) (trace (run_op hooks o s))
  /\ _listeners (obj (run_op hooks o s)) = _listeners s
  /\ (quiet (_listeners s) ->
      forall ev st, reached ev st (_listeners s) = _listeners s).
Proof.
  destruct (good_run_op hooks o s) as [(L & _) N].
  split; [exact N|]. split; [exact L|].
  intros Q ev st. now apply (reached_quiet (H:=H)).
Qed.

(** Two listeners whose callbacks return, on a class whose [do_start] raises. *)
Lemma transitions_notify_listeners_witness :
  let s := set_listeners (init None tt) (map plain_listener [1; 2]) in
  quiet (_listeners s)
  /\ notified (_listeners s) (_configuration s)
              (trace (run_op (flaky_hooks false true false) OpStart s))
  /\ forall ev st, reached ev st (_listeners s) = _listeners s.
Proof.
  intros s.
  destruct (transitions_notify_listeners (flaky_hooks false true false) OpStart s)
    as (N & _ & R).
  split; [apply quiet_plain|]. split; [exact N|].
  apply R. apply quiet_plain.
Defined.

(** C3 as stated fails: with two listeners of which the first raises in its
    [starting] callback, [start()] assigns STARTING and the second listener,
    though registered, is never called with [on_starting]. *)
Lemma raising_listener_cuts_notification :
  let s := set_listeners (init None tt) [grumpy_listener 1; plain_listener 2] in
  let r := start base_hooks s in
  In (EState STARTING) (trace r)
  /\ In (plain_listener 2) (_listeners s)
  /\ deliveries is_on_starting (plain_listener 2) (trace r) = 0
  /\ deliveries is_on_starting (grumpy_listener 1) (trace r) = 1.
Proof.
  cbv zeta. split; [|split; [|split]].
  - vm_compute. do 8 right. now left.
  - right. now left.
  - reflexivity.
  - reflexivity.
Qed.

(** ** Failure of a hook (C5) *)

(** C5, as amended.  On a [Startable] none of whose listener callbacks
    raises: when a hook raises [e] during [configure()], [start()] or
    [stop()], the operation ends with the state FAILED, after calling the
    failure method of every registered listener with [e], in order, right
    after the state became FAILED, and it raises that same [e]; and when no
    hook raises, the operation raises nothing and never assigns FAILED. *)
Theorem hook_failure_policy
        {Ext H : Type} (hooks : Hooks Ext H) (o : Op) (s : Startable Ext) :
  quiet (_listeners s) ->
  let r := run_op hooks o s in
  (forall k h e,
      In (EHook k h (Some e)) (trace r) ->
      _state (obj r) = FAILED
      /\ raised r = Some e
      /\ exists pre,
          trace r =
          pre ++ EHook k h (Some e)
              :: EState FAILED :: calls (on_failure e) (_listeners s))
  /\ (hooks_returned (trace r) ->
      raised r = None /\ ~ In (EState FAILED) (trace r)).
Proof. intros Q. exact (failsafe_run_op hooks o s Q). Qed.

(** Two listeners, and a class whose [do_stop] raises: [stop()] after a
    [start()]. *)
Lemma hook_failure_policy_witness :
  let s := obj (start (flaky_hooks false false true)
                      (set_listeners (init None tt) (map plain_listener [1; 2]))) in
  let r := stop (flaky_hooks false false true) s in
  quiet (_listeners s)
  /\ _state (obj r) = FAILED
  /\ raised r = Some "stop failed"%string
  /\ exists pre,
      trace r =
      pre ++ EHook HStop tt (Some "stop failed"%string)
          :: EState FAILED
          :: calls (on_failure "stop failed"%string) (_listeners s).
Proof.
  intros s r.
  assert (Q : quiet (_listeners s)) by apply (quiet_plain [1; 2]).
  split; [exact Q|].
  apply (proj1 (hook_failure_policy (flaky_hooks false false true) OpStop s Q)
               HStop tt "stop failed"%string).
  vm_compute. do 3 right. now left.
Defined.

(** C5 as stated fails in its converse: with a listener whose [starting]
    callback raises, no hook raises during [start()], and yet [start()]
    raises and the state becomes FAILED. *)
Lemma listener_failure_fails_operation :
  let s := set_listeners (init None tt) [grumpy_listener 1] in
  let r := start base_hooks s in
  hooks_returned (trace r)
  /\ raised r = Some "listener failed"%string
  /\ _state (obj r) = FAILED
  /\ In (EState FAILED) (trace r).
Proof.
  cbv zeta. split; [|split; [|split]].
  - intros k h e I. vm_compute in I.
    repeat (destruct I as [I | I]; [discriminate|]). exact I.
  - reflexivity.
  - reflexivity.
  - vm_compute. do 8 right. now left.
Qed.

(** ** Starting twice (C7) *)

Section StartTwice.
Context {Ext H : Type}.
Variable hooks : Hooks Ext H.

Lemma deliveries_state (p : Event -> bool) (l : StartableListener) (x : State)
      (t : list (Ev H)) :
  deliveries p l (EState x :: t) = deliveries p l t.
Proof. reflexivity. Qed.

Lemma deliveries_hook (p : Event -> bool) (l : StartableListener)
      (k : HookKind) (h : H) (r : option exn) (t : list (Ev H)) :
  deliveries p l (EHook k h r :: t) = deliveries p l t.
Proof. reflexivity. Qed.

Lemma deliveries_log (p : Event -> bool) (l : StartableListener) (m : string)
      (t : list (Ev H)) :
  deliveries p l (ELogInfo m :: t) = deliveries p l t.
Proof. reflexivity. Qed.

Lemma not_running_guard (s : Startable Ext) :
  _enabled s = true -> is_running s = false -> start_guard s = false.
Proof.
  unfold is_running, is_started, is_starting, start_guard, state_in.
  intros -> R. simpl. now rewrite orb_false_r.
Qed.

(** The locked part of [start], from an object that is enabled and not
    running, when it returns. *)
Lemma start_locked_once (s : Startable Ext) :
  _enabled s = true ->
  is_running s = false ->
  raised (start_locked hooks s) = None ->
  let r := start_locked hooks s in
  _state (obj r) = STARTED
  /\ _configured (obj r) = _configured s
  /\ start_locked hooks (obj r) = mkRes (obj r) [] None
  /\ forall l,
      deliveries is_on_starting l (trace r) = registrations l (_listeners s)
      /\ deliveries is_on_started l (trace r) = registrations l (_listeners s).
Proof.
  intros En NR R. cbv zeta.
  rewrite (start_locked_returns hooks s (not_running_guard s En NR) R).
  cbv zeta. cbn [obj trace raised].
  split; [reflexivity|]. split; [reflexivity|]. split.
  - apply start_locked_skips. unfold start_guard. simpl. apply orb_true_r.
  - intros l.
    rewrite !deliveries_log, !deliveries_state, !deliveries_app,
      !deliveries_hook, !deliveries_state, !deliveries_calls.
    simpl. split; lia.
Qed.

End StartTwice.

(** C7, as amended.  On a [Startable] as the constructor and the three
    operations leave it (one whose marker is UNCONFIGURED is still STOPPED):
    when it is enabled and not already STARTED or STARTING, and a first
    [start()] returns without raising, the state is STARTED, a second
    [start()] right after it is a no-op, and the two calls together make
    exactly one [on_starting] and one [on_started] call per registration of
    a listener.  When [enabled] is false or the state is STARTED or STARTING,
    [start()] makes no starting or started transition, call or hook, and is
    a no-op altogether once the marker has left UNCONFIGURED. *)
Theorem start_twice_notifies_once
        {Ext H : Type} (hooks : Hooks Ext H) (s s' : Startable Ext) :
  (_enabled s = true ->
   is_running s = false ->
   coherent s ->
   raised (start hooks s) = None ->
   let r1 := start hooks s in
   let r2 := start hooks (obj r1) in
   _state (obj r1) = STARTED
   /\ r2 = mkRes (obj r1) [] None
   /\ forall l,
       deliveries is_on_starting l (trace r1 ++ trace r2)
       = registrations l (_listeners s)
       /\ deliveries is_on_started l (trace r1 ++ trace r2)
          = registrations l (_listeners s))
  /\ (coherent s' ->
      start_guard s' = true ->
      Forall not_a_start (trace (start hooks s'))
      /\ (_configured s' <> UNCONFIGURED ->
          start hooks s' = mkRes s' [] None)).
Proof.
  split.
  - intros En NR C R. cbv zeta.
    destruct (state_eqb (_configured s) UNCONFIGURED) eqn:E.
    + apply state_eqb_eq in E. pose proof (C E) as St.
      assert (G : configure_guard s = false)
        by (unfold configure_guard; now rewrite E, St).
      assert (S1 : start hooks s =
                   seq (configure hooks) (start_locked hooks) s).
      { unfold start, seq. now rewrite E. }
      rewrite S1 in *. unfold seq in *.
      destruct (raised (configure hooks s)) eqn:RC; [congruence|].
      cbn [obj trace raised] in *.
      destruct (configure_returns hooks s G RC) as [Sc Mc].
      destruct (good_configure hooks s) as [(Lc & _ & Ec) _].
      set (c := obj (configure hooks s)) in *.
      assert (Enc : _enabled c = true) by congruence.
      assert (NRc : is_running c = false)
        by (unfold is_running, is_started, is_starting; now rewrite Sc).
      destruct (start_locked_once hooks c Enc NRc R) as (A & M & B & D).
      split; [exact A|].
      assert (M' : _configured (obj (start_locked hooks c)) <> UNCONFIGURED)
        by (rewrite M, Mc; discriminate).
      rewrite (start_marked hooks _ M'). split; [exact B|].
      intros l. rewrite B. cbn [trace]. rewrite app_nil_r, !deliveries_app.
      destruct (deliveries_none l (configure_not_a_start hooks s)) as [Z1 Z2].
      destruct (D l) as [D1 D2]. rewrite Z1, Z2, D1, D2, Lc. auto.
    + assert (M : _configured s <> UNCONFIGURED)
        by (intros D; rewrite D in E; discriminate).
      rewrite (start_marked hooks s M) in *.
      destruct (start_locked_once hooks s En NR R) as (A & Mk & B & D).
      split; [exact A|].
      assert (M' : _configured (obj (start_locked hooks s)) <> UNCONFIGURED)
        by now rewrite Mk.
      rewrite (start_marked hooks _ M'). split; [exact B|].
      intros l. rewrite B. cbn [trace]. rewrite app_nil_r. apply D.
  - intros C G. split.
    + destruct (state_eqb (_configured s') UNCONFIGURED) eqn:E.
      * apply state_eqb_eq in E. pose proof (C E) as St.
        assert (D : _enabled s' = false).
        { unfold start_guard in G. rewrite St in G. simpl in G.
          rewrite orb_false_r in G. now destruct (_enabled s'). }
        unfold start, seq. rewrite E, (proj2 (state_eqb_eq _ _) eq_refl).
        destruct (raised (configure hooks s')); [apply configure_not_a_start|].
        simpl. apply Forall_app. split; [apply configure_not_a_start|].
        destruct (good_configure hooks s') as [(_ & _ & Ec) _].
        rewrite start_locked_skips; [constructor|].
        unfold start_guard. now rewrite Ec, D.
      * assert (M : _configured s' <> UNCONFIGURED)
          by (intros D; rewrite D in E; discriminate).
        rewrite (start_marked hooks s' M), (start_locked_skips hooks s' G).
        constructor.
    + intros M.
      now rewrite (start_marked hooks s' M), (start_locked_skips hooks s' G).
Qed.

(** A fresh object with two listeners, started twice; and a fresh object
    that a subclass disabled. *)
Lemma start_twice_notifies_once_witness :
  let s := set_listeners (init None tt) (map plain_listener [1; 2]) in
  let s' := set_enabled (init None tt) false in
  let r1 := start base_hooks s in
  let r2 := start base_hooks (obj r1) in
  (_state (obj r1) = STARTED
   /\ r2 = mkRes (obj r1) [] None
   /\ forall l,
       deliveries is_on_starting l (trace r1 ++ trace r2)
       = registrations l (_listeners s)
       /\ deliveries is_on_started l (trace r1 ++ trace r2)
          = registrations l (_listeners s))
  /\ Forall not_a_start (trace (start base_hooks s')).
Proof.
  intros s s'.
  destruct (start_twice_notifies_once base_hooks s s') as [A B].
  split.
  - apply A; [reflexivity | reflexivity | intros _; reflexivity | reflexivity].
  - apply B; [intros _; reflexivity | reflexivity].
Defined.

(** C7 as stated fails three ways.  With a [do_start] that raises, two
    [start()] calls in a row call [on_starting] twice, and [on_started]
    never, on a listener registered once.  On an object already STARTED two
    more [start()] calls notify nobody.  And with [enabled] false, [start()]
    on a fresh object is no no-op: it configures it. *)
Lemma start_twice_breaks :
  let l := plain_listener 1 in
  let s := set_listeners (init None tt) [l] in
  let failing := flaky_hooks false true false in
  let r1 := start failing s in
  let r2 := start failing (obj r1) in
  let started := obj (start base_hooks s) in
  let q1 := start base_hooks started in
  let q2 := start base_hooks (obj q1) in
  let off := set_enabled (init None tt) false in
  (_enabled s = true
   /\ registrations l (_listeners s) = 1
   /\ deliveries is_on_starting l (trace r1 ++ trace r2) = 2
   /\ deliveries is_on_started l (trace r1 ++ trace r2) = 0)
  /\ (_enabled started = true
      /\ deliveries is_on_starting l (trace q1 ++ trace q2) = 0)
  /\ (_enabled off = false
      /\ _state off = STOPPED
      /\ _state (obj (start base_hooks off)) = CONFIGURED
      /\ states_of (trace (start base_hooks off)) = [CONFIGURING; CONFIGURED]).
Proof. cbv zeta. repeat split. Qed.

(** ** A failed configuration is not retried by [start] (C9) *)

(** C9.  When the [do_configure] hook raises during [configure()], the
    configured marker is left at CONFIGURING; from then on, whatever calls
    of [configure()], [start()] and [stop()] follow, the marker is not
    UNCONFIGURED, so [start()] is exactly its locked part: it skips the
    implicit [configure()] and never calls [do_configure]. *)
Theorem failed_configure_is_not_retried
        {Ext H : Type} (hooks : Hooks Ext H) (s : Startable Ext) (ops : list Op) :
  hook_raised HConfigure (trace (configure hooks s)) ->
  let s1 := obj (configure hooks s) in
  let s2 := fst (fst (run_ops hooks ops s1)) in
  _configured s1 = CONFIGURING
  /\ raised (configure hooks s) <> None
  /\ _configured s2 <> UNCONFIGURED
  /\ start hooks s2 = start_locked hooks s2
  /\ Forall not_a_configure (trace (start hooks s2)).
Proof.
  intros R. cbv zeta.
  pose proof (configure_hook_raised hooks s R) as M.
  assert (M1 : _configured (obj (configure hooks s)) <> UNCONFIGURED)
    by (rewrite M; discriminate).
  pose proof (marked_run_ops hooks ops _ M1) as M2.
  split; [exact M|]. split; [|split; [exact M2|split]].
  - intros N. assert (G : configure_guard s = false).
    { destruct (configure_guard s) eqn:G; [|reflexivity].
      rewrite (configure_skips hooks s G) in R.
      destruct R as (h & e & []). }
    destruct (configure_returns hooks s G N) as [_ C]. congruence.
  - now apply start_marked.
  - rewrite (start_marked hooks _ M2). apply start_locked_not_a_configure.
Qed.

(** A class whose [do_configure] raises: configure, then stop and start. *)
Lemma failed_configure_is_not_retried_witness :
  let hooks := flaky_hooks true false false in
  let s := init None tt in
  let s1 := obj (configure hooks s) in
  let s2 := fst (fst (run_ops hooks [OpStop; OpStart] s1)) in
  hook_raised HConfigure (trace (configure hooks s))
  /\ _configured s1 = CONFIGURING
  /\ _configured s2 <> UNCONFIGURED
  /\ start hooks s2 = start_locked hooks s2
  /\ Forall not_a_configure (trace (start hooks s2)).
Proof.
  intros hooks s s1 s2.
  assert (R : hook_raised HConfigure (trace (configure hooks s))).
  { exists tt, "configure failed"%string. vm_compute. right. now left. }
  split; [exact R|].
  destruct (failed_configure_is_not_retried hooks s [OpStop; OpStart] R)
    as (A & _ & B & C & D).
  repeat split; assumption.
Defined.

(** ** [start] on a disabled, never configured object (C10) *)

(** C10.  On a fresh [Startable] (STOPPED, marker UNCONFIGURED) whose
    [enabled] flag is false, [start()] does exactly what [configure()] does,
    because the implicit [configure()] runs before the [enabled] guard, and
    it makes no starting or started transition, listener call or hook call.
    When the [do_configure] hook and the listener callbacks return, that is:
    the state goes to CONFIGURING, every listener gets [on_configuring], the
    hook runs, the state goes to CONFIGURED, every listener gets
    [on_configured], and [start()] returns. *)
Theorem disabled_start_still_configures
        {Ext H : Type} (hooks : Hooks Ext H) (s : Startable Ext) :
  _enabled s = false ->
  _configured s = UNCONFIGURED ->
  _state s = STOPPED ->
  start hooks s = configure hooks s
  /\ Forall not_a_start (trace (start hooks s))
  /\ (quiet (_listeners s) ->
      let h := do_configure hooks
                 (set_marker (set_state s CONFIGURING) CONFIGURING) in
      h_raised h = None ->
      raised (start hooks s) = None
      /\ _state (obj (start hooks s)) = CONFIGURED
      /\ _configured (obj (start hooks s)) = CONFIGURED
      /\ trace (start hooks s) =
         EState CONFIGURING
           :: calls (on_configuring (_configuration s)) (_listeners s)
           ++ EHook HConfigure (h_inner h) None
           :: EState CONFIGURED
           :: calls (on_configured (_configuration s)) (_listeners s)).
Proof.
  intros D M St.
  assert (E : start hooks s = configure hooks s).
  { unfold start, seq. rewrite M. simpl.
    destruct (raised (configure hooks s)) eqn:RC; [reflexivity|].
    destruct (good_configure hooks s) as [(_ & _ & Ec) _].
    rewrite start_locked_skips by (unfold start_guard; now rewrite Ec, D).
    simpl. rewrite app_nil_r. rewrite <- RC.
    now destruct (configure hooks s). }
  split; [exact E|]. rewrite E. split; [apply configure_not_a_start|].
  intros Q h HR.
  assert (G : configure_guard s = false)
    by (unfold configure_guard; now rewrite M, St).
  rewrite (configure_quiet hooks s Q G). cbv zeta. fold h. rewrite HR.
  repeat split.
Qed.

(** A disabled fresh object of the base class, with two listeners. *)
Lemma disabled_start_still_configures_witness :
  let s := set_enabled (set_listeners (init None tt) (map plain_listener [1; 2]))
                       false in
  start base_hooks s = configure base_hooks s
  /\ Forall not_a_start (trace (start base_hooks s))
  /\ raised (start base_hooks s) = None
  /\ _state (obj (start base_hooks s)) = CONFIGURED
  /\ trace (start base_hooks s) =
     EState CONFIGURING
       :: calls (on_configuring None) (map plain_listener [1; 2])
       ++ EHook HConfigure tt None
       :: EState CONFIGURED
       :: calls (on_configured None) (map plain_listener [1; 2]).
Proof.
  intros s.
  destruct (disabled_start_still_configures base_hooks s
              eq_refl eq_refl eq_refl) as (A & B & C).
  destruct (C (quiet_plain [1; 2]) eq_refl) as (R & St & _ & T).
  repeat split; assumption.
Defined.

(** ** Registration of listeners (C8) *)

(** C8.  [add_listener] and [remove_listener] leave the object as it is,
    without an error, when the value is not a [StartableListener];
    [add_listener] of a listener appends it, so that adding a listener that
    is already registered leaves the set of registered listeners unchanged,
    and adding twice registers the same set as adding once. *)
Theorem listener_registration_typed
        {Ext : Type} (s : Startable Ext) (v : PyValue) (l : StartableListener) :
  (as_listener v = None -> add_listener s v = s /\ remove_listener s v = s)
  /\ _listeners (add_listener s (VListener l)) = _listeners s ++ [l]
  /\ (In l (_listeners s) ->
      forall x, In x (_listeners (add_listener s (VListener l)))
                <-> In x (_listeners s))
  /\ (forall x,
         In x (_listeners (add_listener (add_listener s (VListener l))
                                        (VListener l)))
         <-> In x (_listeners (add_listener s (VListener l)))).
Proof.
  split; [|split; [|split]].
  - intros N. unfold add_listener, remove_listener. now rewrite N.
  - reflexivity.
  - intros I x. simpl. rewrite in_app_iff. simpl. split.
    + intros [A | [<- | []]]; assumption.
    + intros A. now left.
  - intros x. simpl. rewrite !in_app_iff. simpl. tauto.
Qed.

(** The values [None], an integer and a string, and a listener added to an
    object that already holds it. *)
Lemma listener_registration_typed_witness :
  let l := plain_listener 1 in
  let s := set_listeners (init None tt) [l; plain_listener 2] in
  (add_listener s VNone = s /\ remove_listener s VNone = s)
  /\ (add_listener s (VInt 7) = s /\ remove_listener s (VStr "x") = s)
  /\ (forall x, In x (_listeners (add_listener s (VListener l)))
                <-> In x (_listeners s)).
Proof.
  intros l s.
  split; [apply (proj1 (listener_registration_typed s VNone l) eq_refl)|].
  split.
  - split.
    + apply (proj1 (listener_registration_typed s (VInt 7) l) eq_refl).
    + apply (proj1 (listener_registration_typed s (VStr "x") l) eq_refl).
  - apply (proj1 (proj2 (proj2 (listener_registration_typed s VNone l)))).
    now left.
Defined.

(** ** The cascade of a manager (C4) *)

Section ManagerFacts.
Context {CExt CH : Type}.
Variable child_hooks : Hooks CExt CH.

Local Abbreviation child := (Startable CExt).

Lemma try_log_returns (body : child -> @ItemRes CExt CH) (c : child) :
  i_raised (try_log body c) = None.
Proof. unfold try_log. now destruct (i_raised (body c)) eqn:E. Qed.

Lemma for_items_total (body : child -> @ItemRes CExt CH) (items : list child) :
  (forall c, i_raised (body c) = None) ->
  h_raised (for_items body items) = None
  /\ _startable_objects (h_ext (for_items body items))
     = map (fun c => i_obj (body c)) items
  /\ h_inner (for_items body items)
     = flat_map (fun c => i_trace (body c)) items.
Proof.
  intros N. induction items as [|c rest (A & B & C)]; simpl; [auto|].
  rewrite N. simpl. now rewrite A, B, C.
Qed.

(** What a statement of the cascade leaves behind for one child. *)
Lemma try_log_call (o : Op) (c : child) :
  let r := run_op child_hooks o c in
  try_log (call_child child_hooks o) c =
  mkItemRes (obj r)
            (MChild o (trace r) (raised r)
               :: match raised r with
                  | Some e => [MLogError e]
                  | None => []
                  end)
            None.
Proof.
  cbv zeta. unfold try_log, call_child. simpl.
  now destruct (raised (run_op child_hooks o c)).
Qed.

Lemma manager_hook_res (k : HookKind) (s : Startable (ManagerExt CExt)) :
  let r := hook_of (manager_hooks child_hooks) k s in
  let run := cascade_on child_hooks k (_configuration s) in
  h_raised r = None
  /\ _startable_objects (h_ext r)
     = map (fun c => obj (run c)) (_startable_objects (ext s))
  /\ h_inner r
     = flat_map (fun c => MChild (op_of_hook k) (trace (run c)) (raised (run c))
                            :: match raised (run c) with
                               | Some e => [MLogError e]
                               | None => []
                               end)
                (_startable_objects (ext s)).
Proof.
  cbv zeta. destruct k; simpl;
    unfold manager_do_configure, manager_do_start, manager_do_stop.
  - destruct (for_items_total
                (try_log (fun item =>
                            call_child child_hooks OpConfigure
                              (set_configuration item (get_configuration s))))
                (_startable_objects (ext s))) as (A & B & C).
    { intros c. apply try_log_returns. }
    split; [exact A|]. split.
    + rewrite B. apply map_ext. intros c. unfold try_log, call_child. simpl.
      now destruct (raised (configure child_hooks _)).
    + rewrite C. apply flat_map_ext. intros c. unfold try_log, call_child. simpl.
      now destruct (raised (configure child_hooks _)).
  - destruct (for_items_total (try_log (call_child child_hooks OpStart))
                              (_startable_objects (ext s))) as (A & B & C).
    { intros c. apply try_log_returns. }
    split; [exact A|]. split.
    + rewrite B. apply map_ext. intros c. now rewrite try_log_call.
    + rewrite C. apply flat_map_ext. intros c. now rewrite try_log_call.
  - destruct (for_items_total (try_log (call_child child_hooks OpStop))
                              (_startable_objects (ext s))) as (A & B & C).
    { intros c. apply try_log_returns. }
    split; [exact A|]. split.
    + rewrite B. apply map_ext. intros c. now rewrite try_log_call.
    + rewrite C. apply flat_map_ext. intros c. now rewrite try_log_call.
Qed.

End ManagerFacts.

(** C4.  In the cascade of a [StartableManager], whatever its children:
    the hook calls the operation on every child of the list, in order, each
    child ending as that operation leaves it; every exception a child raises
    is logged right after the call and goes no further; the hook itself
    raises nothing; so no run of [configure()], [start()] or [stop()] on the
    manager records a raising hook, and a manager whose own listeners raise
    nothing neither raises nor becomes FAILED. *)
Theorem manager_contains_child_failures
        {CExt CH : Type} (child_hooks : Hooks CExt CH) (k : HookKind) (o : Op)
        (s : Startable (ManagerExt CExt)) :
  let r := hook_of (manager_hooks child_hooks) k s in
  let run := cascade_on child_hooks k (_configuration s) in
  let whole := run_op (manager_hooks child_hooks) o s in
  h_raised r = None
  /\ _startable_objects (h_ext r)
     = map (fun c => obj (run c)) (_startable_objects (ext s))
  /\ h_inner r
     = flat_map (fun c => MChild (op_of_hook k) (trace (run c)) (raised (run c))
                            :: match raised (run c) with
                               | Some e => [MLogError e]
                               | None => []
                               end)
                (_startable_objects (ext s))
  /\ hooks_returned (trace whole)
  /\ (quiet (_listeners s) ->
      raised whole = None /\ ~ In (EState FAILED) (trace whole)).
Proof.
  cbv zeta. destruct (manager_hook_res child_hooks k s) as (A & B & C).
  split; [exact A|]. split; [exact B|]. split; [exact C|].
  assert (R : hooks_returned (trace (run_op (manager_hooks child_hooks) o s))).
  { apply (genuine_returned (hooks:=manager_hooks child_hooks)).
    - intros k' s'. apply (manager_hook_res child_hooks k' s').
    - apply run_op_genuine. }
  split; [exact R|].
  intros Q. exact (proj2 (failsafe_run_op (manager_hooks child_hooks) o s Q) R).
Qed.

(** A manager with three children, the second of which raises in
    [do_start]: [start()] on the manager starts the other two, logs the
    failure, and leaves the manager STARTED. *)
Lemma manager_contains_child_failures_witness :
  let kids := [init None false; init None true; init None false] in
  let m := init None (mkManagerExt kids) in
  let whole := run_op (manager_hooks moody_hooks) OpStart m in
  quiet (_listeners m)
  /\ raised whole = None
  /\ ~ In (EState FAILED) (trace whole)
  /\ _state (obj whole) = STARTED
  /\ map (fun c => _state c) (_startable_objects (ext (obj whole)))
     = [STARTED; FAILED; STARTED]
  /\ logged (h_inner (manager_do_start moody_hooks m)) = ["start failed"%string].
Proof.
  intros kids m whole.
  destruct (manager_contains_child_failures moody_hooks HStart OpStart m)
    as (_ & _ & _ & _ & F).
  split; [exact quiet_nil|].
  destruct (F quiet_nil) as [R N].
  split; [exact R|]. split; [exact N|].
  split; [vm_compute; reflexivity|].
  split; vm_compute; reflexivity.
Defined.

(** ** The worker loop (C2, C6) *)

Section WorkerFacts.
Variable Engine : Type.
Variable execute_module : Engine -> QObject -> Engine * option exn.

Local Abbreviation loop := (dispatch_loop execute_module).

Lemma sentinels_read_app (t1 t2 : list WEv) :
  sentinels_read (t1 ++ t2) = sentinels_read t1 ++ sentinels_read t2.
Proof. unfold sentinels_read. apply flat_map_app. Qed.

Lemma executed_app (t1 t2 : list WEv) :
  executed (t1 ++ t2) = executed t1 ++ executed t2.
Proof. unfold executed. apply flat_map_app. Qed.

(** One turn of the loop: either it breaks, having only taken a sentinel
    from the queue, or it took no sentinel and gave none to the engine. *)
Lemma iteration_shape (p : Poll) (eng : Engine) :
  let r := iteration execute_module p eng in
  match s_signal r with
  | Break =>
      exists v, isinstance_ShutdownMessage v = true
                /\ p = Got v /\ s_trace r = [WGet v] /\ s_engine r = eng
  | _ =>
      sentinels_read (s_trace r) = []
      /\ forall v x, In (WExec v x) (s_trace r) ->
                     isinstance_ShutdownMessage v = false
  end.
Proof.
  destruct p as [v | | e]; simpl.
  - destruct v as [m | m | b]; simpl.
    + exists (QShutdown m). auto.
    + unfold guarded_dispatch, dispatch. simpl.
      destruct (execute_module eng (QMessage m)) as [eng' [e|]]; simpl;
        (split; [reflexivity|]); intros v x I;
        repeat (destruct I as [I | I]; [try discriminate|]);
        try (now injection I as <- _); try easy.
    + destruct b; simpl; (split; [reflexivity|]); intros v x I;
        repeat (destruct I as [I | I]; [discriminate|]); easy.
  - split; [reflexivity|]. intros v x [I | []]. discriminate.
  - split; [reflexivity|]. intros v x [].
Qed.

(** The loop as a whole: events that involve no sentinel, then, when and
    only when it has exited, the one sentinel it took from the queue. *)
Lemma loop_shape (polls : list Poll) :
  forall eng,
    let r := loop eng polls in
    exists body,
      sentinels_read body = []
      /\ (forall v x, In (WExec v x) body -> isinstance_ShutdownMessage v = false)
      /\ match status r with
         | Exited => exists v, isinstance_ShutdownMessage v = true
                               /\ wtrace r = body ++ [WGet v]
         | _ => wtrace r = body
         end.
Proof.
  induction polls as [|p rest IH]; intros eng; simpl.
  - exists []. repeat split. intros v x [].
  - pose proof (iteration_shape p eng) as It. cbv zeta in It.
    destruct (s_signal (iteration execute_module p eng)) eqn:Sg; simpl.
    + destruct It as [S1 X1].
      destruct (IH (s_engine (iteration execute_module p eng)))
        as (body & S2 & X2 & T).
      exists (s_trace (iteration execute_module p eng) ++ body).
      split; [now rewrite sentinels_read_app, S1, S2|]. split.
      * intros v x I. apply in_app_iff in I. destruct I; eauto.
      * destruct (status (loop _ rest)).
        -- now rewrite T.
        -- destruct T as (v & Sv & T). exists v. split; [exact Sv|].
           now rewrite T, app_assoc.
        -- now rewrite T.
    + destruct It as (v & Sv & _ & T & _).
      exists []. repeat split; [intros ? ? [] |]. exists v. now rewrite T.
    + destruct It as [S1 X1]. exists (s_trace (iteration execute_module p eng)).
      repeat split; assumption.
Qed.

(** What was put on the queue after a sentinel plays no part. *)
Lemma loop_cut (sd : AbstractMessage) (post : list Poll) (pre : list Poll) :
  forall eng,
    let r1 := loop eng (pre ++ Got (QShutdown sd) :: post) in
    let r0 := loop eng (pre ++ [Got (QShutdown sd)]) in
    status r1 = status r0
    /\ engine r1 = engine r0
    /\ wtrace r1 = wtrace r0
    /\ unread r1 = unread r0 ++ post
    /\ status r1 <> Polling.
Proof.
  induction pre as [|p rest IH]; intros eng; simpl.
  - repeat split. discriminate.
  - destruct (s_signal (iteration execute_module p eng)); simpl.
    + destruct (IH (s_engine (iteration execute_module p eng)))
        as (A & B & C & D & E).
      repeat split; try assumption. now rewrite C.
    + repeat split; [now rewrite <- app_assoc | discriminate].
    + repeat split; [now rewrite <- app_assoc | discriminate].
Qed.

(** A message whose execution raises costs one log line, and the loop goes
    on with what follows. *)
Lemma loop_after_failure (eng eng' : Engine) (a : AbstractMessage) (e : exn)
      (rest : list Poll) :
  execute_module eng (QMessage a) = (eng', Some e) ->
  loop eng (Got (QMessage a) :: rest) =
  mkLoopRes (status (loop eng' rest)) (engine (loop eng' rest))
            (WGet (QMessage a) :: WExec (QMessage a) (Some e)
               :: WLogException e :: wtrace (loop eng' rest))
            (unread (loop eng' rest)).
Proof.
  intros X. simpl. unfold guarded_dispatch, dispatch. simpl. rewrite X. reflexivity.
Qed.

(** A message whose execution returns. *)
Lemma loop_after_success (eng eng' : Engine) (a : AbstractMessage)
      (rest : list Poll) :
  execute_module eng (QMessage a) = (eng', None) ->
  loop eng (Got (QMessage a) :: rest) =
  mkLoopRes (status (loop eng' rest)) (engine (loop eng' rest))
            (WGet (QMessage a) :: WExec (QMessage a) None
               :: wtrace (loop eng' rest))
            (unread (loop eng' rest)).
Proof.
  intros X. simpl. unfold guarded_dispatch, dispatch. simpl. rewrite X. reflexivity.
Qed.

(** A message is handed to the engine, whatever the engine does with it. *)
Lemma loop_executes (eng : Engine) (a : AbstractMessage) (rest : list Poll) :
  executed (wtrace (loop eng (Got (QMessage a) :: rest))) =
  QMessage a
    :: executed (wtrace (loop (fst (execute_module eng (QMessage a))) rest)).
Proof.
  destruct (execute_module eng (QMessage a)) as [eng' [e|]] eqn:X.
  - now rewrite (loop_after_failure rest X).
  - now rewrite (loop_after_success rest X).
Qed.

(** Two messages, then the sentinel: both are executed, the loop exits and
    what follows stays in the queue. *)
Lemma loop_two_then_sentinel (eng : Engine) (a b sd : AbstractMessage)
      (rest : list Poll) :
  let r := loop eng (Got (QMessage a) :: Got (QMessage b)
                       :: Got (QShutdown sd) :: rest) in
  executed (wtrace r) = [QMessage a; QMessage b]
  /\ status r = Exited
  /\ unread r = rest.
Proof.
  cbv zeta.
  destruct (execute_module eng (QMessage a)) as [e1 [x1|]] eqn:X1;
    [rewrite (loop_after_failure _ X1) | rewrite (loop_after_success _ X1)];
    cbn [status unread wtrace];
    (destruct (execute_module e1 (QMessage b)) as [e2 [x2|]] eqn:X2;
     [rewrite (loop_after_failure _ X2) | rewrite (loop_after_success _ X2)]);
    cbn [status unread wtrace]; simpl; repeat split.
Qed.

End WorkerFacts.

(** C2.  In every run of the dispatch loop, whatever the queue held: at
    most one sentinel is taken from the queue; when one is taken the loop
    is left at once, so that this is its last event; no sentinel is ever
    handed to [execute_module]; and what follows the sentinel in the queue
    is left there unread, without any effect on the run.  With the queue
    [A, B, sentinel, C] the engine is called exactly twice, on [A] and on
    [B], and [C] stays in the queue; the same holds of the whole
    [subprocess_entry] when the engine's [configure] and [start] return. *)
Theorem sentinel_ends_dispatch_loop
        (Engine : Type)
        (execute_module : Engine -> QObject -> Engine * option exn)
        (handler_op : Op -> Engine -> Engine * option exn)
        (eng : Engine) (polls pre post : list Poll)
        (sd a b c : AbstractMessage) :
  let r := dispatch_loop execute_module eng polls in
  let cut := dispatch_loop execute_module eng (pre ++ Got (QShutdown sd) :: post) in
  let bare := dispatch_loop execute_module eng (pre ++ [Got (QShutdown sd)]) in
  let queue := [Got (QMessage a); Got (QMessage b); Got ShutdownMessage;
                Got (QMessage c)] in
  let abc := dispatch_loop execute_module eng queue in
  let entry := subprocess_entry execute_module handler_op eng queue in
  List.length (sentinels_read (wtrace r)) <= 1
  /\ (forall v x, In (WExec v x) (wtrace r) ->
                  isinstance_ShutdownMessage v = false)
  /\ (forall v, In (WGet v) (wtrace r) ->
                isinstance_ShutdownMessage v = true ->
                status r = Exited
                /\ exists body, wtrace r = body ++ [WGet v]
                                /\ sentinels_read body = [])
  /\ (status cut = status bare
      /\ engine cut = engine bare
      /\ wtrace cut = wtrace bare
      /\ unread cut = unread bare ++ post
      /\ status cut <> Polling)
  /\ (executed (wtrace abc) = [QMessage a; QMessage b]
      /\ List.length (executed (wtrace abc)) = 2
      /\ status abc = Exited
      /\ unread abc = [Got (QMessage c)])
  /\ (snd (handler_op OpConfigure eng) = None ->
      snd (handler_op OpStart (fst (handler_op OpConfigure eng))) = None ->
      executed (wtrace entry) = [QMessage a; QMessage b]
      /\ unread entry = [Got (QMessage c)]).
Proof.
  cbv zeta.
  destruct (loop_shape execute_module polls eng) as (body & S & X & T).
  cbv zeta in T.
  assert (NG : forall v, In (WGet v) body -> isinstance_ShutdownMessage v = false).
  { intros v I. destruct (isinstance_ShutdownMessage v) eqn:Sv; [|reflexivity].
    apply in_split in I. destruct I as (l1 & l2 & ->).
    rewrite sentinels_read_app in S. simpl in S. rewrite Sv in S.
    now destruct (sentinels_read l1). }
  split; [|split; [|split; [|split; [|split]]]].
  - destruct (status (dispatch_loop execute_module eng polls)).
    + rewrite T, S. simpl. lia.
    + destruct T as (v & Sv & ->). rewrite sentinels_read_app, S. simpl.
      rewrite Sv. simpl. lia.
    + rewrite T, S. simpl. lia.
  - intros v x I.
    destruct (status (dispatch_loop execute_module eng polls)).
    + rewrite T in I. eauto.
    + destruct T as (w & _ & T). rewrite T in I.
      apply in_app_iff in I. destruct I as [I | [I | []]]; [eauto | discriminate].
    + rewrite T in I. eauto.
  - intros v I Sv.
    destruct (status (dispatch_loop execute_module eng polls)).
    + rewrite T in I. apply NG in I. congruence.
    + destruct T as (w & Sw & T). rewrite T in I.
      apply in_app_iff in I. destruct I as [I | [I | []]].
      * apply NG in I. congruence.
      * injection I as <-. split; [reflexivity|]. now exists body.
    + rewrite T in I. apply NG in I. congruence.
  - apply loop_cut.
  - destruct (loop_two_then_sentinel execute_module eng a b
                (mkMessage 999 None None None None []) [Got (QMessage c)])
      as (E & St & U).
    fold ShutdownMessage in E, St, U.
    split; [exact E|]. split; [now rewrite E|]. split; [exact St | exact U].
  - intros HC HS. unfold subprocess_entry. rewrite HC, HS.
    set (e0 := fst (handler_op OpStart (fst (handler_op OpConfigure eng)))).
    destruct (loop_two_then_sentinel execute_module e0 a b
                (mkMessage 999 None None None None []) [Got (QMessage c)])
      as (E & St & U).
    fold ShutdownMessage in E, St, U.
    rewrite St. cbn [wtrace unread]. split; [|exact U].
    rewrite !executed_app, E. reflexivity.
Qed.

(** The queue [A, bad, sentinel, C] with an engine that rejects [bad]. *)
Lemma sentinel_ends_dispatch_loop_witness :
  let queue := [Got (msg 1); Got (msg 13); Got ShutdownMessage; Got (msg 2)] in
  let r := dispatch_loop picky_engine 0 queue in
  let entry := subprocess_entry picky_engine steady_handler 0
                 [Got (msg 1); Got (msg 2); Got ShutdownMessage; Got (msg 3)] in
  In (WGet ShutdownMessage) (wtrace r)
  /\ status r = Exited
  /\ (exists body, wtrace r = body ++ [WGet ShutdownMessage]
                   /\ sentinels_read body = [])
  /\ executed (wtrace entry) = [msg 1; msg 2]
  /\ unread entry = [Got (msg 3)].
Proof.
  intros queue r entry.
  assert (I : In (WGet ShutdownMessage) (wtrace r)).
  { vm_compute. do 5 right. now left. }
  destruct (sentinel_ends_dispatch_loop
              picky_engine steady_handler 0 queue [] []
              (mkMessage 999 None None None None [])
              (mkMessage 1 None None None None [])
              (mkMessage 2 None None None None [])
              (mkMessage 3 None None None None []))
    as (_ & _ & L & _ & _ & E).
  destruct (L ShutdownMessage I eq_refl) as [St B].
  destruct (E eq_refl eq_refl) as [X U].
  repeat split; assumption.
Defined.

(** C6.  When [execute_module] raises on a message that is not the
    sentinel, the loop logs the exception and goes on: the run is the get,
    the call and the log line, followed by exactly the run of the loop on
    the rest of the queue, from the engine as the failed call left it.  On
    the queue [A, B] with [A] failing, [execute_module] is still called
    on [B]. *)
Theorem failing_message_keeps_loop
        (Engine : Type)
        (execute_module : Engine -> QObject -> Engine * option exn)
        (eng eng' : Engine) (a b : AbstractMessage) (e : exn)
        (rest : list Poll) :
  execute_module eng (QMessage a) = (eng', Some e) ->
  let r := dispatch_loop execute_module eng (Got (QMessage a) :: rest) in
  let r' := dispatch_loop execute_module eng' rest in
  let ab := dispatch_loop execute_module eng
                          [Got (QMessage a); Got (QMessage b)] in
  status r = status r'
  /\ engine r = engine r'
  /\ unread r = unread r'
  /\ wtrace r = WGet (QMessage a) :: WExec (QMessage a) (Some e)
                  :: WLogException e :: wtrace r'
  /\ executed (wtrace ab) = [QMessage a; QMessage b]
  /\ status ab = Polling
  /\ exists x, In (WExec (QMessage b) x) (wtrace ab).
Proof.
  intros X. cbv zeta.
  rewrite (@loop_after_failure Engine execute_module eng eng' a e rest X).
  rewrite (@loop_after_failure Engine execute_module eng eng' a e
                               [Got (QMessage b)] X).
  cbn [status engine unread wtrace].
  split; [reflexivity|]. split; [reflexivity|]. split; [reflexivity|].
  split; [reflexivity|].
  destruct (execute_module eng' (QMessage b)) as [e2 [x|]] eqn:Xb.
  - rewrite (@loop_after_failure Engine execute_module eng' e2 b x [] Xb).
    simpl. repeat split. exists (Some x). do 4 right. now left.
  - rewrite (@loop_after_success Engine execute_module eng' e2 b [] Xb).
    simpl. repeat split. exists None. do 4 right. now left.
Qed.

(** The engine that rejects messages of mode 13, given such a message and
    then another. *)
Lemma failing_message_keeps_loop_witness :
  let bad := mkMessage 13 None None None None [] in
  let good := mkMessage 1 None None None None [] in
  let ab := dispatch_loop picky_engine 0 [Got (QMessage bad); Got (QMessage good)] in
  picky_engine 0 (QMessage bad) = (1, Some "bad message"%string)
  /\ executed (wtrace ab) = [QMessage bad; QMessage good]
  /\ exists x, In (WExec (QMessage good) x) (wtrace ab).
Proof.
  intros bad good ab.
  assert (X : picky_engine 0 (QMessage bad) = (1, Some "bad message"%string))
    by reflexivity.
  destruct (@failing_message_keeps_loop nat picky_engine 0 1 bad good
              "bad message"%string [] X)
    as (_ & _ & _ & _ & E & _ & I).
  repeat split; assumption.
Defined.

(** * Further properties of the code *)

(** ** Removing listeners *)

Section RemoveListener.
Context {Ext : Type}.

Lemma listener_eqb_sym (a b : StartableListener) :
  listener_eqb a b = listener_eqb b a.
Proof. unfold listener_eqb. apply Nat.eqb_sym. Qed.

Lemma listener_eqb_trans_false (x l l' : StartableListener) :
  listener_eqb x l = true -> listener_eqb l' l = false ->
  listener_eqb x l' = false.
Proof.
  unfold listener_eqb. intros A B.
  apply Nat.eqb_eq in A. apply Nat.eqb_neq in B. apply Nat.eqb_neq. congruence.
Qed.

Lemma pop_first_absent (l : StartableListener) (ls : list StartableListener) :
  existsb (fun x => listener_eqb x l) ls = false -> registrations l ls = 0.
Proof.
  unfold registrations. induction ls as [|x r IH]; simpl; [reflexivity|].
  intros E. apply orb_false_iff in E. destruct E as [A B].
  rewrite A. now apply IH.
Qed.

Lemma pop_first_count (l : StartableListener) (ls : list StartableListener) :
  registrations l (pop_first l ls) = registrations l ls - 1.
Proof.
  unfold registrations. induction ls as [|x r IH]; simpl; [reflexivity|].
  destruct (listener_eqb x l) eqn:E; simpl.
  - lia.
  - rewrite E. exact IH.
Qed.

Lemma pop_first_others (l l' : StartableListener) (ls : list StartableListener) :
  listener_eqb l' l = false ->
  registrations l' (pop_first l ls) = registrations l' ls.
Proof.
  intros D. unfold registrations. induction ls as [|x r IH]; simpl; [reflexivity|].
  destruct (listener_eqb x l) eqn:E; simpl.
  - now rewrite (listener_eqb_trans_false x l l' E D).
  - destruct (listener_eqb x l'); simpl; now rewrite IH.
Qed.

Lemma pop_first_appended (l : StartableListener) (ls : list StartableListener) :
  existsb (fun x => listener_eqb x l) ls = false ->
  pop_first l (ls ++ [l]) = ls.
Proof.
  induction ls as [|x r IH]; simpl.
  - intros _. unfold listener_eqb. now rewrite Nat.eqb_refl.
  - intros E. apply orb_false_iff in E. destruct E as [A B].
    rewrite A. now rewrite IH.
Qed.

Lemma registrations_app (l : StartableListener) (a b : list StartableListener) :
  registrations l (a ++ b) = registrations l a + registrations l b.
Proof. unfold registrations. now rewrite filter_app, length_app. Qed.

Lemma registered_count (l : StartableListener) (ls : list StartableListener) :
  existsb (fun x => listener_eqb x l) ls = true -> 0 < registrations l ls.
Proof.
  unfold registrations. induction ls as [|x r IH]; simpl; [discriminate|].
  destruct (listener_eqb x l); simpl; [lia | exact IH].
Qed.

(** [remove_listener] takes away exactly one registration of the listener
    (none when it is not registered) and leaves the registrations of every
    other listener as they were. *)
Theorem remove_listener_takes_one
        (s : Startable Ext) (l l' : StartableListener) :
  registrations l (_listeners (remove_listener s (VListener l)))
  = registrations l (_listeners s) - 1
  /\ (listener_eqb l' l = false ->
      registrations l' (_listeners (remove_listener s (VListener l)))
      = registrations l' (_listeners s)).
Proof.
  unfold remove_listener. simpl.
  destruct (existsb (fun x => listener_eqb x l) (_listeners s)) eqn:E; simpl.
  - split; [apply pop_first_count | apply pop_first_others].
  - split; [|reflexivity]. rewrite (pop_first_absent _ _ E). reflexivity.
Qed.

(** [remove_listener] undoes [add_listener]: every listener is registered
    as often as before, and when the listener was not registered before,
    the object is exactly as it was. *)
Theorem add_then_remove_listener
        (s : Startable Ext) (l l' : StartableListener) :
  let s' := remove_listener (add_listener s (VListener l)) (VListener l) in
  registrations l' (_listeners s') = registrations l' (_listeners s)
  /\ (registrations l (_listeners s) = 0 -> s' = s).
Proof.
  cbv zeta. split.
  - destruct (listener_eqb l' l) eqn:D.
    + assert (E : forall ls, registrations l' ls = registrations l ls).
      { intros ls. unfold registrations. f_equal. apply filter_ext.
        intros x. unfold listener_eqb in *. apply Nat.eqb_eq in D.
        now rewrite D. }
      rewrite !E.
      destruct (remove_listener_takes_one (add_listener s (VListener l)) l l)
        as [R _].
      rewrite R. simpl. rewrite registrations_app.
      unfold registrations at 2. simpl. unfold listener_eqb at 1.
      rewrite Nat.eqb_refl. simpl. lia.
    + destruct (remove_listener_takes_one (add_listener s (VListener l)) l l')
        as [_ R].
      rewrite (R D). simpl. rewrite registrations_app.
      unfold registrations at 2. simpl.
      rewrite (listener_eqb_sym l l'), D. simpl. lia.
  - intros Z. unfold remove_listener, add_listener. simpl.
    assert (A : existsb (fun x => listener_eqb x l) (_listeners s) = false).
    { destruct (existsb (fun x => listener_eqb x l) (_listeners s)) eqn:E;
        [|reflexivity].
      apply registered_count in E. lia. }
    rewrite existsb_app. simpl. unfold listener_eqb at 2. rewrite Nat.eqb_refl.
    rewrite orb_true_r. rewrite (pop_first_appended _ _ A).
    now destruct s.
Qed.

End RemoveListener.

(** Listener 1 registered twice and listener 2 once: one removal. *)
Lemma remove_listener_takes_one_witness :
  let l := plain_listener 1 in
  let l' := plain_listener 2 in
  let s := set_listeners (init None tt) [l; l'; l] in
  registrations l (_listeners s) = 2
  /\ registrations l (_listeners (remove_listener s (VListener l))) = 1
  /\ registrations l' (_listeners (remove_listener s (VListener l)))
     = registrations l' (_listeners s).
Proof.
  intros l l' s.
  destruct (remove_listener_takes_one s l l') as [A B].
  split; [reflexivity|]. split; [exact A | exact (B eq_refl)].
Defined.

(** A listener added to an object that does not hold it, and removed. *)
Lemma add_then_remove_listener_witness :
  let l := plain_listener 3 in
  let s := set_listeners (init None tt) [plain_listener 1; plain_listener 2] in
  registrations l (_listeners s) = 0
  /\ remove_listener (add_listener s (VListener l)) (VListener l) = s.
Proof.
  intros l s.
  split; [reflexivity|].
  exact (proj2 (add_then_remove_listener s l l) eq_refl).
Defined.

(** ** Fields the operations keep, hooks they report *)

Section OpsFurther.
Context {Ext H : Type}.
Variable hooks : Hooks Ext H.

Local Abbreviation action := (Startable Ext -> Res Ext H).

(** The body of [stop] past its guard. *)
Lemma stop_body (s : Startable Ext) :
  let s1 := set_state s STOPPING in
  let f1 := fire (H:=H) on_stopping STOPPING (_listeners s) in
  let h := do_stop hooks s1 in
  let s2 := set_ext s1 (h_ext h) in
  let f2 := fire (H:=H) on_stopped STOPPED (_listeners s) in
  seq _set_stopping
      (seq (call_hook hooks HStop) (seq _set_stopped (log_info "Stopped"))) s =
  match snd f1 with
  | Some e => mkRes s1 (EState STOPPING :: fst f1) (Some e)
  | None =>
      match h_raised h with
      | Some e =>
          mkRes s2 (EState STOPPING :: fst f1
                      ++ [EHook HStop (h_inner h) (Some e)]) (Some e)
      | None =>
          match snd f2 with
          | Some e =>
              mkRes (set_state s2 STOPPED)
                    (EState STOPPING :: fst f1
                       ++ EHook HStop (h_inner h) None
                       :: EState STOPPED :: fst f2)
                    (Some e)
          | None =>
              mkRes (set_state s2 STOPPED)
                    (EState STOPPING :: fst f1
                       ++ EHook HStop (h_inner h) None
                       :: EState STOPPED :: fst f2 ++ [ELogInfo "Stopped"])
                    None
          end
      end
  end.
Proof.
  cbv zeta. unfold seq. unfold _set_stopping. rewrite assign_notify.
  cbn [obj trace raised].
  destruct (snd (fire on_stopping STOPPING _)) as [e|]; [reflexivity|].
  rewrite call_hook_res. cbn [obj trace raised hook_of].
  destruct (h_raised (do_stop hooks _)) as [e|]; [reflexivity|].
  unfold _set_stopped. rewrite assign_notify.
  cbn [obj trace raised].
  destruct (snd (fire on_stopped STOPPED _)) as [e|].
  - rewrite <- ?app_assoc. reflexivity.
  - unfold log_info. cbn [obj trace raised].
    rewrite <- ?app_assoc. reflexivity.
Qed.

(** A [stop] that went past its guard and returned has stopped. *)
Lemma stop_returns (s : Startable Ext) :
  stop_guard s = false ->
  raised (stop hooks s) = None ->
  _state (obj (stop hooks s)) = STOPPED.
Proof.
  intros G R. unfold stop in *.
  set (body := fun s0 : Startable Ext =>
                 if stop_guard s0 then skip s0
                 else seq _set_stopping
                          (seq (call_hook hooks HStop)
                               (seq _set_stopped (log_info "Stopped"))) s0) in *.
  assert (B : body s = seq _set_stopping
                           (seq (call_hook hooks HStop)
                                (seq _set_stopped (log_info "Stopped"))) s)
    by (unfold body; now rewrite G).
  destruct (raised (body s)) as [e|] eqn:RB.
  - rewrite (try_on_exception body s RB) in R. now apply failed_with_raised in R.
  - rewrite (try_returns body _ s RB). rewrite B in *.
    rewrite stop_body in *. cbv zeta in *.
    destruct (snd (fire on_stopping STOPPING _)); [discriminate|].
    destruct (h_raised (do_stop hooks _)); [discriminate|].
    destruct (snd (fire on_stopped STOPPED _)); [discriminate|].
    reflexivity.
Qed.

(** *** [preserves] *)

Section Preserves.
Context {A : Type}.
Variable f : Startable Ext -> A.
Hypothesis f_state : forall s x, f (set_state s x) = f s.
Hypothesis f_ext : forall s x, f (set_ext s x) = f s.

Lemma preserves_skip : preserves (H:=H) f skip.
Proof. intros s. reflexivity. Qed.

Lemma preserves_raise (e : exn) : preserves (H:=H) f (raise e).
Proof. intros s. reflexivity. Qed.

Lemma preserves_log (m : string) : preserves (H:=H) f (log_info m).
Proof. intros s. reflexivity. Qed.

Lemma preserves_hook (k : HookKind) : preserves f (call_hook hooks k).
Proof. intros s. apply f_ext. Qed.

Lemma preserves_seq (a b : action) :
  preserves f a -> preserves f b -> preserves f (seq a b).
Proof.
  intros Pa Pb s. unfold seq. destruct (raised (a s)); [apply Pa|].
  simpl. now rewrite Pb, Pa.
Qed.

Lemma preserves_try (a : action) (h : exn -> action) :
  preserves f a -> (forall e, preserves f (h e)) -> preserves f (try_except a h).
Proof.
  intros Pa Ph s. unfold try_except. destruct (raised (a s)); [|apply Pa].
  simpl. now rewrite Ph, Pa.
Qed.

Lemma preserves_if (g : Startable Ext -> bool) (a b : action) :
  preserves f a -> preserves f b ->
  preserves f (fun s => if g s then a s else b s).
Proof. intros Pa Pb s. destruct (g s); [apply Pa | apply Pb]. Qed.

Lemma preserves_assign_notify (x : State) (ev : Event) :
  preserves (H:=H) f (seq (assign_state x) (notify ev)).
Proof. intros s. rewrite assign_notify. apply f_state. Qed.

Lemma preserves_on_exception (e : exn) : preserves (H:=H) f (on_exception e).
Proof.
  apply preserves_seq; [apply preserves_assign_notify | apply preserves_raise].
Qed.

Lemma preserves_start_locked : preserves f (start_locked hooks).
Proof.
  apply preserves_try; [|apply preserves_on_exception].
  apply preserves_if; [apply preserves_skip|].
  apply preserves_seq; [apply preserves_log|].
  apply preserves_seq; [apply preserves_assign_notify|].
  apply preserves_seq; [apply preserves_hook | apply preserves_assign_notify].
Qed.

Lemma preserves_stop : preserves f (stop hooks).
Proof.
  apply preserves_try; [|apply preserves_on_exception].
  apply preserves_if; [apply preserves_skip|].
  apply preserves_seq; [apply preserves_assign_notify|].
  apply preserves_seq; [apply preserves_hook|].
  apply preserves_seq; [apply preserves_assign_notify | apply preserves_log].
Qed.

End Preserves.

(** [start] past the marker test, and [stop], never touch the marker. *)
Lemma start_locked_keeps_marker (s : Startable Ext) :
  _configured (obj (start_locked hooks s)) = _configured s.
Proof.
  exact (preserves_start_locked (fun s0 => _configured s0)
                                (fun _ _ => eq_refl) (fun _ _ => eq_refl) s).
Qed.

Lemma stop_keeps_marker (s : Startable Ext) :
  _configured (obj (stop hooks s)) = _configured s.
Proof.
  exact (preserves_stop (fun s0 => _configured s0)
                        (fun _ _ => eq_refl) (fun _ _ => eq_refl) s).
Qed.

Lemma stop_not_a_configure : emits (not_a_configure (H:=H)) (stop hooks).
Proof. unfold stop, _set_stopping, _set_stopped. emits_steps. Qed.

(** *** [honest] *)

Lemma returned_nil : hooks_returned (H:=H) [].
Proof. intros k h e []. Qed.

Lemma returned_app (t1 t2 : list (Ev H)) :
  hooks_returned t1 -> hooks_returned t2 -> hooks_returned (t1 ++ t2).
Proof.
  intros A B k h e I. apply in_app_iff in I.
  destruct I as [I | I]; [exact (A k h e I) | exact (B k h e I)].
Qed.

Lemma honest_skip : honest (Ext:=Ext) (H:=H) skip.
Proof. intros s _. apply returned_nil. Qed.

Lemma honest_log (m : string) : honest (Ext:=Ext) (H:=H) (log_info m).
Proof. intros s _ k h e [I | []]. discriminate. Qed.

Lemma honest_hook (k : HookKind) : honest (call_hook hooks k).
Proof.
  intros s R k' h e [I | []]. rewrite call_hook_res in R. simpl in R.
  injection I as _ _ E. congruence.
Qed.

Lemma honest_seq (a b : action) : honest a -> honest b -> honest (seq a b).
Proof.
  intros Ha Hb s. unfold seq. destruct (raised (a s)) eqn:Ra; [congruence|].
  simpl. intros Rb. apply returned_app; [now apply Ha | now apply Hb].
Qed.

Lemma honest_if (g : Startable Ext -> bool) (a b : action) :
  honest a -> honest b -> honest (fun s => if g s then a s else b s).
Proof. intros Ha Hb s. destruct (g s); [apply Ha | apply Hb]. Qed.

Lemma honest_try (a : action) : honest a -> honest (try_except a on_exception).
Proof.
  intros Ha s R. destruct (raised (a s)) as [e|] eqn:Ra.
  - rewrite (try_on_exception a s Ra) in R. now apply failed_with_raised in R.
  - rewrite (try_returns a _ s Ra) in *. now apply Ha.
Qed.

Lemma honest_assign_notify (x : State) (ev : Event) :
  honest (Ext:=Ext) (H:=H) (seq (assign_state x) (notify ev)).
Proof.
  intros s _ k h e I. rewrite assign_notify in I. simpl in I.
  destruct I as [I | I]; [discriminate|]. now apply hook_not_fired in I.
Qed.

Lemma honest_assign_mark_notify (x : State) (f : Config -> Event) :
  honest (Ext:=Ext) (H:=H)
         (seq (assign_state x)
              (seq copy_marker (fun s' => notify (f (_configuration s')) s'))).
Proof.
  intros s _ k h e I. rewrite assign_mark_notify in I. simpl in I.
  destruct I as [I | I]; [discriminate|]. now apply hook_not_fired in I.
Qed.

Lemma honest_configure : honest (configure hooks).
Proof.
  apply honest_try. apply honest_if; [apply honest_skip|].
  apply honest_seq; [apply honest_assign_mark_notify|].
  apply honest_seq; [apply honest_hook | apply honest_assign_mark_notify].
Qed.

Lemma honest_start_locked : honest (start_locked hooks).
Proof.
  apply honest_try. apply honest_if; [apply honest_skip|].
  apply honest_seq; [apply honest_log|].
  apply honest_seq; [apply honest_assign_notify|].
  apply honest_seq; [apply honest_hook | apply honest_assign_notify].
Qed.

Lemma honest_stop : honest (stop hooks).
Proof.
  apply honest_try. apply honest_if; [apply honest_skip|].
  apply honest_seq; [apply honest_assign_notify|].
  apply honest_seq; [apply honest_hook|].
  apply honest_seq; [apply honest_assign_notify | apply honest_log].
Qed.

Lemma honest_start : honest (start hooks).
Proof.
  apply honest_seq; [|apply honest_start_locked].
  apply honest_if; [apply honest_configure | apply honest_skip].
Qed.

Lemma honest_run_op (o : Op) : honest (run_op hooks o).
Proof. destruct o; [apply honest_configure | apply honest_start | apply honest_stop]. Qed.

End OpsFurther.

(** ** Exceptions and the FAILED state *)

Section Loud.
Context {Ext H : Type}.
Variable hooks : Hooks Ext H.

Local Abbreviation action := (Startable Ext -> Res Ext H).

Lemma not_failed_absent (t : list (Ev H)) :
  Forall not_failed t -> ~ In (EState FAILED) t.
Proof.
  intros F I. rewrite Forall_forall in F. exact (F _ I).
Qed.

Lemma loud_try (body : action) :
  emits not_failed body -> loud (try_except body on_exception).
Proof.
  intros E s. destruct (raised (body s)) as [e|] eqn:R.
  - rewrite (try_on_exception body s R). split.
    + intros _. split; [reflexivity|]. simpl.
      apply in_app_iff. right. now left.
    + intros N. now apply failed_with_raised in N.
  - rewrite (try_returns body _ s R). split.
    + intros N. contradiction.
    + intros _. apply not_failed_absent. apply E.
Qed.

Lemma loud_skip : loud (Ext:=Ext) (H:=H) skip.
Proof. intros s. split; [intros N; now elim N | intros _ []]. Qed.

Lemma loud_seq (a b : action) : loud a -> loud b -> loud (seq a b).
Proof.
  intros La Lb s. unfold seq. destruct (raised (a s)) eqn:Ra; [apply La|].
  destruct (La s) as [_ A]. destruct (Lb (obj (a s))) as [B1 B2].
  simpl. split.
  - intros N. destruct (B1 N) as [St I]. split; [exact St|].
    apply in_app_iff. now right.
  - intros R I. apply in_app_iff in I. destruct I as [I | I].
    + exact (A Ra I).
    + exact (B2 R I).
Qed.

Lemma loud_configure : loud (configure hooks).
Proof.
  apply loud_try. unfold _set_configuring, _set_configured. emits_steps.
Qed.

Lemma loud_start_locked : loud (start_locked hooks).
Proof.
  apply loud_try. unfold _set_starting, _set_started. emits_steps.
Qed.

Lemma loud_stop : loud (stop hooks).
Proof.
  apply loud_try. unfold _set_stopping, _set_stopped. emits_steps.
Qed.

Lemma loud_start : loud (start hooks).
Proof.
  apply loud_seq; [|apply loud_start_locked].
  intros s. destruct (state_eqb (_configured s) UNCONFIGURED).
  - apply loud_configure.
  - apply loud_skip.
Qed.

End Loud.

(** An exception leaves [configure()], [start()] or [stop()] only after the
    state was set to FAILED, whoever raised it (a hook or a listener
    callback), and the object is then FAILED; an operation that returns has
    never assigned FAILED, and every hook it called returned: no exception of
    a hook is swallowed. *)
Theorem operation_raises_iff_failed
        {Ext H : Type} (hooks : Hooks Ext H) (o : Op) (s : Startable Ext) :
  let r := run_op hooks o s in
  (raised r <> None ->
   _state (obj r) = FAILED /\ In (EState FAILED) (trace r))
  /\ (raised r = None ->
      ~ In (EState FAILED) (trace r) /\ hooks_returned (trace r)).
Proof.
  cbv zeta.
  assert (L : loud (run_op hooks o))
    by (destruct o; [apply loud_configure | apply loud_start | apply loud_stop]).
  destruct (L s) as [A B]. split; [exact A|].
  intros R. split; [exact (B R) | exact (honest_run_op hooks o s R)].
Qed.

(** A listener whose [starting] callback raises: [start()] raises and the
    object is FAILED; without listeners it returns and FAILED is never
    assigned. *)
Lemma operation_raises_iff_failed_witness :
  let bad := run_op base_hooks OpStart
                    (set_listeners (init None tt) [grumpy_listener 1]) in
  let fine := run_op base_hooks OpStart (init None tt) in
  (_state (obj bad) = FAILED /\ In (EState FAILED) (trace bad))
  /\ (~ In (EState FAILED) (trace fine) /\ hooks_returned (trace fine)).
Proof.
  intros bad fine. split.
  - apply (proj1 (operation_raises_iff_failed
                    base_hooks OpStart
                    (set_listeners (init None tt) [grumpy_listener 1]))).
    vm_compute. discriminate.
  - apply (proj2 (operation_raises_iff_failed base_hooks OpStart (init None tt))).
    vm_compute. reflexivity.
Defined.

(** ** Configuring once, stopping once *)

Section Once.
Context {Ext H : Type}.
Variable hooks : Hooks Ext H.

Lemma configured_guard (s : Startable Ext) :
  _configured s = CONFIGURED -> configure_guard s = true.
Proof. intros M. unfold configure_guard. now rewrite M. Qed.

Lemma configured_op (o : Op) (s : Startable Ext) :
  _configured s = CONFIGURED ->
  _configured (obj (run_op hooks o s)) = CONFIGURED
  /\ Forall not_a_configure (trace (run_op hooks o s)).
Proof.
  intros M. destruct o; simpl.
  - rewrite (configure_skips hooks s (configured_guard s M)).
    split; [exact M | constructor].
  - assert (N : _configured s <> UNCONFIGURED) by (rewrite M; discriminate).
    rewrite (start_marked hooks s N). split.
    + now rewrite start_locked_keeps_marker.
    + apply start_locked_not_a_configure.
  - split.
    + now rewrite stop_keeps_marker.
    + apply stop_not_a_configure.
Qed.

End Once.

(** Once [configure()] has succeeded (the marker is CONFIGURED), no later
    call of [configure()], [start()] or [stop()] calls [do_configure] again
    or moves the marker: the object is configured once and for all, and
    [configure()] is a no-op from then on. *)
Theorem configured_once
        {Ext H : Type} (hooks : Hooks Ext H) (s : Startable Ext) (ops : list Op) :
  _configured s = CONFIGURED ->
  let s' := fst (fst (run_ops hooks ops s)) in
  _configured s' = CONFIGURED
  /\ Forall not_a_configure (snd (fst (run_ops hooks ops s)))
  /\ configure hooks s' = mkRes s' [] None.
Proof.
  revert s. induction ops as [|o rest IH]; intros s M; cbv zeta.
  - split; [exact M|]. split; [constructor|].
    apply configure_skips. now apply configured_guard.
  - destruct (configured_op hooks o s M) as [M' F].
    specialize (IH _ M'). cbv zeta in IH. simpl.
    destruct (run_ops hooks rest (obj (run_op hooks o s))) as [[s' t] outs].
    simpl in *. destruct IH as (A & B & C).
    split; [exact A|]. split; [|exact C].
    apply Forall_app. now split.
Qed.

(** A configured object of the base class, then stop, configure, start. *)
Lemma configured_once_witness :
  let s := obj (configure base_hooks (init None tt)) in
  let s' := fst (fst (run_ops base_hooks [OpStop; OpConfigure; OpStart] s)) in
  _configured s = CONFIGURED
  /\ _configured s' = CONFIGURED
  /\ configure base_hooks s' = mkRes s' [] None.
Proof.
  intros s s'.
  assert (M : _configured s = CONFIGURED) by reflexivity.
  destruct (configured_once base_hooks s [OpStop; OpConfigure; OpStart] M)
    as (A & _ & C).
  split; [exact M|]. split; [exact A | exact C].
Defined.

(** A [configure()] that returns is not repeated by a second [configure()],
    and a [stop()] that returns is not repeated by a second [stop()]: the
    second call changes nothing and notifies nobody. *)
Theorem returned_operation_is_not_repeated
        {Ext H : Type} (hooks : Hooks Ext H) (s : Startable Ext) :
  (raised (configure hooks s) = None ->
   configure hooks (obj (configure hooks s))
   = mkRes (obj (configure hooks s)) [] None)
  /\ (raised (stop hooks s) = None ->
      stop hooks (obj (stop hooks s)) = mkRes (obj (stop hooks s)) [] None).
Proof.
  split; intros R.
  - apply configure_skips. destruct (configure_guard s) eqn:G.
    + now rewrite (configure_skips hooks s G).
    + destruct (configure_returns hooks s G R) as [_ M].
      now apply configured_guard.
  - apply stop_skips. destruct (stop_guard s) eqn:G.
    + now rewrite (stop_skips hooks s G).
    + unfold stop_guard. now rewrite (stop_returns hooks s G R).
Qed.

(** A fresh object configured twice; a started one stopped twice. *)
Lemma returned_operation_is_not_repeated_witness :
  let s := set_listeners (init None tt) (map plain_listener [1]) in
  let c := obj (configure base_hooks s) in
  let u := obj (start base_hooks s) in
  let d := obj (stop base_hooks u) in
  configure base_hooks c = mkRes c [] None
  /\ stop base_hooks d = mkRes d [] None.
Proof.
  intros s c u d. split.
  - apply (proj1 (returned_operation_is_not_repeated base_hooks s)).
    vm_compute. reflexivity.
  - apply (proj2 (returned_operation_is_not_repeated base_hooks u)).
    vm_compute. reflexivity.
Defined.

(** ** Stopping an object that was never started *)

(** [stop()] on a freshly constructed object is a no-op that notifies
    nobody.  Once [configure()] has returned, though, the object is neither
    stopped nor running ([is_stopped()] and [is_running()] are both false),
    and [stop()] on it, never started as it is, goes the whole way: STOPPING,
    [on_stopping] on every listener, [do_stop]. *)
Theorem stop_before_and_after_configure
        {Ext H : Type} (hooks : Hooks Ext H) (config : Config) (x : Ext)
        (ls : list StartableListener) :
  let s := set_listeners (init config x) ls in
  let c := obj (configure hooks s) in
  stop hooks s = mkRes s [] None
  /\ (quiet ls ->
      raised (configure hooks s) = None ->
      is_stopped c = false
      /\ is_running c = false
      /\ exists h r rest,
          trace (stop hooks c) =
          EState STOPPING :: calls on_stopping ls ++ EHook HStop h r :: rest).
Proof.
  cbv zeta. split; [reflexivity|].
  intros Q R.
  set (s := set_listeners (init config x) ls) in *.
  destruct (configure_returns hooks s eq_refl R) as [St _].
  destruct (good_configure hooks s) as [(L & _) _].
  set (c := obj (configure hooks s)) in *.
  assert (Qc : quiet (_listeners c)) by (rewrite L; exact Q).
  assert (G : stop_guard c = false) by (unfold stop_guard; now rewrite St).
  split; [unfold is_stopped; now rewrite St|].
  split; [unfold is_running, is_started, is_starting; now rewrite St|].
  rewrite (stop_quiet hooks c Qc G). cbv zeta. rewrite L.
  change (_listeners s) with ls.
  destruct (h_raised (do_stop hooks (set_state c STOPPING))) as [e|];
    simpl; eauto.
Qed.

(** A fresh object of the base class with two listeners. *)
Lemma stop_before_and_after_configure_witness :
  let s := set_listeners (init None tt) (map plain_listener [1; 2]) in
  let c := obj (configure base_hooks s) in
  stop base_hooks s = mkRes s [] None
  /\ is_stopped c = false
  /\ is_running c = false
  /\ exists h r rest,
      trace (stop base_hooks c) =
      EState STOPPING :: calls on_stopping (map plain_listener [1; 2])
        ++ EHook HStop h r :: rest.
Proof.
  intros s c.
  destruct (stop_before_and_after_configure
              base_hooks None tt (map plain_listener [1; 2])) as [A B].
  split; [exact A|].
  apply B; [apply quiet_plain | vm_compute; reflexivity].
Defined.

(** ** Trying again after a failure *)

(** FAILED is not a final state.  On a FAILED object whose listener
    callbacks do not raise: [stop()] runs [do_stop] again, [start()] runs
    [do_start] again when the object is enabled and its marker has left
    UNCONFIGURED, and [configure()] runs [do_configure] again unless a
    configuration had succeeded; each ends STOPPED, STARTED or CONFIGURED
    when the hook returns this time. *)
Theorem failed_object_can_retry
        {Ext H : Type} (hooks : Hooks Ext H) (s : Startable Ext) :
  quiet (_listeners s) ->
  _state s = FAILED ->
  (exists h r rest,
      trace (stop hooks s) =
      EState STOPPING :: calls on_stopping (_listeners s)
        ++ EHook HStop h r :: rest
      /\ (r = None -> _state (obj (stop hooks s)) = STOPPED
                      /\ raised (stop hooks s) = None))
  /\ (_enabled s = true ->
      _configured s <> UNCONFIGURED ->
      exists h r rest,
        trace (start hooks s) =
        ELogInfo "Started" :: EState STARTING
          :: calls on_starting (_listeners s) ++ EHook HStart h r :: rest
        /\ (r = None -> _state (obj (start hooks s)) = STARTED
                        /\ raised (start hooks s) = None))
  /\ (_configured s <> CONFIGURED ->
      exists h r rest,
        trace (configure hooks s) =
        EState CONFIGURING
          :: calls (on_configuring (_configuration s)) (_listeners s)
          ++ EHook HConfigure h r :: rest
        /\ (r = None -> _state (obj (configure hooks s)) = CONFIGURED
                        /\ _configured (obj (configure hooks s)) = CONFIGURED
                        /\ raised (configure hooks s) = None)).
Proof.
  intros Q F. split; [|split].
  - assert (G : stop_guard s = false) by (unfold stop_guard; now rewrite F).
    rewrite (stop_quiet hooks s Q G). cbv zeta.
    destruct (h_raised (do_stop hooks (set_state s STOPPING))) as [e|];
      simpl; do 3 eexists; (split; [reflexivity|]);
      intros D; try discriminate; auto.
  - intros En M.
    assert (G : start_guard s = false)
      by (unfold start_guard; now rewrite En, F).
    rewrite (start_marked hooks s M).
    rewrite (start_locked_quiet hooks s Q G). cbv zeta.
    destruct (h_raised (do_start hooks (set_state s STARTING))) as [e|];
      simpl; do 3 eexists; (split; [reflexivity|]);
      intros D; try discriminate; auto.
  - intros M.
    assert (G : configure_guard s = false).
    { unfold configure_guard. rewrite F. simpl. rewrite orb_false_r.
      destruct (state_eqb (_configured s) CONFIGURED) eqn:E; [|reflexivity].
      apply state_eqb_eq in E. contradiction. }
    rewrite (configure_quiet hooks s Q G). cbv zeta.
    destruct (h_raised (do_configure hooks _)) as [e|];
      simpl; do 3 eexists; (split; [reflexivity|]);
      intros D; try discriminate; auto.
Qed.

(** A class whose [do_start] raises when a flag of the object is set: the
    start fails, the flag is cleared, and the next [start()] succeeds. *)
Lemma failed_object_can_retry_witness :
  let failed := obj (start moody_hooks (init None true)) in
  let s := set_ext failed false in
  _state s = FAILED
  /\ exists h r rest,
      trace (start moody_hooks s) =
      ELogInfo "Started" :: EState STARTING
        :: calls on_starting (_listeners s) ++ EHook HStart h r :: rest
      /\ (r = None -> _state (obj (start moody_hooks s)) = STARTED
                      /\ raised (start moody_hooks s) = None).
Proof.
  intros failed s.
  assert (F : _state s = FAILED) by (vm_compute; reflexivity).
  split; [exact F|].
  apply (proj1 (proj2 (failed_object_can_retry moody_hooks s quiet_nil F))).
  - vm_compute. reflexivity.
  - vm_compute. discriminate.
Defined.

(** ** A disabled object never starts *)

Section Disabled.
Context {Ext H : Type}.
Variable hooks : Hooks Ext H.

(** A [start] whose guard holds enters no start path. *)
Lemma guarded_start (s : Startable Ext) :
  coherent s -> start_guard s = true ->
  Forall not_a_start (trace (start hooks s)).
Proof.
  intros C G. destruct (state_eqb (_configured s) UNCONFIGURED) eqn:E.
  - apply state_eqb_eq in E. pose proof (C E) as St.
    assert (D : _enabled s = false).
    { unfold start_guard in G. rewrite St in G. simpl in G.
      rewrite orb_false_r in G. now destruct (_enabled s). }
    unfold start, seq. rewrite E, (proj2 (state_eqb_eq _ _) eq_refl).
    destruct (raised (configure hooks s)); [apply configure_not_a_start|].
    simpl. apply Forall_app. split; [apply configure_not_a_start|].
    destruct (good_configure hooks s) as [(_ & _ & Ec) _].
    rewrite start_locked_skips; [constructor|].
    unfold start_guard. now rewrite Ec, D.
  - assert (M : _configured s <> UNCONFIGURED)
      by (intros D; rewrite D in E; discriminate).
    rewrite (start_marked hooks s M), (start_locked_skips hooks s G).
    constructor.
Qed.

Lemma disabled_op (o : Op) (s : Startable Ext) :
  _enabled s = false -> coherent s ->
  Forall not_a_start (trace (run_op hooks o s)).
Proof.
  intros D C. destruct o; simpl.
  - apply configure_not_a_start.
  - apply guarded_start; [exact C|]. unfold start_guard. now rewrite D.
  - apply stop_not_a_start.
Qed.

End Disabled.

(** While [enabled] is false, no sequence of [configure()], [start()] and
    [stop()] calls ever starts the object: the state is never set to
    STARTING or STARTED, [do_start] is never called, and no listener gets
    [on_starting] or [on_started]; and the calls leave [enabled], the
    listeners and the configuration object as they were. *)
Theorem disabled_object_never_starts
        {Ext H : Type} (hooks : Hooks Ext H) (s : Startable Ext) (ops : list Op) :
  _enabled s = false ->
  coherent s ->
  let s' := fst (fst (run_ops hooks ops s)) in
  Forall not_a_start (snd (fst (run_ops hooks ops s)))
  /\ _enabled s' = false
  /\ _listeners s' = _listeners s
  /\ _configuration s' = _configuration s.
Proof.
  revert s. induction ops as [|o rest IH]; intros s D C; cbv zeta.
  - repeat split; [constructor | exact D].
  - pose proof (@disabled_op _ _ hooks o s D C) as F.
    destruct (good_run_op hooks o s) as [(L & Cf & En) _].
    assert (D' : _enabled (obj (run_op hooks o s)) = false) by congruence.
    specialize (IH _ D' (@coherent_run_op _ _ hooks o s C)). cbv zeta in IH.
    simpl.
    destruct (run_ops hooks rest (obj (run_op hooks o s))) as [[s' t] outs].
    simpl in *. destruct IH as (A & B & L' & Cf').
    split; [apply Forall_app; now split|]. split; [exact B|].
    split; congruence.
Qed.

(** A fresh object that a subclass disabled: start, stop, start, configure. *)
Lemma disabled_object_never_starts_witness :
  let s := set_enabled (set_listeners (init None tt) (map plain_listener [1]))
                       false in
  let ops := [OpStart; OpStop; OpStart; OpConfigure] in
  Forall not_a_start (snd (fst (run_ops base_hooks ops s)))
  /\ _enabled (fst (fst (run_ops base_hooks ops s))) = false.
Proof.
  intros s ops.
  destruct (@disabled_object_never_starts _ _ base_hooks s ops eq_refl
              (fun _ => eq_refl)) as (A & B & _).
  split; [exact A | exact B].
Defined.

(** ** The manager and the configuration of its children *)

(** The cascade of [configure()] hands the manager's configuration object
    to every child, whatever the child held before and whether or not its
    [configure()] then fails; the cascades of [start()] and [stop()] leave
    the configuration of each child as it was; and none of the three drops
    or adds a child. *)
Theorem manager_cascade_configuration
        {CExt CH : Type} (child_hooks : Hooks CExt CH)
        (s : Startable (ManagerExt CExt)) :
  let kids := _startable_objects (ext s) in
  let after k := _startable_objects
                   (h_ext (hook_of (manager_hooks child_hooks) k s)) in
  Forall (fun c => _configuration c = _configuration s) (after HConfigure)
  /\ map (fun c => _configuration c) (after HStart)
     = map (fun c => _configuration c) kids
  /\ map (fun c => _configuration c) (after HStop)
     = map (fun c => _configuration c) kids
  /\ (forall k, List.length (after k) = List.length kids).
Proof.
  cbv zeta. split; [|split; [|split]].
  - destruct (manager_hook_res child_hooks HConfigure s) as (_ & B & _).
    rewrite B. apply Forall_forall. intros c I.
    apply in_map_iff in I. destruct I as (c0 & <- & _). simpl.
    destruct (good_configure child_hooks
                (set_configuration c0 (_configuration s))) as [(_ & C & _) _].
    exact C.
  - destruct (manager_hook_res child_hooks HStart s) as (_ & B & _).
    rewrite B, map_map. apply map_ext. intros c. simpl.
    destruct (good_start child_hooks c) as [(_ & C & _) _]. exact C.
  - destruct (manager_hook_res child_hooks HStop s) as (_ & B & _).
    rewrite B, map_map. apply map_ext. intros c. simpl.
    destruct (good_stop child_hooks c) as [(_ & C & _) _]. exact C.
  - intros k. destruct (manager_hook_res child_hooks k s) as (_ & B & _).
    rewrite B. apply length_map.
Qed.

(** ** Adding and removing children *)

Section Collection.
Context {CExt CH : Type}.
Variable child_hooks : Hooks CExt CH.

Local Abbreviation child := (Startable CExt).
Local Abbreviation manager := (Startable (ManagerExt CExt)).

Lemma set_nth_length {A : Type} (i : nat) (x : A) (items : list A) :
  List.length (set_nth i x items) = List.length items.
Proof.
  revert i. induction items as [|y r IH]; intros [|j]; simpl; auto.
Qed.

Lemma set_nth_last {A : Type} (x y : A) (items : list A) :
  set_nth (List.length items) x (items ++ [y]) = items ++ [x].
Proof. induction items as [|z r IH]; simpl; [reflexivity | now rewrite IH]. Qed.

Lemma pop_nth_last {A : Type} (y : A) (items : list A) :
  pop_nth (List.length items) (items ++ [y]) = items.
Proof. induction items as [|z r IH]; simpl; [reflexivity | now rewrite IH]. Qed.

Lemma nth_error_last {A : Type} (y : A) (items : list A) :
  nth_error (items ++ [y]) (List.length items) = Some y.
Proof. induction items as [|z r IH]; simpl; [reflexivity | exact IH]. Qed.

Lemma start_if_running_length (s : manager) (i : nat) :
  List.length (get_objects (m_obj (start_if_running child_hooks s i)))
  = List.length (get_objects s).
Proof.
  unfold start_if_running. destruct (is_running s); [|reflexivity].
  destruct (nth_error (get_objects s) i); [|reflexivity].
  simpl. apply set_nth_length.
Qed.

Lemma set_objects_same (s : manager) : set_objects s (get_objects s) = s.
Proof. destruct s as [st mk en ls cfg [items]]. reflexivity. Qed.

End Collection.

(** [add_object] ignores what is no [Startable], and it never stores an
    object twice: the collection grows by one for an object that was not in
    it, and keeps its length for one that was. *)
Theorem add_object_stores_once
        {CExt CH : Type} (child_hooks : Hooks CExt CH)
        (s : Startable (ManagerExt CExt)) (o : ObjRef CExt) :
  let r := add_object child_hooks s o in
  match o with
  | RNone | ROther => r = mkMgrRes s [] None
  | RFresh _ =>
      List.length (get_objects (m_obj r)) = S (List.length (get_objects s))
  | RMember _ =>
      List.length (get_objects (m_obj r)) = List.length (get_objects s)
  end.
Proof.
  cbv zeta. destruct o as [| | c | i]; simpl; try reflexivity.
  - rewrite start_if_running_length. unfold get_objects, set_objects. simpl.
    rewrite length_app. simpl. lia.
  - apply start_if_running_length.
Qed.

(** On a manager that is not running, [add_object] appends the new child
    as it is and calls nothing on it.  On a running manager the child is
    appended, given the manager's configuration and started; when that
    [start()] raises, [add_object] raises a [RuntimeError] and the child
    stays in the collection all the same, in the state FAILED. *)
Theorem add_object_starts_child
        {CExt CH : Type} (child_hooks : Hooks CExt CH)
        (s : Startable (ManagerExt CExt)) (c : Startable CExt) :
  let r := add_object child_hooks s (RFresh c) in
  let run := start child_hooks (set_configuration c (get_configuration s)) in
  (is_running s = false ->
   r = mkMgrRes (set_objects s (get_objects s ++ [c])) [] None)
  /\ (is_running s = true ->
      get_objects (m_obj r) = get_objects s ++ [obj run]
      /\ _configuration (obj run) = get_configuration s
      /\ m_trace r = [MChild OpStart (trace run) (raised run)]
      /\ (raised run = None -> m_raised r = None)
      /\ (forall e, raised run = Some e ->
                    m_raised r = Some (RuntimeError e)
                    /\ _state (obj run) = FAILED)).
Proof.
  cbv zeta. unfold add_object, start_if_running.
  assert (R : is_running (set_objects s (get_objects s ++ [c])) = is_running s)
    by reflexivity.
  rewrite R. split; intros E; rewrite E; [reflexivity|].
  assert (N : nth_error (get_objects (set_objects s (get_objects s ++ [c])))
                        (List.length (get_objects s)) = Some c)
    by apply nth_error_last.
  rewrite N.
  change (get_configuration (set_objects s (get_objects s ++ [c])))
    with (get_configuration s).
  cbn [m_obj m_trace m_raised].
  split; [|split; [|split; [|split]]].
  - unfold get_objects at 1. unfold set_objects. simpl.
    apply set_nth_last.
  - destruct (good_start child_hooks
                (set_configuration c (get_configuration s))) as [(_ & C & _) _].
    exact C.
  - reflexivity.
  - intros Z. now rewrite Z.
  - intros e Z. rewrite Z. split; [reflexivity|].
    destruct (loud_start child_hooks
                (set_configuration c (get_configuration s))) as [L _].
    apply L. rewrite Z. discriminate.
Qed.

(** A started manager of the base kind, given a child whose [do_start]
    raises; and a manager that was never started, given the same child. *)
Lemma add_object_starts_child_witness :
  let idle := init None (mkManagerExt (CExt:=bool) []) in
  let busy := obj (start (manager_hooks moody_hooks) idle) in
  let c := init None true in
  add_object moody_hooks idle (RFresh c)
  = mkMgrRes (set_objects idle [c]) [] None
  /\ m_raised (add_object moody_hooks busy (RFresh c))
     = Some (RuntimeError "start failed"%string)
  /\ map (fun k => _state k)
         (get_objects (m_obj (add_object moody_hooks busy (RFresh c))))
     = [FAILED].
Proof.
  intros idle busy c.
  destruct (add_object_starts_child moody_hooks idle c) as [A _].
  destruct (add_object_starts_child moody_hooks busy c) as [_ B].
  split; [apply A; vm_compute; reflexivity|].
  assert (Rn : is_running busy = true) by (vm_compute; reflexivity).
  destruct (B Rn) as (K & _ & _ & _ & F).
  destruct (F "start failed"%string) as [R St]; [vm_compute; reflexivity|].
  split; [exact R|]. rewrite K. vm_compute. reflexivity.
Defined.

(** [remove_object] takes the child out of the collection without stopping
    it or touching any other child, and it ignores what is not in the
    collection; on a manager that is not running it undoes [add_object]. *)
Theorem remove_object_undoes_add
        {CExt CH : Type} (child_hooks : Hooks CExt CH)
        (s : Startable (ManagerExt CExt)) (c : Startable CExt) :
  remove_object s RNone = s
  /\ remove_object s ROther = s
  /\ remove_object s (RFresh c) = s
  /\ (is_running s = false ->
      remove_object (m_obj (add_object child_hooks s (RFresh c)))
                    (RMember (List.length (get_objects s)))
      = s).
Proof.
  repeat split. intros E.
  unfold add_object, start_if_running.
  assert (R : is_running (set_objects s (get_objects s ++ [c])) = is_running s)
    by reflexivity.
  rewrite R, E. clear R E.
  destruct s as [st mk en ls cfg [items]].
  unfold remove_object, get_objects, set_objects, set_ext.
  cbn [m_obj ext _startable_objects _state _configured _enabled _listeners
       _configuration].
  now rewrite pop_nth_last.
Qed.

(** A child added to an idle manager that holds two, and removed again. *)
Lemma remove_object_undoes_add_witness :
  let s := init None (mkManagerExt [init None false; init None true]) in
  let c := init None false in
  remove_object (m_obj (add_object moody_hooks s (RFresh c)))
                (RMember (List.length (get_objects s)))
  = s.
Proof.
  intros s c.
  apply (proj2 (proj2 (proj2 (remove_object_undoes_add moody_hooks s c)))).
  vm_compute. reflexivity.
Defined.

(** ** The worker loop as a function of the queue *)

Section LoopFunction.
Variable Engine : Type.
Variable execute_module : Engine -> QObject -> Engine * option exn.

Local Abbreviation loop := (dispatch_loop execute_module).

Lemma loop_timeout (eng : Engine) (rest : list Poll) :
  loop eng (Empty :: rest) =
  mkLoopRes (status (loop eng rest)) (engine (loop eng rest))
            (WSleep :: wtrace (loop eng rest)) (unread (loop eng rest)).
Proof. reflexivity. Qed.

(** An object that is false, or that is no message, is taken from the queue
    and dropped. *)
Lemma loop_drops (eng : Engine) (v : QObject) (rest : list Poll) :
  truthy v && isinstance_ShutdownMessage v = false ->
  is_work v = false ->
  loop eng (Got v :: rest) =
  mkLoopRes (status (loop eng rest)) (engine (loop eng rest))
            (WGet v :: wtrace (loop eng rest)) (unread (loop eng rest)).
Proof.
  destruct v as [m | m | b]; simpl; try discriminate.
  destruct b; reflexivity.
Qed.

(** The whole run, read off the queue. *)
Lemma loop_function (polls : list Poll) :
  forall eng,
    executed (wtrace (loop eng polls)) = handed_over polls
    /\ engine (loop eng polls)
       = engine_after execute_module eng (handed_over polls)
    /\ unread (loop eng polls) = left_unread polls
    /\ sleeps (wtrace (loop eng polls)) = timeouts_read polls.
Proof.
  induction polls as [|p rest IH]; intros eng; [repeat split|].
  destruct p as [v | | e].
  - destruct v as [m | m | b].
    + repeat split.
    + destruct (execute_module eng (QMessage m)) as [eng' [x|]] eqn:X.
      * rewrite (@loop_after_failure Engine execute_module eng eng' m x rest X).
        destruct (IH eng') as (A & B & C & D).
        cbn [wtrace engine unread]. repeat split.
        -- simpl. now rewrite A.
        -- simpl. rewrite X. exact B.
        -- exact C.
        -- exact D.
      * rewrite (@loop_after_success Engine execute_module eng eng' m rest X).
        destruct (IH eng') as (A & B & C & D).
        cbn [wtrace engine unread]. repeat split.
        -- simpl. now rewrite A.
        -- simpl. rewrite X. exact B.
        -- exact C.
        -- exact D.
    + destruct (IH eng) as (A & B & C & D).
      rewrite (loop_drops eng (QOther b) rest); [|now destruct b | now destruct b].
      cbn [wtrace engine unread]. destruct b; repeat split; assumption.
  - rewrite loop_timeout. destruct (IH eng) as (A & B & C & D).
    cbn [wtrace engine unread]. repeat split; try assumption.
    unfold sleeps in *. simpl. now rewrite D.
  - repeat split.
Qed.

(** The loop itself never touches the life cycle of the engine. *)
Lemma loop_no_handler (polls : list Poll) :
  forall eng, handler_stops (wtrace (loop eng polls)) = 0.
Proof.
  induction polls as [|p rest IH]; intros eng; [reflexivity|].
  destruct p as [v | | e].
  - destruct v as [m | m | b].
    + reflexivity.
    + destruct (execute_module eng (QMessage m)) as [eng' [x|]] eqn:X.
      * rewrite (@loop_after_failure Engine execute_module eng eng' m x rest X).
        exact (IH eng').
      * rewrite (@loop_after_success Engine execute_module eng eng' m rest X).
        exact (IH eng').
    + rewrite (loop_drops eng (QOther b) rest); [|now destruct b | now destruct b].
      exact (IH eng).
  - rewrite loop_timeout. exact (IH eng).
  - reflexivity.
Qed.

(** A queue that holds a sentinel is always left by [break]. *)
Lemma loop_exits (sd : AbstractMessage) (post : list Poll) (pre : list QObject) :
  forall eng,
    status (loop eng (map Got pre ++ Got (QShutdown sd) :: post)) = Exited.
Proof.
  induction pre as [|v rest IH]; intros eng; [reflexivity|].
  change (map Got (v :: rest) ++ Got (QShutdown sd) :: post)
    with (Got v :: (map Got rest ++ Got (QShutdown sd) :: post)).
  destruct v as [m | m | b].
  - reflexivity.
  - destruct (execute_module eng (QMessage m)) as [eng' [x|]] eqn:X.
    + rewrite (@loop_after_failure Engine execute_module eng eng' m x _ X).
      exact (IH eng').
    + rewrite (@loop_after_success Engine execute_module eng eng' m _ X).
      exact (IH eng').
  - rewrite (loop_drops eng (QOther b)); [|now destruct b | now destruct b].
    exact (IH eng).
Qed.

End LoopFunction.

(** What the queue decides.  Whatever the engine does, the loop hands it
    exactly the true [AbstractMessage] objects that precede the first
    sentinel (or the first exception of [get]), each once and in the order
    of the queue; the engine ends as these calls leave it, one after the
    other; objects that are false or no message are dropped without a call
    or a log line; the loop sleeps once per timeout; and what follows the
    sentinel stays unread. *)
Theorem worker_loop_is_fifo
        (Engine : Type)
        (execute_module : Engine -> QObject -> Engine * option exn)
        (eng : Engine) (polls : list Poll) :
  let r := dispatch_loop execute_module eng polls in
  executed (wtrace r) = handed_over polls
  /\ engine r = engine_after execute_module eng (handed_over polls)
  /\ unread r = left_unread polls
  /\ sleeps (wtrace r) = timeouts_read polls.
Proof. exact (loop_function execute_module polls eng). Qed.

(** ** The worker process around the loop *)

Section EntryFacts.
Variable Engine : Type.
Variable execute_module : Engine -> QObject -> Engine * option exn.
Variable handler_op : Op -> Engine -> Engine * option exn.

Lemma handler_stops_app (t u : list WEv) :
  handler_stops (t ++ u) = handler_stops t + handler_stops u.
Proof. unfold handler_stops. now rewrite filter_app, length_app. Qed.

End EntryFacts.

(** [subprocess_entry] and the [stop] of its engine.  When the engine's
    [configure] or [start] raises, the exception leaves the worker before
    the [try]: nothing is read from the queue and the engine is never
    stopped.  When both return, the messages are executed as the loop
    decides and the engine is not stopped as long as the loop is polling;
    once the loop is left, by the sentinel or by an exception of [get], the
    engine's [stop] is called exactly once, as the last event, on the
    engine as the executed messages left it, and an exception of [stop]
    takes the place of the one that ended the loop. *)
Theorem worker_stops_engine_once
        (Engine : Type)
        (execute_module : Engine -> QObject -> Engine * option exn)
        (handler_op : Op -> Engine -> Engine * option exn)
        (new_handler : Engine) (polls : list Poll) :
  let c := handler_op OpConfigure new_handler in
  let b := handler_op OpStart (fst c) in
  let l := dispatch_loop execute_module (fst b) polls in
  let e := handler_op OpStop
             (engine_after execute_module (fst b) (handed_over polls)) in
  let r := subprocess_entry execute_module handler_op new_handler polls in
  (snd c <> None \/ (snd c = None /\ snd b <> None) ->
   status r <> Polling /\ status r <> Exited
   /\ executed (wtrace r) = [] /\ unread r = polls
   /\ handler_stops (wtrace r) = 0)
  /\ (snd c = None -> snd b = None ->
      executed (wtrace r) = handed_over polls
      /\ unread r = left_unread polls
      /\ (status l = Polling ->
          status r = Polling /\ handler_stops (wtrace r) = 0)
      /\ (status l <> Polling ->
          handler_stops (wtrace r) = 1
          /\ (exists body, wtrace r = body ++ [WHandler OpStop (snd e)])
          /\ engine r = fst e
          /\ status r = match snd e with
                        | Some exc => Failed exc
                        | None => status l
                        end)).
Proof.
  cbv zeta. unfold subprocess_entry. split.
  - intros [C | [C B]].
    + destruct (snd (handler_op OpConfigure new_handler)) as [x|]; [|congruence].
      cbn. repeat split; discriminate.
    + rewrite C.
      destruct (snd (handler_op OpStart (fst (handler_op OpConfigure new_handler))))
        as [x|]; [|congruence].
      cbn. repeat split; discriminate.
  - intros C B. rewrite C, B.
    set (e0 := fst (handler_op OpStart (fst (handler_op OpConfigure new_handler)))).
    destruct (loop_function execute_module polls e0) as (X & G & U & _).
    pose proof (loop_no_handler execute_module polls e0) as N.
    destruct (status (dispatch_loop execute_module e0 polls)) eqn:St;
      cbn [status engine wtrace unread].
    + split; [exact X|]. split; [exact U|]. split.
      * intros _. split; [reflexivity|].
        rewrite (handler_stops_app [WHandler OpConfigure None; WHandler OpStart None]).
        now rewrite N.
      * intros Z. now contradiction Z.
    + rewrite <- G. split; [|split; [exact U|split]].
      * change (executed ([WHandler OpConfigure None; WHandler OpStart None]
                            ++ wtrace (dispatch_loop execute_module e0 polls)
                            ++ [WHandler OpStop
                                  (snd (handler_op OpStop
                                          (engine (dispatch_loop execute_module
                                                                 e0 polls))))])
                = handed_over polls).
        rewrite !executed_app, X. simpl. now rewrite app_nil_r.
      * intros Z. discriminate Z.
      * intros _. split; [|split; [|split]].
        -- rewrite (handler_stops_app
                      [WHandler OpConfigure None; WHandler OpStart None]).
           rewrite handler_stops_app, N. reflexivity.
        -- exists ([WHandler OpConfigure None; WHandler OpStart None]
                     ++ wtrace (dispatch_loop execute_module e0 polls)).
           now rewrite <- app_assoc.
        -- reflexivity.
        -- reflexivity.
    + rewrite <- G. split; [|split; [exact U|split]].
      * change (executed ([WHandler OpConfigure None; WHandler OpStart None]
                            ++ wtrace (dispatch_loop execute_module e0 polls)
                            ++ [WHandler OpStop
                                  (snd (handler_op OpStop
                                          (engine (dispatch_loop execute_module
                                                                 e0 polls))))])
                = handed_over polls).
        rewrite !executed_app, X. simpl. now rewrite app_nil_r.
      * intros Z. discriminate Z.
      * intros _. split; [|split; [|split]].
        -- rewrite (handler_stops_app
                      [WHandler OpConfigure None; WHandler OpStart None]).
           rewrite handler_stops_app, N. reflexivity.
        -- exists ([WHandler OpConfigure None; WHandler OpStart None]
                     ++ wtrace (dispatch_loop execute_module e0 polls)).
           now rewrite <- app_assoc.
        -- reflexivity.
        -- reflexivity.
Qed.

(** A worker whose queue holds a message, a timeout and then fails in
    [get]; and a worker whose engine cannot be started. *)
Lemma worker_stops_engine_once_witness :
  let polls := [Got (msg 1); Empty; GetFailed "broken pipe"%string; Got (msg 2)] in
  let r := subprocess_entry picky_engine steady_handler 0 polls in
  let no_start (o : Op) (n : nat) :=
    (n, match o with OpStart => Some "no pool"%string | _ => None end) in
  let r' := subprocess_entry picky_engine no_start 0 polls in
  (handler_stops (wtrace r) = 1
   /\ executed (wtrace r) = [msg 1]
   /\ unread r = [Got (msg 2)]
   /\ status r = Failed "broken pipe"%string)
  /\ (handler_stops (wtrace r') = 0 /\ unread r' = polls).
Proof.
  intros polls r no_start r'.
  destruct (worker_stops_engine_once picky_engine steady_handler 0 polls)
    as [_ A].
  destruct (worker_stops_engine_once picky_engine no_start 0 polls)
    as [B _].
  split.
  - destruct (A eq_refl eq_refl) as (X & U & _ & L).
    destruct L as (N & _ & _ & S); [vm_compute; discriminate|].
    split; [exact N|]. split; [exact X|]. split; [exact U | exact S].
  - destruct B as (_ & _ & _ & U & N);
      [right; split; [reflexivity | vm_compute; discriminate]|].
    split; [exact N | exact U].
Defined.

(** ** The queue of the executor *)

Section QueueFacts.

Lemma submit_all_some (ms : list QObject) :
  forall (x : ProcessThreadExecutor) (q : list QObject),
    _queue x = Some q -> _queue (submit_all x ms) = Some (q ++ ms).
Proof.
  induction ms as [|m r IH]; intros x q E; simpl.
  - now rewrite app_nil_r.
  - unfold submit_all in *. simpl.
    rewrite (IH (fst (submit_task x m)) (q ++ [m])).
    + now rewrite <- app_assoc.
    + unfold submit_task. now rewrite E.
Qed.

Lemma handed_over_sentinel (sd : AbstractMessage) (post : list Poll)
      (pre : list QObject) :
  handed_over (map Got pre ++ Got (QShutdown sd) :: post)
  = handed_over (map Got pre).
Proof.
  induction pre as [|v r IH]; [reflexivity|].
  simpl. destruct (truthy v && isinstance_ShutdownMessage v); [reflexivity|].
  destruct (is_work v); now rewrite IH.
Qed.

Lemma handed_over_clean (l : list QObject) :
  Forall (fun v => isinstance_ShutdownMessage v = false) l ->
  handed_over (map Got l) = filter is_work l.
Proof.
  induction 1 as [|v r N _ IH]; [reflexivity|].
  simpl. rewrite N, andb_false_r. destruct (is_work v); now rewrite IH.
Qed.

Lemma left_unread_clean (sd : AbstractMessage) (post : list Poll)
      (l : list QObject) :
  Forall (fun v => isinstance_ShutdownMessage v = false) l ->
  left_unread (map Got l ++ Got (QShutdown sd) :: post) = post.
Proof.
  induction 1 as [|v r N _ IH]; [reflexivity|].
  simpl. now rewrite N, andb_false_r.
Qed.

End QueueFacts.

Section StopExt.
Context {Ext H : Type}.
Variable hooks : Hooks Ext H.

(** The subclass fields after [stop()]: those the hook left, when the hook
    was reached. *)
Lemma stop_ext (s : Startable Ext) :
  ext (obj (stop hooks s)) =
  if stop_guard s then ext s
  else match snd (fire (H:=H) on_stopping STOPPING (_listeners s)) with
       | Some _ => ext s
       | None => h_ext (do_stop hooks (set_state s STOPPING))
       end.
Proof.
  unfold stop, try_except. destruct (stop_guard s); [reflexivity|].
  rewrite stop_body. cbv zeta.
  destruct (snd (fire on_stopping STOPPING (_listeners s))) as [e|];
    cbn [raised obj].
  - rewrite on_exception_res. reflexivity.
  - destruct (h_raised (do_stop hooks (set_state s STOPPING))) as [e|];
      cbn [raised obj].
    + rewrite on_exception_res. reflexivity.
    + destruct (snd (fire on_stopped STOPPED (_listeners s))) as [e|];
        cbn [raised obj]; [rewrite on_exception_res|]; reflexivity.
Qed.

Lemma stop_told_raises (s : Startable Ext) :
  stop_guard s = false ->
  snd (fire (H:=H) on_stopping STOPPING (_listeners s)) <> None ->
  raised (stop hooks s) <> None.
Proof.
  intros G T. unfold stop, try_except. rewrite G, stop_body. cbv zeta.
  destruct (snd (fire on_stopping STOPPING (_listeners s))) as [e|];
    [|congruence].
  cbn [raised obj]. rewrite on_exception_res. cbn [raised].
  destruct (snd (fire (on_failure e) FAILED _)); discriminate.
Qed.

End StopExt.





(** [configure()] of a new executor and the queue.  A new executor has no
    queue.  When the parent's [do_configure] returns, [configure()] returns
    and leaves an empty queue.  When it raises, [configure()] raises the
    same exception, the executor is FAILED and still has no queue: every
    [submit_task] raises, and so does a following [stop()], whose [do_stop]
    fails on the missing queue before the parent's [do_stop] is called. *)
Theorem configure_creates_queue
        {P PH : Type} (parent : Hooks P PH)
        (config : Config) (p : P) (workers : nat) :
  let s := new_process_executor config p workers in
  let h := do_configure parent
             (as_parent (set_marker (set_state s CONFIGURING) CONFIGURING)) in
  let c := configure (executor_hooks parent) s in
  let missing :=
    "AttributeError: 'NoneType' object has no attribute 'put'"%string in
  queue_of s = None
  /\ (h_raised h = None -> raised c = None /\ queue_of (obj c) = Some [])
  /\ (forall e, h_raised h = Some e ->
        raised c = Some e
        /\ _state (obj c) = FAILED
        /\ queue_of (obj c) = None
        /\ (forall m, snd (submit_task (snd (ext (obj c))) m) = Some missing)
        /\ let t := stop (executor_hooks parent) (obj c) in
           raised t = Some missing
           /\ _state (obj t) = FAILED
           /\ In (EHook HStop None (Some missing)) (trace t)).
Proof.
  cbv zeta. split; [reflexivity|].
  set (s := new_process_executor config p workers).
  assert (Q : quiet (_listeners s)) by (intros l ev st []).
  assert (G : configure_guard s = false) by reflexivity.
  rewrite (@configure_quiet _ _ (executor_hooks parent) s Q G). cbv zeta.
  cbn [do_configure executor_hooks]. unfold executor_do_configure.
  set (h := do_configure parent
              (as_parent (set_marker (set_state s CONFIGURING) CONFIGURING))).
  split.
  - intros R. rewrite R. cbn. split; reflexivity.
  - intros e R. rewrite R. cbn [h_raised h_ext h_inner raised obj].
    split; [reflexivity|]. split; [reflexivity|]. split; [reflexivity|].
    split; [reflexivity|].
    set (f := set_state _ FAILED).
    assert (Qf : quiet (_listeners f)) by (intros l ev st []).
    assert (Gf : stop_guard f = false) by reflexivity.
    rewrite (@stop_quiet _ _ (executor_hooks parent) f Qf Gf). cbv zeta.
    cbn [do_stop executor_hooks]. unfold executor_do_stop.
    cbn. split; [reflexivity|]. split; [reflexivity|].
    right. left. reflexivity.
Qed.

(** Parent classes whose [do_configure] raises. *)
Lemma configure_creates_queue_witness :
  let bad := new_process_executor None true 16 in
  let good := new_process_executor None false 16 in
  let c := configure (executor_hooks touchy_parent) bad in
  raised c = Some "no process"%string
  /\ queue_of (obj c) = None
  /\ raised (stop (executor_hooks touchy_parent) (obj c))
     = Some "AttributeError: 'NoneType' object has no attribute 'put'"%string
  /\ queue_of (obj (configure (executor_hooks touchy_parent) good)) = Some [].
Proof.
  intros bad good c.
  destruct (configure_creates_queue touchy_parent None true 16)
    as (_ & _ & B).
  destruct (configure_creates_queue touchy_parent None false 16)
    as (_ & A & _).
  destruct (B "no process"%string eq_refl) as (R & _ & Qn & _ & T & _).
  destruct (A eq_refl) as [_ Qs].
  split; [exact R|]. split; [exact Qn|]. split; [exact T | exact Qs].
Defined.

(** ** The loop of [LocalTransportHandler.listen] *)

Section ListenFacts.
Variable prepare : option exn.
Variable do_listen : option exn.

Lemma count_events_app (p : LEv -> bool) (t u : list LEv) :
  count_events p (t ++ u) = count_events p t + count_events p u.
Proof. unfold count_events. now rewrite filter_app, length_app. Qed.

Lemma count_events_cons (p : LEv -> bool) (e : LEv) (t : list LEv) :
  count_events p (e :: t) = (if p e then 1 else 0) + count_events p t.
Proof. unfold count_events. simpl. now destruct (p e). Qed.

Lemma count_events_nil (p : LEv -> bool) : count_events p [] = 0.
Proof. reflexivity. Qed.

Local Abbreviation facts := (listen_facts prepare do_listen).

Lemma listen_facts_nil : facts [].
Proof.
  unfold listen_facts, count_true, count_events. cbn.
  repeat (split || intro); try lia. discriminate.
Qed.

Lemma listen_facts_stop (rest : list bool) : facts (false :: rest).
Proof.
  unfold listen_facts, count_true, count_events. cbn.
  repeat (split || intro); try lia; try (now left).
Qed.

Lemma listen_facts_one : facts [true].
Proof.
  unfold listen_facts, listen, listen_try, count_true.
  destruct prepare as [e|]; [|destruct do_listen as [e|]];
    cbn [fst snd app filter List.length];
    rewrite ?count_events_cons; cbn;
    repeat (split || intro); try lia; try congruence; try discriminate.
Qed.

(** A turn whose [try] returns. *)
Lemma listen_facts_pass (rest : list bool) :
  snd (listen_try prepare do_listen) = None ->
  facts rest -> facts (true :: rest).
Proof.
  unfold listen_facts, listen_try, count_true. intros T.
  destruct prepare as [e|]; [discriminate|].
  destruct do_listen as [e|]; [discriminate|]. clear T.
  cbn [listen listen_try snd fst]. cbv zeta.
  intros (A & B & C & D & E).
  destruct (D eq_refl) as (D1 & D2 & D3).
  cbn [app filter List.length]. rewrite !count_events_cons. cbn.
  specialize (D2 eq_refl).
  repeat split; try lia; try congruence.
  intros R. right. now apply E.
Qed.

(** A turn whose [try] raises, with the reading that follows it. *)
Lemma listen_facts_fail (again : bool) (rest : list bool) (exc : exn) :
  snd (listen_try prepare do_listen) = Some exc ->
  facts rest -> facts (true :: again :: rest).
Proof.
  unfold listen_facts, count_true. intros T (A & B & C & D & E).
  cbn [listen]. rewrite T. cbv zeta. cbn [fst snd].
  unfold listen_try in *.
  destruct prepare as [e|]; [|destruct do_listen as [e|]; [|discriminate]];
    destruct again; cbn [fst snd app] in *;
    rewrite ?count_events_app, ?count_events_cons, ?count_events_nil;
    cbn [is_sleep is_log_error is_prepare is_listen filter List.length].
  - destruct C as (C1 & C2); [discriminate|].
    repeat (split || intro); try lia; try congruence.
    right. right. now apply E.
  - destruct C as (C1 & C2); [discriminate|].
    repeat (split || intro); try lia; try congruence.
    right. now left.
  - destruct (D eq_refl) as (D1 & D2 & D3).
    assert (D4 := D3 ltac:(discriminate)).
    repeat (split || intro); try lia; try congruence.
    right. right. now apply E.
  - destruct (D eq_refl) as (D1 & D2 & D3).
    assert (D4 := D3 ltac:(discriminate)).
    repeat (split || intro); try lia; try congruence.
    right. now left.
Qed.

Lemma listen_facts_all (running : list bool) :
  facts running /\ forall b, facts (b :: running).
Proof.
  induction running as [|a rest [IH1 IH2]].
  - split; [apply listen_facts_nil|].
    intros [|]; [apply listen_facts_one | apply listen_facts_stop].
  - split; [apply IH2|].
    intros [|]; [|apply listen_facts_stop].
    destruct (snd (listen_try prepare do_listen)) as [exc|] eqn:T.
    + now apply (@listen_facts_fail a rest exc T).
    + apply (@listen_facts_pass (a :: rest) T). apply IH2.
Qed.

End ListenFacts.


